(** * audio-graph-prototype: the node scheduling algorithm of [src/index.ts]

    A shallow embedding of [schedule] (with its inner [acquireBuffer],
    [releaseBuffer] and [visit]) and of [render], followed by the
    properties of the compiled schedule.

    Objects of the TypeScript program are mutable and shared by reference.
    Nodes therefore live in a store ([gmap NodeRef Node.t]) and are named
    by their reference; ports are owned by their node and are addressed by
    their index in the node's [inputs] / [outputs] array.  A [Buffer] is an
    empty object whose identity is all that matters: it is modelled by the
    number of the allocation that created it. *)

From Stdlib Require Import ZArith.
From Stdlib Require Import Floats.SpecFloat.
From stdpp Require Import gmap strings list relations.

Local Open Scope Z_scope.

(** ** Values *)

(** [number]: a JavaScript number is an IEEE 754 double: a zero or an
    infinity of either sign, NaN, or a finite value [m * 2 ^ e].  Its
    arithmetic is the one of [SpecFloat] at the precision (53 bits) and the
    exponent range (infinities at 2 ^ 1024) of binary64, rounding to the
    nearest double, ties to even. *)
Definition number : Type := spec_float.

Global Instance number_eq_dec : EqDecision number.
Proof. solve_decision. Defined.

(** The number that an integer literal of the program denotes. *)
Definition of_int (z : Z) : number := binary_normalize 53 1024 z 0 false.

(** [x as number] where [x] may be [undefined]: the cast does nothing at run
    time, the arithmetic that follows converts [undefined] to [NaN]. *)
Definition asNumber (v : option number) : number := default S754_nan v.

(** [Math.max(a, b)]: NaN if either argument is, and [+0] above [-0]. *)
Definition Math_max (a b : number) : number :=
  match SFcompare a b with
  | None => S754_nan
  | Some Lt => b
  | Some Gt => a
  | Some Eq => match a with S754_zero true => b | _ => a end
  end.

(** [a + b] and [a - b] *)
Definition number_add (a b : number) : number := SFadd 53 1024 a b.

Definition number_sub (a b : number) : number := SFsub 53 1024 a b.

(** [c != 0]: false for the two zeros, true for every other number and for
    NaN. *)
Definition number_neq0 (c : number) : bool := negb (SFeqb c (of_int 0)).

(** truthiness of an optional number, as tested by [if (compensation)]:
    [undefined], the two zeros and NaN are falsy. *)
Definition truthy (c : option number) : bool :=
  match c with
  | Some (S754_zero _) | Some S754_nan | None => false
  | Some _ => true
  end.

Global Arguments of_int : simpl never.
Global Arguments Math_max : simpl never.
Global Arguments number_add : simpl never.
Global Arguments number_sub : simpl never.
Global Arguments number_neq0 : simpl never.

(** The whole number that a number stands for, when it stands for one. *)
Definition to_int (x : number) : Z :=
  match x with
  | S754_finite s m e => cond_Zopp s (Z.shiftl (Zpos m) e)
  | _ => 0
  end.

(** ** Types of the program *)

Definition Buffer := nat.
Definition NodeRef := nat.

Module BufferAssignment.
Record t := mk {
  port : string;
  buffer : option Buffer;
  compensation : option number
}.
End BufferAssignment.

Module Connection.
Record t := mk {
  node : NodeRef;
  port : string
}.
End Connection.

Module Port.
Record t := mk {
  name : string;
  connection : option Connection.t;
  latency : option number;
  compensation : option number;
  buffer : option Buffer
}.

Definition set_latency (v : option number) (p : t) : t :=
  mk (name p) (connection p) v (compensation p) (buffer p).
Definition set_compensation (v : option number) (p : t) : t :=
  mk (name p) (connection p) (latency p) v (buffer p).
Definition set_buffer (v : option Buffer) (p : t) : t :=
  mk (name p) (connection p) (latency p) (compensation p) v.
End Port.

Module Node.
Record t := mk {
  name : string;
  inputs : list Port.t;
  outputs : list Port.t;
  latency : option number;
  delay : number;
  visited : bool
}.

Definition set_inputs (v : list Port.t) (n : t) : t :=
  mk (name n) v (outputs n) (latency n) (delay n) (visited n).
Definition set_outputs (v : list Port.t) (n : t) : t :=
  mk (name n) (inputs n) v (latency n) (delay n) (visited n).
Definition set_latency (v : option number) (n : t) : t :=
  mk (name n) (inputs n) (outputs n) v (delay n) (visited n).
Definition set_visited (v : bool) (n : t) : t :=
  mk (name n) (inputs n) (outputs n) (latency n) (delay n) v.
End Node.

Module Scheduled.
Record t := mk {
  node : NodeRef;
  inputs : list BufferAssignment.t;
  outputs : list BufferAssignment.t
}.
End Scheduled.

Global Instance BufferAssignment_eq_dec : EqDecision BufferAssignment.t.
Proof. solve_decision. Defined.
Global Instance Connection_eq_dec : EqDecision Connection.t.
Proof. solve_decision. Defined.
Global Instance Port_eq_dec : EqDecision Port.t.
Proof. solve_decision. Defined.
Global Instance Node_eq_dec : EqDecision Node.t.
Proof. solve_decision. Defined.
Global Instance Scheduled_eq_dec : EqDecision Scheduled.t.
Proof. solve_decision. Defined.

(** The object store: every [Node] the graph is made of. *)
Abbreviation Graph := (gmap NodeRef Node.t).

(** ** The state of one call of [schedule]

    [order] and [bufferStack] are the two local arrays of [schedule]; the
    top of the stack (the end of the array) is the head of the list.  A
    slot of the stack holds whatever was pushed, which the types of the
    program do not keep from being [undefined].  [allocated] counts the
    [{}] objects created so far. *)
Record State := mkState {
  heap : Graph;
  order : list Scheduled.t;
  bufferStack : list (option Buffer);
  allocated : nat
}.

Definition set_heap (h : Graph) (s : State) : State :=
  mkState h (order s) (bufferStack s) (allocated s).

(** [acquireBuffer] (lines 78-84): a new buffer when the stack is empty,
    the buffer on top of it otherwise. *)
Definition acquireBuffer (s : State) : option Buffer * State :=
  match bufferStack s with
  | [] => (Some (allocated s),
           mkState (heap s) (order s) [] (S (allocated s)))
  | b :: rest => (b, mkState (heap s) (order s) rest (allocated s))
  end.

(** [releaseBuffer] (lines 85-87) *)
Definition releaseBuffer (buffer : option Buffer) (s : State) : State :=
  mkState (heap s) (order s) (buffer :: bufferStack s) (allocated s).

(** In-place updates of a node, and of one of its input ports. *)
Definition updNode (node : NodeRef) (f : Node.t → Node.t) (s : State) : State :=
  set_heap (alter f node (heap s)) s.

Definition updInput (node : NodeRef) (i : nat) (f : Port.t → Port.t)
    (s : State) : State :=
  updNode node (λ nd, Node.set_inputs (alter f i (Node.inputs nd)) nd) s.

(** [for (let output of node.outputs) output.buffer = acquireBuffer()] *)
Fixpoint acquireEach (ports : list Port.t) (s : State) : list Port.t * State :=
  match ports with
  | [] => ([], s)
  | output :: rest =>
      let '(b, s1) := acquireBuffer s in
      let '(rest', s2) := acquireEach rest s1 in
      (Port.set_buffer b output :: rest', s2)
  end.

Definition acquireOutputs (node : NodeRef) (s : State) : State :=
  match heap s !! node with
  | Some nd =>
      let '(outs, s1) := acquireEach (Node.outputs nd) s in
      updNode node (Node.set_outputs outs) s1
  | None => s
  end.

(** [for (let output of node.outputs) releaseBuffer(output.buffer as Buffer)] *)
Definition releaseOutputs (node : NodeRef) (s : State) : State :=
  match heap s !! node with
  | Some nd =>
      foldl (λ s output, releaseBuffer (Port.buffer output) s) s (Node.outputs nd)
  | None => s
  end.

(** The result of [visit]. *)
Record Visit := mkVisit {
  v_latency : option number;
  v_outputs : list BufferAssignment.t
}.

(** The body of the loop over [node.inputs] (lines 96-113), at the port of
    index [i]; [rec] is the recursive call of [visit].  The port is written
    in the store as it is after the recursive call. *)
Definition bindInput (rec : NodeRef → State → option (Visit * State))
    (node : NodeRef) (i : nat) (s : State) : option State :=
  nd ← heap s !! node;
  input ← Node.inputs nd !! i;
  match Port.connection input with
  | Some c =>
      '(r, s1) ← rec (Connection.node c) s;
      let correspondingBuffer :=
        List.find (λ assn, bool_decide (BufferAssignment.port assn = Port.name input))
                  (v_outputs r) in
      let s2 := updInput node i (Port.set_latency (v_latency r)) s1 in
      Some (updInput node i
              (Port.set_buffer (correspondingBuffer ≫= BufferAssignment.buffer)) s2)
  | None =>
      let s1 := updInput node i (Port.set_latency (Some (of_int 0))) s in
      let '(b, s2) := acquireBuffer s1 in
      let s3 := updInput node i (Port.set_buffer b) s2 in
      Some (releaseBuffer b s3)
  end.

Fixpoint bindInputs (rec : NodeRef → State → option (Visit * State))
    (node : NodeRef) (indices : list nat) (s : State) : option State :=
  match indices with
  | [] => Some s
  | i :: rest => s1 ← bindInput rec node i s; bindInputs rec node rest s1
  end.

(** [node.inputs.map(port => port.latency as number).reduce(Math.max, 0)] *)
Definition maxInputLatency (inputs : list Port.t) : number :=
  foldl Math_max (of_int 0) (map (λ port, asNumber (Port.latency port)) inputs).

Definition compensate (maxLatency : number) (input : Port.t) : Port.t :=
  let compensation := number_sub maxLatency (asNumber (Port.latency input)) in
  if number_neq0 compensation
  then Port.set_compensation (Some compensation) input
  else input.

(** Lines 120-134: the compensation of every input, the latency of the node. *)
Definition solveLatency (nd : Node.t) : Node.t :=
  let m := maxInputLatency (Node.inputs nd) in
  Node.set_latency (Some (number_add m (Node.delay nd)))
    (Node.set_inputs (map (compensate m) (Node.inputs nd)) nd).

Definition inputAssignment (port : Port.t) : BufferAssignment.t :=
  BufferAssignment.mk (Port.name port) (Port.buffer port) (Port.compensation port).

Definition outputAssignment (port : Port.t) : BufferAssignment.t :=
  BufferAssignment.mk (Port.name port) (Port.buffer port) None.

(** [order.push({ node, inputs, outputs })] *)
Definition pushStep (node : NodeRef) (s : State) : State :=
  match heap s !! node with
  | Some nd =>
      mkState (heap s)
        (order s ++ [Scheduled.mk node (map inputAssignment (Node.inputs nd))
                                       (map outputAssignment (Node.outputs nd))])
        (bufferStack s) (allocated s)
  | None => s
  end.

(** The output assignments [visit] returns, named after the input port on
    the other side of each output. *)
Definition reportOutput (port : Port.t) : BufferAssignment.t :=
  BufferAssignment.mk
    (match Port.connection port with
     | Some c => Connection.port c
     | None => EmptyString
     end)
    (Port.buffer port) None.

(** The body of [visit] (lines 88-167); [rec] is the recursive call. *)
Definition visitNode (rec : NodeRef → State → option (Visit * State))
    (node : NodeRef) (s : State) : option (Visit * State) :=
  nd ← heap s !! node;
  s' ← (if Node.visited nd then Some s
        else
          let s1 := acquireOutputs node s in
          s2 ← bindInputs rec node (seq 0 (length (Node.inputs nd))) s1;
          let s3 := releaseOutputs node s2 in
          let s4 := updNode node solveLatency s3 in
          let s5 := pushStep node s4 in
          Some (updNode node (Node.set_visited true) s5));
  nd' ← heap s' !! node;
  Some (mkVisit (Node.latency nd') (map reportOutput (Node.outputs nd')), s').

(** [visit].  The recursion follows the graph, so it is bounded by [fuel];
    [None] is returned when the fuel is used up (or when a reference is not
    in the store, which no TypeScript value allows). *)
Fixpoint visit (fuel : nat) (node : NodeRef) (s : State) : option (Visit * State) :=
  match fuel with
  | O => None
  | S fuel' => visitNode (visit fuel') node s
  end.

Definition initial (g : Graph) : State := mkState g [] [] 0.

(** [schedule] (lines 75-170), with the state it leaves behind: the store,
    which the caller shares, and the two local arrays. *)
Definition schedule_run (fuel : nat) (root : NodeRef) (g : Graph) : option State :=
  snd <$> visit fuel root (initial g).

Definition schedule (fuel : nat) (root : NodeRef) (g : Graph)
    : option (list Scheduled.t) :=
  order <$> schedule_run fuel root g.

(** ** [render] (lines 64-73): the calls it makes, in order *)
Inductive Call :=
| CallDelay (buffer : option Buffer) (amount : number)
| CallProcess (node : NodeRef)
    (inputs outputs : list BufferAssignment.t).

Definition renderStep (step : Scheduled.t) : list Call :=
  omap (λ a, if truthy (BufferAssignment.compensation a)
             then Some (CallDelay (BufferAssignment.buffer a)
                          (asNumber (BufferAssignment.compensation a)))
             else None)
       (Scheduled.inputs step)
  ++ [CallProcess (Scheduled.node step) (Scheduled.inputs step) (Scheduled.outputs step)].

Definition render (sched : list Scheduled.t) : list Call :=
  concat (map renderStep sched).

(** ** The example graph of [index.ts] *)
Module Example.

Definition port (name : string) (c : option (NodeRef * string)) : Port.t :=
  Port.mk name ((λ c, Connection.mk c.1 c.2) <$> c) None None None.

Definition sink : NodeRef := 0%nat.
Definition left : NodeRef := 1%nat.
Definition right : NodeRef := 2%nat.
Definition source : NodeRef := 3%nat.

Definition source_node : Node.t :=
  Node.mk "source" []
    [port "out1" (Some (left, "in1")); port "out2" (Some (right, "in1"))]
    None (of_int 0) false.

Definition left_node : Node.t :=
  Node.mk "Left" [port "in1" (Some (source, "out1"))]
    [port "out1" (Some (sink, "in1"))] None (of_int 1) false.

Definition right_node : Node.t :=
  Node.mk "Right" [port "in1" (Some (source, "out2"))]
    [port "out1" (Some (sink, "in2"))] None (of_int 2) false.

Definition sink_node : Node.t :=
  Node.mk "Sink"
    [port "in1" (Some (left, "out1")); port "in2" (Some (right, "out2"))]
    [] None (of_int 0) false.

Definition graph : Graph :=
  <[source := source_node]>
  (<[left := left_node]> (<[right := right_node]> (<[sink := sink_node]> ∅))).

(** The largest delay of a path from each node of the example. *)
Definition bound (n : NodeRef) : Z :=
  match n with
  | 1%nat => 1
  | 3%nat => 0
  | _ => 2
  end.

End Example.

(** ** The graph behind the store *)

(** The nodes the inputs of [nd] are connected to. *)
Definition upstream (nd : Node.t) : list NodeRef :=
  omap (λ p, Connection.node <$> Port.connection p) (Node.inputs nd).

(** [edge g n m]: an input of [n] is connected to (an output of) [m]. *)
Definition edge (g : Graph) (n m : NodeRef) : Prop :=
  ∃ nd, g !! n = Some nd ∧ m ∈ upstream nd.

(** Every connection of an input leads to a node of the store. *)
Definition closed (g : Graph) : Prop :=
  ∀ n m, edge g n m → is_Some (g !! m).

(** Invariant 1 of the data model: no feedback path. *)
Definition acyclic (g : Graph) : Prop :=
  ∀ n, ¬ tc (edge g) n n.

(** The reset of the transient fields that has to precede a compile pass. *)
Definition resetPort (p : Port.t) : Port.t :=
  Port.mk (Port.name p) (Port.connection p) None None None.

Definition resetNode (nd : Node.t) : Node.t :=
  Node.mk (Node.name nd) (resetPort <$> Node.inputs nd)
    (resetPort <$> Node.outputs nd) None (Node.delay nd) false.

Definition reset (g : Graph) : Graph := resetNode <$> g.

Definition fresh (g : Graph) : Prop := reset g = g.

Definition visitedIn (h : Graph) (n : NodeRef) : Prop :=
  ∃ nd, h !! n = Some nd ∧ Node.visited nd = true.

(** A sufficient, computable test of acyclicity: a rank that decreases along
    every edge. *)
Definition ranked (rank : NodeRef → nat) (g : Graph) : bool :=
  bool_decide (map_Forall (λ n nd, Forall (λ m, (rank m < rank n)%nat) (upstream nd)) g).

Definition closedb (g : Graph) : bool :=
  bool_decide (map_Forall (λ _ nd, Forall (λ m, is_Some (g !! m)) (upstream nd)) g).

(** ** What a compile pass computes *)

(** The buffer that an input called [name] receives from the upstream node
    [md]: the first output of [md] that [visit] reports under that name. *)
Definition lookupBuffer (md : Node.t) (name : string) : option Buffer :=
  List.find (λ assn, bool_decide (BufferAssignment.port assn = name))
            (map reportOutput (Node.outputs md))
  ≫= BufferAssignment.buffer.

(** The maximum of the input latencies, [0] when there is none, as the
    program computes it: [lats.reduce(Math.max, 0)]. *)
Definition max_latency (lats : list number) : number :=
  foldl Math_max (of_int 0) lats.

(** The latency recurrence, on the graph alone: an unconnected input has
    latency [0], a connected one the latency of its upstream node, and a
    node the maximum over its inputs plus its own delay. *)
Inductive InputLatency (R : NodeRef → number → Prop)
    : option Connection.t → number → Prop :=
| InputLatency_unconnected : InputLatency R None (of_int 0)
| InputLatency_connected c l :
    R (Connection.node c) l → InputLatency R (Some c) l.

#[warnings="-register-all"]
Inductive Latency (g : Graph) : NodeRef → number → Prop :=
| Latency_node n nd lats :
    g !! n = Some nd →
    Forall2 (InputLatency (Latency g)) (Port.connection <$> Node.inputs nd) lats →
    Latency g n (number_add (max_latency lats) (Node.delay nd)).

(** The step that [visit] appends for a node in state [nd]. *)
Definition stepOf (n : NodeRef) (nd : Node.t) : Scheduled.t :=
  Scheduled.mk n (map inputAssignment (Node.inputs nd))
                 (map outputAssignment (Node.outputs nd)).

(** An input port whose latency [l] and buffer have been found. *)
Definition InputSolved (g h : Graph) (p : Port.t) (l : number) : Prop :=
  Port.latency p = Some l ∧
  match Port.connection p with
  | None => l = of_int 0 ∧ is_Some (Port.buffer p)
  | Some c =>
      ∃ md, h !! Connection.node c = Some md ∧ Node.visited md = true ∧
            Node.latency md = Some l ∧ Latency g (Connection.node c) l ∧
            Port.buffer p = lookupBuffer md (Port.name p)
  end.

(** The compensation recorded on an input of latency [l] when the maximum
    is [m]: the difference [m - l], unless [m - l != 0] is false. *)
Definition compensationFor (m l : number) : option number :=
  if number_neq0 (number_sub m l) then Some (number_sub m l) else None.

Definition InputDone (g h : Graph) (m : number) (p : Port.t) (l : number) : Prop :=
  InputSolved g h p l ∧ Port.compensation p = compensationFor m l.

(** A node that has been visited. *)
Definition NodeDone (g h : Graph) (n : NodeRef) (nd : Node.t) : Prop :=
  ∃ lats,
    Forall2 (InputDone g h (max_latency lats)) (Node.inputs nd) lats ∧
    Node.latency nd = Some (number_add (max_latency lats) (Node.delay nd)) ∧
    Latency g n (number_add (max_latency lats) (Node.delay nd)) ∧
    Forall (λ o, is_Some (Port.buffer o)) (Node.outputs nd).

(** The invariant of the traversal of the graph [g]. *)
Record Inv (g : Graph) (s : State) : Prop := {
  inv_shape : reset (heap s) = reset g;
  inv_closed : ∀ n m, visitedIn (heap s) n → edge g n m → visitedIn (heap s) m;
  inv_order : ∀ n, n ∈ Scheduled.node <$> order s ↔ visitedIn (heap s) n;
  inv_nodup : NoDup (Scheduled.node <$> order s);
  inv_topo : ∀ i j si sj,
    order s !! i = Some si → order s !! j = Some sj →
    edge g (Scheduled.node si) (Scheduled.node sj) → (j < i)%nat;
  inv_done : ∀ n nd,
    heap s !! n = Some nd → Node.visited nd = true →
    NodeDone g (heap s) n nd ∧ stepOf n nd ∈ order s;
  inv_stack : Forall is_Some (bufferStack s)
}.

(** ** The specification of [visit] *)

(** Whatever can be reached from [n] and is not visited yet is as it was
    when the pass began. *)
Definition Pristine (g : Graph) (n : NodeRef) (s : State) : Prop :=
  ∀ k, rtc (edge g) n k → ¬ visitedIn (heap s) k → heap s !! k = g !! k.

(** What a call [visit n] that starts in [s] leaves behind. *)
Record Post (g : Graph) (n : NodeRef) (s : State) (r : Visit) (s' : State) : Prop := {
  post_inv : Inv g s';
  post_visited : visitedIn (heap s') n;
  post_frame : ∀ k, ¬ rtc (edge g) n k → heap s' !! k = heap s !! k;
  post_kept : ∀ k kd,
    heap s !! k = Some kd → Node.visited kd = true → heap s' !! k = Some kd;
  post_new : ∀ k, visitedIn (heap s') k → visitedIn (heap s) k ∨ rtc (edge g) n k;
  post_order : ∃ new, order s' = order s ++ new;
  post_result : ∃ nd,
    heap s' !! n = Some nd ∧
    r = mkVisit (Node.latency nd) (map reportOutput (Node.outputs nd))
}.

Definition Spec (g : Graph) (rec : NodeRef → State → option (Visit * State)) : Prop :=
  ∀ n s r s', Inv g s → Pristine g n s → rec n s = Some (r, s') → Post g n s r s'.

(** The state of the loop over the inputs of [n], entered in [s0], once
    the first [k] inputs are bound. *)
Record Loop (g : Graph) (n : NodeRef) (s0 : State) (k : nat) (s : State) : Prop := {
  loop_inv : Inv g s;
  loop_node : ∃ nd lats,
    heap s !! n = Some nd ∧ Node.visited nd = false ∧
    Forall (λ o, is_Some (Port.buffer o)) (Node.outputs nd) ∧
    Forall (λ p, Port.compensation p = None) (Node.inputs nd) ∧
    Forall2 (InputSolved g (heap s)) (take k (Node.inputs nd)) lats;
  loop_pristine : ∀ m,
    tc (edge g) n m → ¬ visitedIn (heap s) m → heap s !! m = g !! m;
  loop_frame : ∀ m, ¬ rtc (edge g) n m → heap s !! m = heap s0 !! m;
  loop_kept : ∀ m md,
    heap s0 !! m = Some md → Node.visited md = true → heap s !! m = Some md;
  loop_new : ∀ m, visitedIn (heap s) m → visitedIn (heap s0) m ∨ tc (edge g) n m;
  loop_order : ∃ new, order s = order s0 ++ new
}.

(** The state in which the visit of [n] ends. *)
Definition finish (n : NodeRef) (s2 : State) : State :=
  updNode n (Node.set_visited true)
    (pushStep n (updNode n solveLatency (releaseOutputs n s2))).


(** The latency found on an input port, in the store [h]: [0] when the port
    is not connected, the latency of the upstream node when it is. *)
Definition InputLatencyIn (h : Graph) (p : Port.t) (l : number) : Prop :=
  Port.latency p = Some l ∧
  match Port.connection p with
  | None => l = of_int 0
  | Some c =>
      ∃ md, h !! Connection.node c = Some md ∧ Node.latency md = Some l
  end.

(** ** Resolved and missing lookups *)

(** The node [md] reports an output under the name [name]. *)
Definition reports (md : Node.t) (name : string) : Prop :=
  ∃ o, o ∈ Node.outputs md ∧ BufferAssignment.port (reportOutput o) = name.

(** Every connected input is found among the outputs that its upstream
    node reports. *)
Definition resolves (g : Graph) : Prop :=
  ∀ n nd p c md,
    g !! n = Some nd → p ∈ Node.inputs nd → Port.connection p = Some c →
    g !! Connection.node c = Some md → reports md (Port.name p).

(** Some input port claims a connection to an output port that its
    upstream node does not have: no output of that node has the name that
    the connection of the input gives. *)
Definition missing_output (g : Graph) : Prop :=
  ∃ n nd p c md,
    g !! n = Some nd ∧ p ∈ Node.inputs nd ∧ Port.connection p = Some c ∧
    g !! Connection.node c = Some md ∧
    Connection.port c ∉ Port.name <$> Node.outputs md.

Definition reportsb (md : Node.t) (name : string) : bool :=
  existsb (λ o, bool_decide (BufferAssignment.port (reportOutput o) = name))
          (Node.outputs md).

Definition resolvedb (g : Graph) (p : Port.t) : bool :=
  match Port.connection p with
  | None => true
  | Some c =>
      match g !! Connection.node c with
      | None => true
      | Some md => reportsb md (Port.name p)
      end
  end.

Definition resolvesb (g : Graph) : bool :=
  bool_decide (map_Forall (λ _ nd, forallb (resolvedb g) (Node.inputs nd) = true) g).

(** ** Compensation *)

(** The last part of the compensation rule as the specification has it: a
    compensation is recorded on connected inputs only. *)
Definition compensation_only_connected (g : Graph) (steps : list Scheduled.t) : Prop :=
  ∀ st nd i p a,
    st ∈ steps → g !! Scheduled.node st = Some nd →
    Node.inputs nd !! i = Some p → Scheduled.inputs st !! i = Some a →
    is_Some (BufferAssignment.compensation a) → is_Some (Port.connection p).

(** A mixer with one input fed by a node of delay 1 and one input left
    unconnected. *)
Module Unconnected.

Definition mixer : NodeRef := 0%nat.
Definition delayed : NodeRef := 1%nat.

Definition delayed_node : Node.t :=
  Node.mk "Delayed" [] [Example.port "out" (Some (mixer, "in1"))] None (of_int 1) false.

Definition mixer_node : Node.t :=
  Node.mk "Mixer"
    [Example.port "in1" (Some (delayed, "out")); Example.port "in2" None]
    [] None (of_int 0) false.

Definition graph : Graph :=
  <[delayed := delayed_node]> (<[mixer := mixer_node]> ∅).

Definition mixer_step : Scheduled.t :=
  Scheduled.mk mixer
    [BufferAssignment.mk "in1" (Some 0%nat) None;
     BufferAssignment.mk "in2" (Some 0%nat) (Some (of_int 1))] [].

Definition steps : list Scheduled.t :=
  [ Scheduled.mk delayed [] [BufferAssignment.mk "out" (Some 0%nat) None];
    mixer_step ].

End Unconnected.

(** ** Further graphs *)

(** A consumer whose input [in1] claims the output [out2] of a producer
    that has no such output, and whose only output feeds another input. *)
Module Missing.

Definition consumer : NodeRef := 0%nat.
Definition producer : NodeRef := 1%nat.

Definition producer_node : Node.t :=
  Node.mk "Producer" [] [Example.port "out" (Some (consumer, "other"))]
    None (of_int 0) false.

Definition consumer_node : Node.t :=
  Node.mk "Consumer" [Example.port "in1" (Some (producer, "out2"))] []
    None (of_int 0) false.

Definition graph : Graph :=
  <[producer := producer_node]> (<[consumer := consumer_node]> ∅).

Definition steps : list Scheduled.t :=
  [ Scheduled.mk producer [] [BufferAssignment.mk "out" (Some 0%nat) None];
    Scheduled.mk consumer [BufferAssignment.mk "in1" None None] [] ].

End Missing.

(** One output with two consumers whose inputs have different names. *)
Module Fanout.

Definition sink : NodeRef := 0%nat.
Definition first : NodeRef := 1%nat.
Definition second : NodeRef := 2%nat.
Definition tee : NodeRef := 3%nat.

Definition tee_node : Node.t :=
  Node.mk "Tee" [] [Example.port "out" (Some (first, "in"))] None (of_int 0) false.

Definition first_node : Node.t :=
  Node.mk "First" [Example.port "in" (Some (tee, "out"))]
    [Example.port "out" (Some (sink, "in1"))] None (of_int 0) false.

Definition second_node : Node.t :=
  Node.mk "Second" [Example.port "signal" (Some (tee, "out"))]
    [Example.port "out" (Some (sink, "in2"))] None (of_int 0) false.

Definition sink_node : Node.t :=
  Node.mk "Sink"
    [Example.port "in1" (Some (first, "out")); Example.port "in2" (Some (second, "out"))]
    [] None (of_int 0) false.

Definition graph : Graph :=
  <[tee := tee_node]>
  (<[first := first_node]> (<[second := second_node]> (<[sink := sink_node]> ∅))).

Definition tee_step : Scheduled.t :=
  Scheduled.mk tee [] [BufferAssignment.mk "out" (Some 1%nat) None].

Definition first_step : Scheduled.t :=
  Scheduled.mk first [BufferAssignment.mk "in" (Some 1%nat) None]
    [BufferAssignment.mk "out" (Some 0%nat) None].

Definition second_step : Scheduled.t :=
  Scheduled.mk second [BufferAssignment.mk "signal" None None]
    [BufferAssignment.mk "out" (Some 0%nat) None].

Definition sink_step : Scheduled.t :=
  Scheduled.mk sink
    [BufferAssignment.mk "in1" (Some 0%nat) None;
     BufferAssignment.mk "in2" (Some 0%nat) None] [].

Definition steps : list Scheduled.t := [tee_step; first_step; second_step; sink_step].

End Fanout.

(** ** The schedule of the example graph *)

Definition example_source_step : Scheduled.t :=
  Scheduled.mk Example.source []
    [BufferAssignment.mk "out1" (Some 1%nat) None;
     BufferAssignment.mk "out2" (Some 2%nat) None].

Definition example_left_step : Scheduled.t :=
  Scheduled.mk Example.left
    [BufferAssignment.mk "in1" (Some 1%nat) None]
    [BufferAssignment.mk "out1" (Some 0%nat) None].

Definition example_right_step : Scheduled.t :=
  Scheduled.mk Example.right
    [BufferAssignment.mk "in1" (Some 1%nat) None]
    [BufferAssignment.mk "out1" (Some 0%nat) None].

Definition example_sink_step : Scheduled.t :=
  Scheduled.mk Example.sink
    [BufferAssignment.mk "in1" (Some 0%nat) (Some (of_int 1));
     BufferAssignment.mk "in2" (Some 0%nat) None]
    [].

Definition example_schedule : list Scheduled.t :=
  [example_source_step; example_left_step; example_right_step; example_sink_step].

(** The input of index [x] of step [j] is connected to the node of step [i]
    and is bound to the buffer [b], which step [i] binds to an output. *)
Definition consumes (g : Graph) (steps : list Scheduled.t)
    (i j : nat) (b : Buffer) : Prop :=
  ∃ si sj nd x p c a,
    steps !! i = Some si ∧ steps !! j = Some sj ∧
    g !! Scheduled.node sj = Some nd ∧ Node.inputs nd !! x = Some p ∧
    Port.connection p = Some c ∧ Connection.node c = Scheduled.node si ∧
    Scheduled.inputs sj !! x = Some a ∧ BufferAssignment.buffer a = Some b ∧
    Some b ∈ BufferAssignment.buffer <$> Scheduled.outputs si.

(** Sound reuse of buffers: between the step that produces a buffer and a
    step that consumes it, no step binds the same buffer to an output. *)
Definition reuse_sound (g : Graph) (steps : list Scheduled.t) : Prop :=
  ∀ i j k b sk,
    consumes g steps i j b → (i < k < j)%nat → steps !! k = Some sk →
    Some b ∉ BufferAssignment.buffer <$> Scheduled.outputs sk.

(** Fan-out done right: an input is bound to the buffer of the output that
    its connection names. *)
Definition fanout_correct (g : Graph) (steps : list Scheduled.t) : Prop :=
  ∀ si sj nd x p c a o,
    si ∈ steps → sj ∈ steps →
    g !! Scheduled.node sj = Some nd → Node.inputs nd !! x = Some p →
    Port.connection p = Some c → Connection.node c = Scheduled.node si →
    Scheduled.inputs sj !! x = Some a →
    o ∈ Scheduled.outputs si → BufferAssignment.port o = Connection.port c →
    BufferAssignment.buffer a = BufferAssignment.buffer o.

(** ** What [render] does with a schedule *)

(** The nodes whose [process] is called, in the order of the calls. *)
Definition processed (calls : list Call) : list NodeRef :=
  omap (λ c, match c with
             | CallProcess n _ _ => Some n
             | CallDelay _ _ => None
             end) calls.

(** The calls of [process] alone, and the calls of [delay] alone. *)
Definition isProcess (c : Call) : bool :=
  match c with
  | CallProcess _ _ _ => true
  | CallDelay _ _ => false
  end.

(** The call of [process] that [render] makes for a step. *)
Definition processCall (step : Scheduled.t) : Call :=
  CallProcess (Scheduled.node step) (Scheduled.inputs step) (Scheduled.outputs step).

(** The amount of a call of [delay] is a number other than zero: it is
    not NaN, and [amount != 0] holds. *)
Definition delayNonzero (c : Call) : Prop :=
  match c with
  | CallDelay _ amount => amount ≠ S754_nan ∧ number_neq0 amount = true
  | CallProcess _ _ _ => True
  end.

(** ** Paths of the graph and their delay *)

(** [is_path g n rest]: the nodes [n :: rest] follow one another along input
    connections. *)
Fixpoint is_path (g : Graph) (n : NodeRef) (rest : list NodeRef) : Prop :=
  match rest with
  | [] => True
  | m :: rest' => edge g n m ∧ is_path g m rest'
  end.

(** The delay of a node, in whole samples. *)
Definition delay_of (g : Graph) (n : NodeRef) : Z :=
  from_option (λ nd, to_int (Node.delay nd)) 0 (g !! n).

(** The sum of the delays of the nodes of a path. *)
Definition path_delay (g : Graph) (path : list NodeRef) : Z :=
  foldr (λ n acc, delay_of g n + acc) 0 path.

(** ** Feedback *)

(** A set of nodes of the store, none of them marked, each of which has an
    input connected to a node of the set: a traversal that enters it cannot
    leave it. *)
Definition trap (C : NodeRef → Prop) (h : Graph) : Prop :=
  ∀ x, C x → ¬ visitedIn h x ∧ ∃ y, C y ∧ edge h x y.

(** Two nodes that feed each other. *)
Module Feedback.

Definition ping : NodeRef := 0%nat.
Definition pong : NodeRef := 1%nat.

Definition ping_node : Node.t :=
  Node.mk "Ping" [Example.port "in" (Some (pong, "out"))]
    [Example.port "out" (Some (pong, "in"))] None (of_int 1) false.

Definition pong_node : Node.t :=
  Node.mk "Pong" [Example.port "in" (Some (ping, "out"))]
    [Example.port "out" (Some (ping, "in"))] None (of_int 1) false.

Definition graph : Graph := <[ping := ping_node]> (<[pong := pong_node]> ∅).

End Feedback.

(** ** The accounts of the buffer pool *)

(** The buffers created when the count of allocations goes from [a] to [a']. *)
Definition newBuffers (a a' : nat) : list (option Buffer) :=
  Some <$> seq a (a' - a).

(** A buffer that has been allocated. *)
Definition allocatedBuffer (a : nat) (b : option Buffer) : Prop :=
  ∃ x, b = Some x ∧ (x < a)%nat.

(** A pool in order: no buffer is in it twice, and it holds allocated
    buffers only. *)
Definition PoolOk (s : State) : Prop :=
  NoDup (bufferStack s) ∧ Forall (allocatedBuffer (allocated s)) (bufferStack s).

(** What a call of [visit] does to the pool: it gives back what it took,
    and adds the buffers that it created. *)
Record PoolPost (s s' : State) : Prop := {
  pool_allocated : (allocated s ≤ allocated s')%nat;
  pool_stack :
    bufferStack s' ≡ₚ bufferStack s ++ newBuffers (allocated s) (allocated s')
}.

(** The output buffers of a step: allocated, and no two the same. *)
Definition outputsOk (a : nat) (st : Scheduled.t) : Prop :=
  NoDup (BufferAssignment.buffer <$> Scheduled.outputs st) ∧
  Forall (allocatedBuffer a) (BufferAssignment.buffer <$> Scheduled.outputs st).

Definition PoolSpec (g : Graph)
    (rec : NodeRef → State → option (Visit * State)) : Prop :=
  ∀ n s r s',
    Inv g s → Pristine g n s → PoolOk s → Forall (outputsOk (allocated s)) (order s) →
    rec n s = Some (r, s') →
    PoolPost s s' ∧ Forall (outputsOk (allocated s')) (order s').


(** The pool during the loop over the inputs of [n], which was entered in
    [s1] with the buffers [held] bound to the outputs of [n]. *)
Record PoolLoop (n : NodeRef) (held : list (option Buffer)) (s1 s : State)
    : Prop := {
  pl_post : PoolPost s1 s;
  pl_order : Forall (outputsOk (allocated s)) (order s);
  pl_held : ∃ nd, heap s !! n = Some nd ∧ Port.buffer <$> Node.outputs nd = held
}.


(** ** A store with marks left by an earlier pass *)

(** What a call of [visit] that goes from [s] to [s'] leaves alone: the
    nodes that were marked in [s] are as they were, and the steps appended
    are for nodes that were not marked. *)
Record Kept (s s' : State) : Prop := {
  kept_marked : ∀ n nd,
    heap s !! n = Some nd → Node.visited nd = true → heap s' !! n = Some nd;
  kept_order : ∃ new,
    order s' = order s ++ new ∧
    ∀ st, st ∈ new → ¬ visitedIn (heap s) (Scheduled.node st)
}.

(** The example graph, its source marked by an earlier pass. *)
Module Stale.

Definition graph : Graph :=
  <[Example.source := Node.set_visited true Example.source_node]> Example.graph.

End Stale.




(** ** Whole numbers of samples *)

(** The mantissa [m] with [k] more binary digits, all zero. *)
Definition shl (m : positive) (k : nat) : positive := Nat.iter k xO m.

(** The double that stands for the positive integer [c], when [c] is
    below [2 ^ 53]: the mantissa takes up all 53 bits. *)
Definition canon (c : positive) : number :=
  S754_finite false (shl c (Z.to_nat (53 - Zpos (digits2_pos c))))
    (Zpos (digits2_pos c) - 53).

(** The maximum of whole latencies, [0] when there is none. *)
Definition max_int (zs : list Z) : Z := foldr Z.max 0 zs.

(** The delays of [g] are whole numbers of samples, none of them negative,
    and [bound n] is at least the delay of any path of connections that
    starts at [n], and is below [2 ^ 53]: the sums that a compile pass makes
    are exact. *)
Definition within (bound : NodeRef → Z) (g : Graph) : bool :=
  bool_decide (map_Forall (λ n nd,
    of_int (to_int (Node.delay nd)) = Node.delay nd ∧
    0 ≤ to_int (Node.delay nd) ∧
    to_int (Node.delay nd) ≤ bound n ∧ bound n < 2 ^ 53 ∧
    Forall (λ m, bound m + to_int (Node.delay nd) ≤ bound n) (upstream nd)) g).

(** [z] is the largest delay of a path that starts at [n]. *)
Definition Longest (g : Graph) (n : NodeRef) (z : Z) : Prop :=
  (∀ rest, is_path g n rest → path_delay g (n :: rest) ≤ z) ∧
  (∃ rest, is_path g n rest ∧ path_delay g (n :: rest) = z).

(** The latency of a whole input: [0] when it is not connected, the
    largest delay of a path from the upstream node when it is. *)
Definition WholeInput (g : Graph) (d b : Z) (co : option Connection.t) (z : Z)
    : Prop :=
  0 ≤ z ∧ z + d ≤ b ∧
  match co with
  | None => z = 0
  | Some c => Longest g (Connection.node c) z
  end.

(** Every compensation of the schedule is a strictly positive number. *)
Definition compensation_positive (steps : list Scheduled.t) : Prop :=
  ∀ st a c,
    st ∈ steps → a ∈ Scheduled.inputs st →
    BufferAssignment.compensation a = Some c → SFltb (of_int 0) c = true.

(** Two nodes in a row whose delays are finite and add up to more than any
    double, and a mixer with one input fed by them and one input left
    unconnected. *)
Module Overflow.

Definition mixer : NodeRef := 0%nat.
Definition second : NodeRef := 1%nat.
Definition first : NodeRef := 2%nat.

Definition huge : number := of_int (2 ^ 1023).

Definition first_node : Node.t :=
  Node.mk "First" [] [Example.port "out" (Some (second, "in"))] None huge false.

Definition second_node : Node.t :=
  Node.mk "Second" [Example.port "in" (Some (first, "out"))]
    [Example.port "out" (Some (mixer, "in1"))] None huge false.

Definition mixer_node : Node.t :=
  Node.mk "Mixer"
    [Example.port "in1" (Some (second, "out")); Example.port "in2" None]
    [] None (of_int 0) false.

Definition graph : Graph :=
  <[first := first_node]> (<[second := second_node]> (<[mixer := mixer_node]> ∅)).

Definition mixer_step : Scheduled.t :=
  Scheduled.mk mixer
    [BufferAssignment.mk "in1" (Some 0%nat) (Some S754_nan);
     BufferAssignment.mk "in2" (Some 0%nat) (Some (S754_infinity false))] [].

Definition steps : list Scheduled.t :=
  [ Scheduled.mk first [] [BufferAssignment.mk "out" (Some 1%nat) None];
    Scheduled.mk second [BufferAssignment.mk "in" (Some 1%nat) None]
      [BufferAssignment.mk "out" (Some 0%nat) None];
    mixer_step ].

End Overflow.

(** ** Doubles *)

(** [x] is a double: a finite [x] has a mantissa of at most 53 bits and an
    exponent in the range of binary64, and is written in the one way in
    which binary64 writes it. *)
Definition is_double (x : number) : Prop := valid_binary 53 1024 x = true.

(** The delays of [g] are doubles. *)
Definition doubles (g : Graph) : bool :=
  bool_decide (map_Forall (λ _ nd, valid_binary 53 1024 (Node.delay nd) = true) g).

(** [x] is a finite double of sign [s], or the infinity of that sign:
    what rounding a mantissa that is not zero gives. *)
Definition rounded (s : bool) (x : number) : Prop :=
  match x with
  | S754_finite s' m e => s' = s ∧ bounded 53 1024 m e = true
  | S754_infinity s' => s' = s
  | _ => False
  end.

(** The mantissa of a finite double at the exponent [ez], with its sign. *)
Definition aligned_value (s : bool) (m : positive) (e ez : Z) : Z :=
  cond_Zopp s (Zpos m * 2 ^ (e - ez)).

(** * Proofs *)

(** ** Numbers: whole numbers below [2 ^ 53] are added, subtracted and
    compared exactly *)

Lemma shl_Z m k : Zpos (shl m k) = Zpos m * 2 ^ Z.of_nat k.
Proof.
  induction k as [|k IH]; [simpl; lia|].
  change (shl m (S k)) with (xO (shl m k)).
  rewrite Pos2Z.inj_xO, IH, Nat2Z.inj_succ, Z.pow_succ_r by lia. lia.
Qed.

Lemma shl_add m j k : shl (shl m j) k = shl m (j + k).
Proof. unfold shl. by rewrite Nat.add_comm, Nat.iter_add. Qed.

Lemma Pos_iter_shl m d : Pos.iter xO m d = shl m (Pos.to_nat d).
Proof. apply Pos2Nat.inj_iter. Qed.

Lemma digits_size m : digits2_pos m = Pos.size m.
Proof. induction m; simpl; congruence. Qed.

Lemma digits_shl m k :
  Zpos (digits2_pos (shl m k)) = Zpos (digits2_pos m) + Z.of_nat k.
Proof.
  induction k as [|k IH]; [simpl; lia|].
  change (shl m (S k)) with (xO (shl m k)). cbn [digits2_pos].
  rewrite Pos2Z.inj_succ, IH. lia.
Qed.

Lemma iter_pos_nat {A} (f : A → A) p x :
  SpecFloat.iter_pos f p x = Nat.iter (Pos.to_nat p) f x.
Proof.
  revert x. induction p as [p IH|p IH|]; intros x; cbn [SpecFloat.iter_pos].
  - rewrite !IH, Pos2Nat.inj_xI, <-Nat.iter_succ_r, <-Nat.iter_add.
    f_equal. lia.
  - rewrite !IH, Pos2Nat.inj_xO, <-Nat.iter_add. f_equal. lia.
  - reflexivity.
Qed.

Lemma shr_exact m k :
  Nat.iter k shr_1 (Build_shr_record (Zpos (shl m k)) false false)
  = Build_shr_record (Zpos m) false false.
Proof.
  induction k as [|k IH]; [done|].
  rewrite Nat.iter_succ_r. change (shl m (S k)) with (xO (shl m k)).
  exact IH.
Qed.

Lemma digits_bound c : Zpos c < 2 ^ 53 → Zpos (digits2_pos c) ≤ 53.
Proof.
  intros Hc. rewrite digits_size.
  destruct (Z_le_gt_dec (Zpos (Pos.size c)) 53) as [|Hgt]; [done|exfalso].
  assert (H := Pos.size_le c).
  assert (H2 : 2 ^ 54 ≤ 2 ^ Zpos (Pos.size c)) by (apply Z.pow_le_mono_r; lia).
  assert (H3 : Zpos (2 ^ Pos.size c) = 2 ^ Zpos (Pos.size c)) by apply Pos2Z.inj_pow.
  assert (H4 : Zpos (2 ^ Pos.size c) ≤ Zpos c~0) by exact H.
  rewrite Pos2Z.inj_xO in H4. change (2^54) with (2 * 2^53) in H2. lia.
Qed.

Lemma round_canonical s M E :
  Zpos (digits2_pos M) = 53 → -1074 ≤ E ≤ 971 →
  binary_round_aux 53 1024 s (Zpos M) E loc_Exact = S754_finite s M E.
Proof.
  intros Hd HE. unfold binary_round_aux, shr_fexp, fexp, emin.
  cbn [Zdigits2 shr_record_of_loc]. rewrite Hd.
  replace (Z.max (53 + E - 53) (3 - 1024 - 53) - E) with 0 by lia.
  cbn [shr shr_m loc_of_shr_record round_nearest_even Zdigits2 shr_record_of_loc].
  rewrite Hd.
  replace (Z.max (53 + E - 53) (3 - 1024 - 53) - E) with 0 by lia.
  cbn [shr shr_m]. replace (E <=? 1024 - 53) with true; [done|].
  symmetry. apply Z.leb_le. lia.
Qed.

Lemma norm c t :
  Zpos c < 2 ^ 53 →
  binary_round 53 1024 false (shl c t) (- Z.of_nat t) = canon c.
Proof.
  intros Hc. assert (Hd := digits_bound c Hc).
  assert (Hd1 : 1 ≤ Zpos (digits2_pos c)) by lia.
  set (d := Zpos (digits2_pos c)) in *.
  unfold binary_round, fexp, emin. rewrite digits_shl. fold d.
  replace (Z.max (d + Z.of_nat t + - Z.of_nat t - 53) (3 - 1024 - 53)) with (d - 53) by lia.
  unfold shl_align.
  assert (Hcanon : Zpos (digits2_pos (shl c (Z.to_nat (53 - d)))) = 53).
  { rewrite digits_shl. fold d. lia. }
  destruct (d - 53 - - Z.of_nat t) as [|p|q] eqn:Hcase.
  - replace (- Z.of_nat t) with (d - 53) by lia.
    replace t with (Z.to_nat (53 - d)) by lia.
    rewrite round_canonical; [done|done|lia].
  - unfold binary_round_aux, shr_fexp, fexp, emin.
    cbn [Zdigits2 shr_record_of_loc]. rewrite digits_shl. fold d.
    replace (Z.max (d + Z.of_nat t + - Z.of_nat t - 53) (3 - 1024 - 53) - - Z.of_nat t)
      with (Zpos p) by lia.
    cbn [shr]. rewrite iter_pos_nat.
    replace t with (Z.to_nat (53 - d) + Pos.to_nat p)%nat by lia.
    rewrite <-shl_add, shr_exact.
    cbn [shr_m loc_of_shr_record round_nearest_even Zdigits2 shr_record_of_loc].
    rewrite Hcanon.
    replace (- Z.of_nat (Z.to_nat (53 - d) + Pos.to_nat p) + Zpos p) with (d - 53) by lia.
    replace (Z.max (53 + (d - 53) - 53) (3 - 1024 - 53) - (d - 53)) with 0 by lia.
    cbn [shr shr_m]. replace (d - 53 <=? 1024 - 53) with true; [done|].
    symmetry. apply Z.leb_le. lia.
  - rewrite Pos_iter_shl, shl_add.
    replace (t + Pos.to_nat q)%nat with (Z.to_nat (53 - d)) by lia.
    rewrite round_canonical; [done|done|lia].
Qed.

Lemma of_int_pos c : Zpos c < 2 ^ 53 → of_int (Zpos c) = canon c.
Proof. intros Hc. exact (norm c 0 Hc). Qed.

Lemma aligned c E ez :
  Zpos c < 2 ^ 53 → E = Zpos (digits2_pos c) - 53 → ez ≤ E →
  fst (shl_align (shl c (Z.to_nat (53 - Zpos (digits2_pos c)))) E ez)
  = shl c (Z.to_nat (- ez)).
Proof.
  intros Hc -> Hez. assert (Hd := digits_bound c Hc).
  unfold shl_align. destruct (ez - _) as [|p|q] eqn:Hcase; cbn [fst].
  - f_equal. lia.
  - lia.
  - rewrite Pos_iter_shl, shl_add. f_equal. lia.
Qed.

Lemma shl_plus a b t : (shl a t + shl b t)%positive = shl (a + b) t.
Proof. apply Pos2Z.inj. rewrite Pos2Z.inj_add, !shl_Z, Pos2Z.inj_add. lia. Qed.

Lemma add_canon a b :
  Zpos a + Zpos b < 2 ^ 53 →
  SFadd 53 1024 (canon a) (canon b) = canon (a + b).
Proof.
  intros Hab. unfold canon at 1 2. cbn [SFadd cond_Zopp].
  set (ez := Z.min _ _).
  assert (Ha := digits_bound a ltac:(lia)). assert (Hb := digits_bound b ltac:(lia)).
  rewrite (aligned a), (aligned b) by lia.
  rewrite <-Pos2Z.inj_add, shl_plus. cbn [binary_normalize].
  replace ez with (- Z.of_nat (Z.to_nat (- ez))) at 2 by lia.
  apply norm. rewrite Pos2Z.inj_add. lia.
Qed.

Lemma sub_canon a b :
  Zpos a < Zpos b → Zpos b < 2 ^ 53 →
  SFsub 53 1024 (canon b) (canon a) = canon (b - a).
Proof.
  intros Hab Hb. unfold canon at 1 2. cbn [SFsub cond_Zopp].
  set (ez := Z.min _ _).
  assert (Ha' := digits_bound a ltac:(lia)). assert (Hb' := digits_bound b ltac:(lia)).
  rewrite (aligned a), (aligned b) by lia.
  assert (Hlt : (a < b)%positive) by lia.
  replace (Zpos (shl b (Z.to_nat (- ez))) - Zpos (shl a (Z.to_nat (- ez))))
    with (Zpos (shl (b - a) (Z.to_nat (- ez)))).
  2:{ rewrite !shl_Z, (Pos2Z.inj_sub _ _ Hlt). lia. }
  cbn [binary_normalize].
  replace ez with (- Z.of_nat (Z.to_nat (- ez))) at 2 by lia.
  apply norm. rewrite (Pos2Z.inj_sub _ _ Hlt). lia.
Qed.

Lemma sub_canon_same a : SFsub 53 1024 (canon a) (canon a) = S754_zero false.
Proof. unfold canon. cbn [SFsub cond_Zopp]. by rewrite Z.sub_diag. Qed.

Lemma size_lt a b : (Pos.size a < Pos.size b)%positive → (a < b)%positive.
Proof.
  intros Hs. assert (Ha := Pos.size_gt a). assert (Hb := Pos.size_le b).
  assert (H : 2 ^ (Zpos (Pos.size a) + 1) ≤ 2 ^ Zpos (Pos.size b))
    by (apply Z.pow_le_mono_r; lia).
  rewrite Z.pow_add_r in H by lia.
  assert (Ha' : Zpos a < 2 ^ Zpos (Pos.size a)).
  { rewrite <-Pos2Z.inj_pow. exact Ha. }
  assert (Hb' : 2 ^ Zpos (Pos.size b) ≤ 2 * Zpos b).
  { rewrite <-Pos2Z.inj_pow. exact Hb. }
  lia.
Qed.

Lemma compare_canon a b :
  Zpos a < 2 ^ 53 → Zpos b < 2 ^ 53 →
  SFcompare (canon a) (canon b) = Some (Pos.compare a b).
Proof.
  intros Ha Hb. unfold canon. rewrite (digits_size a), (digits_size b).
  cbn [SFcompare]. f_equal.
  destruct (Z.compare_spec (Zpos (Pos.size a) - 53) (Zpos (Pos.size b) - 53)) as [He|Hl|Hg].
  - assert (Pos.size a = Pos.size b) as -> by lia.
    change (Pos.compare_cont Eq ?x ?y) with (Pos.compare x y).
    rewrite !Pos2Z.inj_compare, !shl_Z.
    symmetry. apply Zmult_compare_compat_r.
    apply Z.lt_gt, Z.pow_pos_nonneg; lia.
  - symmetry. apply Pos.compare_lt_iff, size_lt. lia.
  - symmetry. apply Pos.compare_gt_iff, size_lt. lia.
Qed.

Lemma of_int_0 : of_int 0 = S754_zero false.
Proof. reflexivity. Qed.

Lemma of_int_add a b :
  0 ≤ a → 0 ≤ b → a + b < 2 ^ 53 →
  number_add (of_int a) (of_int b) = of_int (a + b).
Proof.
  intros Ha Hb Hab. unfold number_add.
  destruct a as [|a|a]; [|..|lia]; destruct b as [|b|b]; try lia.
  - reflexivity.
  - rewrite Z.add_0_l, of_int_0, of_int_pos by lia. reflexivity.
  - rewrite Z.add_0_r, of_int_0, of_int_pos by lia. reflexivity.
  - rewrite <-Pos2Z.inj_add, !of_int_pos by lia. apply add_canon. lia.
Qed.

Lemma of_int_sub a b :
  0 ≤ a → a ≤ b → b < 2 ^ 53 →
  number_sub (of_int b) (of_int a) = of_int (b - a).
Proof.
  intros Ha Hab Hb. unfold number_sub.
  destruct a as [|a|a]; [|..|lia]; destruct b as [|b|b]; try lia.
  - reflexivity.
  - rewrite Z.sub_0_r, of_int_0, of_int_pos by lia. reflexivity.
  - rewrite !of_int_pos by lia.
    destruct (Z.eq_dec (Zpos a) (Zpos b)) as [Heq|Hne].
    + injection Heq as ->. rewrite Z.sub_diag. apply sub_canon_same.
    + assert (Hlt : (a < b)%positive) by lia.
      rewrite <-(Pos2Z.inj_sub _ _ Hlt), of_int_pos.
      * apply sub_canon; lia.
      * rewrite (Pos2Z.inj_sub _ _ Hlt). lia.
Qed.

Lemma Math_max_of_int a b :
  0 ≤ a < 2 ^ 53 → 0 ≤ b < 2 ^ 53 →
  Math_max (of_int a) (of_int b) = of_int (Z.max a b).
Proof.
  intros Ha Hb. unfold Math_max.
  destruct a as [|a|a]; [|..|lia]; destruct b as [|b|b]; try lia.
  - reflexivity.
  - change (0 `max` Z.pos b) with (Z.pos b).
    rewrite of_int_0, of_int_pos by lia. reflexivity.
  - change (Z.pos a `max` 0) with (Z.pos a).
    rewrite of_int_0, !of_int_pos by lia. reflexivity.
  - rewrite !of_int_pos by lia. rewrite compare_canon by lia.
    rewrite Pos2Z.inj_compare.
    destruct (Z.compare_spec (Zpos a) (Zpos b)) as [He|Hl|Hg].
    + rewrite Z.max_l by lia. by rewrite of_int_pos by lia.
    + rewrite Z.max_r by lia. by rewrite of_int_pos by lia.
    + rewrite Z.max_l by lia. by rewrite of_int_pos by lia.
Qed.

Lemma of_int_neq0 z : 0 ≤ z < 2 ^ 53 → number_neq0 (of_int z) = negb (z =? 0).
Proof.
  intros Hz. destruct z as [|c|c]; [reflexivity| |lia].
  rewrite of_int_pos by lia. reflexivity.
Qed.

Lemma of_int_positive z : 0 < z < 2 ^ 53 → SFltb (of_int 0) (of_int z) = true.
Proof.
  intros Hz. destruct z as [|c|c]; [lia| |lia].
  rewrite of_int_pos by lia. reflexivity.
Qed.

Lemma max_int_nonneg zs : 0 ≤ max_int zs.
Proof. unfold max_int. induction zs; cbn [foldr]; lia. Qed.

Lemma max_int_ge zs z : z ∈ zs → z ≤ max_int zs.
Proof.
  induction 1 as [z zs|z z' zs _ IH]; unfold max_int in *; cbn [foldr]; lia.
Qed.

Lemma max_int_cases zs : max_int zs = 0 ∨ max_int zs ∈ zs.
Proof.
  induction zs as [|z zs IH]; [by left|].
  change (max_int (z :: zs)) with (Z.max z (max_int zs)).
  destruct (Z.max_spec z (max_int zs)) as [[_ ->]|[_ ->]].
  - destruct IH as [IH|IH]; [by left|]. right. by apply list_elem_of_further.
  - right. apply list_elem_of_here.
Qed.

Lemma max_int_bound zs b : 0 ≤ b → Forall (λ z, z ≤ b) zs → max_int zs ≤ b.
Proof.
  intros Hb H. induction H as [|z zs Hz _ IH]; unfold max_int in *; cbn [foldr]; lia.
Qed.

(** [reduce(Math.max, 0)] on whole numbers is their maximum. *)
Lemma max_latency_whole zs :
  Forall (λ z, 0 ≤ z < 2 ^ 53) zs →
  max_latency (of_int <$> zs) = of_int (max_int zs).
Proof.
  intros H. unfold max_latency.
  assert (Hgen : ∀ a, 0 ≤ a < 2 ^ 53 →
            foldl Math_max (of_int a) (of_int <$> zs) = of_int (Z.max a (max_int zs))).
  { induction H as [|z zs Hz _ IH]; intros a Ha.
    - cbn [fmap list_fmap foldl]. f_equal. unfold max_int. cbn [foldr]. lia.
    - rewrite fmap_cons. cbn [foldl]. rewrite Math_max_of_int by done.
      rewrite IH by lia. f_equal. unfold max_int. cbn [foldr]. lia. }
  rewrite Hgen by lia. f_equal. assert (H0 := max_int_nonneg zs). lia.
Qed.


(** ** Basic facts on graphs *)

Lemma ranked_acyclic rank g : ranked rank g = true → acyclic g.
Proof.
  intros Hr%bool_decide_eq_true.
  assert (Hstep : ∀ n m, edge g n m → (rank m < rank n)%nat).
  { intros n m (nd & Hn & Hm). specialize (Hr n nd Hn). simpl in Hr.
    rewrite Forall_forall in Hr. by apply Hr. }
  assert (Htc : ∀ n m, tc (edge g) n m → (rank m < rank n)%nat).
  { induction 1 as [n m H|n k m H _ IH]; [by apply Hstep|].
    apply Hstep in H. lia. }
  intros n Hn%Htc. lia.
Qed.

Lemma closedb_closed g : closedb g = true → closed g.
Proof.
  intros Hc%bool_decide_eq_true n m (nd & Hn & Hm).
  specialize (Hc n nd Hn). simpl in Hc. rewrite Forall_forall in Hc. by apply Hc.
Qed.

Example example_fresh : fresh Example.graph.
Proof. vm_compute. reflexivity. Qed.
Example example_closed : closed Example.graph.
Proof. apply closedb_closed. vm_compute. reflexivity. Qed.
Example example_acyclic : acyclic Example.graph.
Proof. apply (ranked_acyclic (λ n, 3 - n)%nat). vm_compute. reflexivity. Qed.

(** ** The shape of the graph does not change during a pass

    [reset] forgets exactly the fields that [visit] writes. *)

Lemma reset_lookup (h : Graph) n : reset h !! n = resetNode <$> h !! n.
Proof. apply lookup_fmap. Qed.

Lemma reset_alter (h : Graph) n f :
  (∀ nd, resetNode (f nd) = resetNode nd) → reset (alter f n h) = reset h.
Proof.
  intros Hf. apply map_eq. intros k. rewrite !reset_lookup.
  destruct (decide (n = k)) as [->|Hne].
  - rewrite lookup_alter_eq. destruct (h !! k); simpl; [by rewrite Hf|done].
  - by rewrite lookup_alter_ne.
Qed.

Lemma upstream_reset nd : upstream (resetNode nd) = upstream nd.
Proof.
  unfold upstream. simpl. induction (Node.inputs nd) as [|p l IH]; [done|].
  rewrite fmap_cons. cbn [omap list_omap] in *. rewrite IH.
  reflexivity.
Qed.

Lemma reset_eq_lookup (h g : Graph) n nd :
  reset h = reset g → h !! n = Some nd →
  ∃ nd0, g !! n = Some nd0 ∧ resetNode nd = resetNode nd0.
Proof.
  intros Heq Hn. assert (H : reset h !! n = reset g !! n) by by rewrite Heq.
  rewrite !reset_lookup, Hn in H. simpl in H.
  destruct (g !! n) as [nd0|]; [|done]. exists nd0. split; [done|].
  simpl in H. congruence.
Qed.

Lemma resetNode_upstream nd nd0 :
  resetNode nd = resetNode nd0 → upstream nd = upstream nd0.
Proof. intros H. by rewrite <-(upstream_reset nd), H, upstream_reset. Qed.

Lemma resetNode_inputs_length nd nd0 :
  resetNode nd = resetNode nd0 → length (Node.inputs nd) = length (Node.inputs nd0).
Proof.
  intros H. assert (H' := f_equal (λ x, length (Node.inputs x)) H).
  simpl in H'. by rewrite !length_fmap in H'.
Qed.

Lemma edge_shape (h g : Graph) n m : reset h = reset g → edge h n m → edge g n m.
Proof.
  intros Heq (nd & Hn & Hm).
  destruct (reset_eq_lookup h g n nd Heq Hn) as (nd0 & Hn0 & Hr).
  exists nd0. split; [done|]. by rewrite <-(resetNode_upstream _ _ Hr).
Qed.

Lemma resetPort_set_latency v p : resetPort (Port.set_latency v p) = resetPort p.
Proof. done. Qed.
Lemma resetPort_set_buffer v p : resetPort (Port.set_buffer v p) = resetPort p.
Proof. done. Qed.
Lemma resetPort_set_compensation v p : resetPort (Port.set_compensation v p) = resetPort p.
Proof. done. Qed.

Lemma resetPort_compensate m p : resetPort (compensate m p) = resetPort p.
Proof. unfold compensate. by destruct (number_neq0 _). Qed.

Lemma resetNode_alter_input f i nd :
  (∀ p, resetPort (f p) = resetPort p) →
  resetNode (Node.set_inputs (alter f i (Node.inputs nd)) nd) = resetNode nd.
Proof.
  intros Hf. unfold resetNode. simpl. f_equal.
  apply list_eq. intros j. rewrite !list_lookup_fmap.
  destruct (decide (i = j)) as [->|Hne].
  - rewrite list_lookup_alter_eq. destruct (_ !! j); simpl; [|done].
    by rewrite !Hf.
  - by rewrite list_lookup_alter_ne.
Qed.

Lemma resetNode_solveLatency nd : resetNode (solveLatency nd) = resetNode nd.
Proof.
  unfold resetNode, solveLatency. simpl. f_equal.
  rewrite <-list_fmap_compose. apply list_fmap_ext. intros _ p _. simpl.
  apply resetPort_compensate.
Qed.

Lemma resetNode_set_visited b nd : resetNode (Node.set_visited b nd) = resetNode nd.
Proof. done. Qed.

(** The pool never touches the store. *)
Lemma acquireBuffer_heap s : heap (acquireBuffer s).2 = heap s.
Proof. unfold acquireBuffer. by destruct (bufferStack s). Qed.

Lemma acquireBuffer_order s : order (acquireBuffer s).2 = order s.
Proof. unfold acquireBuffer. by destruct (bufferStack s). Qed.

Lemma acquireEach_spec ports s :
  heap (acquireEach ports s).2 = heap s ∧
  order (acquireEach ports s).2 = order s ∧
  resetPort <$> (acquireEach ports s).1 = resetPort <$> ports.
Proof.
  revert s. induction ports as [|p ports IH]; intros s; [done|].
  simpl. destruct (acquireBuffer s) as [b s1] eqn:Hb.
  destruct (acquireEach ports s1) as [rest s2] eqn:Hrest.
  specialize (IH s1). rewrite Hrest in IH. simpl in *.
  destruct IH as (-> & -> & IH).
  assert (H1 := acquireBuffer_heap s). assert (H2 := acquireBuffer_order s).
  rewrite Hb in H1, H2. simpl in *.
  rewrite H1, H2. split_and!; [done..|]. f_equal. exact IH.
Qed.

Lemma releaseEach_heap ports s :
  heap (foldl (λ s output, releaseBuffer (Port.buffer output) s) s ports) = heap s.
Proof. revert s. induction ports as [|p ports IH]; intros s; [done|]. simpl. by rewrite IH. Qed.

Lemma releaseEach_order ports s :
  order (foldl (λ s output, releaseBuffer (Port.buffer output) s) s ports) = order s.
Proof. revert s. induction ports as [|p ports IH]; intros s; [done|]. simpl. by rewrite IH. Qed.

Lemma releaseOutputs_heap n s : heap (releaseOutputs n s) = heap s.
Proof. unfold releaseOutputs. destruct (heap s !! n); [apply releaseEach_heap|done]. Qed.

Lemma releaseOutputs_order n s : order (releaseOutputs n s) = order s.
Proof. unfold releaseOutputs. destruct (heap s !! n); [apply releaseEach_order|done]. Qed.

Lemma pushStep_heap n s : heap (pushStep n s) = heap s.
Proof. unfold pushStep. by destruct (heap s !! n). Qed.

Lemma acquireOutputs_shape n s : reset (heap (acquireOutputs n s)) = reset (heap s).
Proof.
  unfold acquireOutputs. destruct (heap s !! n) as [nd|] eqn:Hn; [|done].
  destruct (acquireEach (Node.outputs nd) s) as [outs s1] eqn:He.
  destruct (acquireEach_spec (Node.outputs nd) s) as (Hh & _ & Hr).
  rewrite He in Hh, Hr. simpl in *. rewrite Hh.
  apply map_eq. intros k. rewrite !reset_lookup.
  destruct (decide (n = k)) as [->|Hne].
  - rewrite lookup_alter_eq, Hn. simpl. unfold resetNode. simpl. by rewrite Hr.
  - by rewrite lookup_alter_ne.
Qed.

Lemma updInput_shape n i f s :
  (∀ p, resetPort (f p) = resetPort p) →
  reset (heap (updInput n i f s)) = reset (heap s).
Proof. intros Hf. simpl. apply reset_alter. intros nd. by apply resetNode_alter_input. Qed.

(** Taking apart a successful run of monadic code. *)
Ltac bind_inv H :=
  repeat match type of H with
  | (?m ≫= _) = Some _ =>
      let E := fresh "E" in
      destruct m eqn:E; simpl in H; [|discriminate H]
  | (let '(_, _) := ?p in _) = Some _ =>
      let E := fresh "E" in
      destruct p eqn:E; simpl in H
  end.

Section visit_basics.
Context (rec : NodeRef → State → option (Visit * State)).
Hypothesis rec_shape :
  ∀ m s r s', rec m s = Some (r, s') → reset (heap s') = reset (heap s).

Lemma bindInput_shape n i s s' :
  bindInput rec n i s = Some s' → reset (heap s') = reset (heap s).
Proof using rec_shape.
  unfold bindInput. intros H. bind_inv H.
  destruct (Port.connection _) as [c|].
  - bind_inv H. injection H as <-.
    rewrite !updInput_shape by done. eauto.
  - destruct (acquireBuffer _) as [b s2] eqn:Hb. injection H as <-.
    change (heap (releaseBuffer b ?x)) with (heap x).
    rewrite updInput_shape by done.
    assert (Hh := acquireBuffer_heap (updInput n i (Port.set_latency (Some (of_int 0))) s)).
    rewrite Hb in Hh. cbn [snd] in Hh. rewrite Hh.
    by rewrite updInput_shape.
Qed.

Lemma bindInputs_shape n indices s s' :
  bindInputs rec n indices s = Some s' → reset (heap s') = reset (heap s).
Proof using rec_shape.
  revert s. induction indices as [|i rest IH]; intros s H; simpl in H.
  - by injection H as <-.
  - bind_inv H. rewrite (IH _ H). by eapply bindInput_shape.
Qed.

Lemma visitNode_shape n s r s' :
  visitNode rec n s = Some (r, s') → reset (heap s') = reset (heap s).
Proof using rec_shape.
  unfold visitNode. intros H. bind_inv H. injection H as _ <-.
  destruct (Node.visited _).
  - by injection E0 as <-.
  - bind_inv E0. injection E0 as <-.
    change (heap (updNode ?n ?f ?s)) with (alter f n (heap s)).
    rewrite reset_alter by done. rewrite pushStep_heap.
    change (heap (updNode ?n ?f ?s)) with (alter f n (heap s)).
    rewrite reset_alter by apply resetNode_solveLatency.
    rewrite releaseOutputs_heap.
    erewrite bindInputs_shape; [apply acquireOutputs_shape|done].
Qed.
End visit_basics.

Lemma visit_shape fuel n s r s' :
  visit fuel n s = Some (r, s') → reset (heap s') = reset (heap s).
Proof.
  revert n s r s'. induction fuel as [|fuel IH]; intros n s r s' H; [done|].
  by eapply visitNode_shape.
Qed.

(** More fuel does not change a result. *)
Section mono.
Context (rec rec' : NodeRef → State → option (Visit * State)).
Hypothesis Hrec : ∀ m s x, rec m s = Some x → rec' m s = Some x.

Lemma bindInput_mono n i s s' :
  bindInput rec n i s = Some s' → bindInput rec' n i s = Some s'.
Proof using Hrec.
  unfold bindInput.
  destruct (heap s !! n) as [nd|]; [simpl|done].
  destruct (Node.inputs nd !! i) as [input|]; [simpl|done].
  destruct (Port.connection input); [|done].
  destruct (rec _ s) as [x|] eqn:Hx; [|done].
  by rewrite (Hrec _ _ _ Hx).
Qed.

Lemma bindInputs_mono n indices s s' :
  bindInputs rec n indices s = Some s' → bindInputs rec' n indices s = Some s'.
Proof using Hrec.
  revert s. induction indices as [|i rest IH]; intros s H; [done|].
  simpl in *. bind_inv H. rewrite (bindInput_mono _ _ _ _ E). simpl. by apply IH.
Qed.

Lemma visitNode_mono n s x :
  visitNode rec n s = Some x → visitNode rec' n s = Some x.
Proof using Hrec.
  unfold visitNode.
  destruct (heap s !! n) as [nd|]; [simpl|done].
  destruct (Node.visited nd); [done|].
  destruct (bindInputs rec _ _ _) as [s2|] eqn:H2; [|done].
  by rewrite (bindInputs_mono _ _ _ _ H2).
Qed.
End mono.

Lemma visit_S fuel n s x : visit fuel n s = Some x → visit (S fuel) n s = Some x.
Proof.
  revert n s x. induction fuel as [|fuel IH]; intros n s x H; [done|].
  change (visitNode (visit (S fuel)) n s = Some x).
  change (visitNode (visit fuel) n s = Some x) in H.
  by eapply visitNode_mono.
Qed.

Lemma visit_mono fuel fuel' n s x :
  (fuel ≤ fuel')%nat → visit fuel n s = Some x → visit fuel' n s = Some x.
Proof. induction 1; [done|]. intros Hv. by apply visit_S, IHle. Qed.

Lemma input_edge (h : Graph) n nd i p c :
  h !! n = Some nd → Node.inputs nd !! i = Some p → Port.connection p = Some c →
  edge h n (Connection.node c).
Proof.
  intros Hn Hi Hc. exists nd. split; [done|]. unfold upstream.
  apply list_elem_of_omap. exists p. split; [by eapply list_elem_of_lookup_2|].
  by rewrite Hc.
Qed.

Lemma edge_inv (h : Graph) n m :
  edge h n m →
  ∃ nd i p c, h !! n = Some nd ∧ Node.inputs nd !! i = Some p ∧
    Port.connection p = Some c ∧ Connection.node c = m.
Proof.
  intros (nd & Hn & Hm). unfold upstream in Hm.
  apply list_elem_of_omap in Hm as (p & Hp & Hc).
  apply list_elem_of_lookup_1 in Hp as [i Hi].
  destruct (Port.connection p) as [c|] eqn:Hpc; [|done].
  exists nd, i, p, c. simpl in Hc. by simplify_eq.
Qed.

(** ** Termination on acyclic graphs *)
Section termination.
Context (g : Graph).
Hypothesis g_closed : closed g.

Lemma shape_lookup s n nd0 :
  reset (heap s) = reset g → g !! n = Some nd0 →
  ∃ nd, heap s !! n = Some nd ∧ resetNode nd = resetNode nd0.
Proof.
  intros Hs Hn. symmetry in Hs.
  destruct (reset_eq_lookup _ _ _ _ Hs Hn) as (nd & ? & ?). by exists nd.
Qed.

Lemma bindInputs_terminates n nd0 indices :
  g !! n = Some nd0 →
  (∀ m, edge g n m → ∀ s, reset (heap s) = reset g → ∃ fuel, is_Some (visit fuel m s)) →
  Forall (λ i, i < length (Node.inputs nd0))%nat indices →
  ∀ s, reset (heap s) = reset g →
  ∃ fuel, is_Some (bindInputs (visit fuel) n indices s).
Proof using g_closed.
  intros Hn Hrec. induction 1 as [|i rest Hi _ IH]; intros s Hs.
  { exists 0%nat. by eexists. }
  destruct (shape_lookup s n nd0 Hs Hn) as (nd & Hnd & Hr).
  rewrite <-(resetNode_inputs_length _ _ Hr) in Hi.
  apply lookup_lt_is_Some_2 in Hi as [input Hinput].
  assert (∃ fuel s1, bindInput (visit fuel) n i s = Some s1 ∧
                     reset (heap s1) = reset g) as (f1 & s1 & H1 & Hs1).
  { unfold bindInput. rewrite Hnd. simpl. rewrite Hinput. simpl.
    destruct (Port.connection input) as [c|] eqn:Hc.
    - assert (He : edge g n (Connection.node c)).
      { eapply edge_shape; [done|]. by eapply input_edge. }
      destruct (Hrec _ He s Hs) as (f1 & [r s1] & Hv).
      exists f1. rewrite Hv. simpl. eexists. split; [done|].
      rewrite !updInput_shape by done. by rewrite (visit_shape _ _ _ _ _ Hv).
    - exists 0%nat. destruct (acquireBuffer _) as [b s2] eqn:Hb.
      eexists. split; [done|].
      change (heap (releaseBuffer b ?x)) with (heap x).
      rewrite updInput_shape by done.
      assert (Hh := acquireBuffer_heap (updInput n i (Port.set_latency (Some (of_int 0))) s)).
      rewrite Hb in Hh. cbn [snd] in Hh. rewrite Hh.
      by rewrite updInput_shape. }
  destruct (IH s1 Hs1) as (f2 & s2 & H2).
  exists (f1 `max` f2)%nat, s2. simpl.
  erewrite bindInput_mono; [| |exact H1].
  2:{ intros m s' x. apply visit_mono. lia. }
  simpl. eapply bindInputs_mono; [|exact H2].
  intros m s' x. apply visit_mono. lia.
Qed.

Lemma visit_terminates_sn n :
  sn (edge g) n → is_Some (g !! n) →
  ∀ s, reset (heap s) = reset g → ∃ fuel, is_Some (visit fuel n s).
Proof using g_closed.
  induction 1 as [n _ IH]. intros [nd0 Hn] s Hs.
  destruct (shape_lookup s n nd0 Hs Hn) as (nd & Hnd & Hr).
  destruct (Node.visited nd) eqn:Hv.
  { exists 1%nat. simpl. unfold visitNode. rewrite Hnd. simpl. rewrite Hv. simpl.
    rewrite Hnd. by eexists. }
  destruct (bindInputs_terminates n nd0 (seq 0 (length (Node.inputs nd))) Hn)
    with (s := acquireOutputs n s) as (fuel & s2 & H2).
  - intros m He. apply IH; [done|]. by eapply g_closed.
  - apply Forall_forall. intros i Hi%elem_of_seq.
    rewrite <-(resetNode_inputs_length _ _ Hr). lia.
  - by rewrite acquireOutputs_shape.
  - exists (S fuel). simpl. unfold visitNode. rewrite Hnd. simpl. rewrite Hv, H2. simpl.
    assert (Hs2 : reset (heap s2) = reset g).
    { erewrite bindInputs_shape; [by rewrite acquireOutputs_shape| |done].
      apply visit_shape. }
    destruct (shape_lookup s2 n nd0 Hs2 Hn) as (nd2 & Hnd2 & _).
    rewrite lookup_alter_eq, pushStep_heap. simpl.
    rewrite lookup_alter_eq, releaseOutputs_heap, Hnd2. by eexists.
Qed.

Lemma edge_in_graph n m : tc (edge g) n m → is_Some (g !! m).
Proof using g_closed. induction 1; [by eapply g_closed|done]. Qed.

Lemma acyclic_sn n : acyclic g → sn (edge g) n.
Proof using g_closed.
  intros Hacyc. apply tc_finite_sn; [exact Hacyc|].
  exists (map fst (map_to_list g)). intros m [nd Hm]%edge_in_graph.
  apply list_elem_of_fmap. exists (m, nd). split; [done|].
  by apply elem_of_map_to_list.
Qed.

Lemma visit_terminates n s :
  acyclic g → is_Some (g !! n) → reset (heap s) = reset g →
  ∃ fuel, is_Some (visit fuel n s).
Proof using g_closed. intros. by apply visit_terminates_sn; [apply acyclic_sn|..]. Qed.
End termination.

Lemma InputSolved_ext g h h' p l :
  (∀ m md, h !! m = Some md → Node.visited md = true → h' !! m = Some md) →
  InputSolved g h p l → InputSolved g h' p l.
Proof.
  intros Hext [Hl Hc]. split; [done|].
  destruct (Port.connection p) as [c|]; [|done].
  destruct Hc as (md & Hm & Hv & ?). exists md. split; [by apply Hext|done].
Qed.

Lemma NodeDone_ext g h h' n nd :
  (∀ m md, h !! m = Some md → Node.visited md = true → h' !! m = Some md) →
  NodeDone g h n nd → NodeDone g h' n nd.
Proof.
  intros Hext (lats & Hin & ?). exists lats. split; [|done].
  eapply Forall2_impl; [exact Hin|]. intros p l [Hs Hc].
  split; [by eapply InputSolved_ext|done].
Qed.

(** A write to a node that is not visited yet, which leaves it so, keeps
    the invariant. *)
Lemma Inv_local g s s' n nd nd' :
  Inv g s →
  heap s !! n = Some nd → Node.visited nd = false →
  heap s' = <[n := nd']> (heap s) →
  resetNode nd' = resetNode nd → Node.visited nd' = false →
  order s' = order s → Forall is_Some (bufferStack s') →
  Inv g s'.
Proof.
  intros [] Hn Hv Hh Hr Hv' Ho Hst.
  assert (Hvis : ∀ k, visitedIn (heap s') k ↔ visitedIn (heap s) k).
  { intros k. unfold visitedIn. rewrite Hh. destruct (decide (k = n)) as [->|Hne].
    - rewrite lookup_insert_eq, Hn. split; intros (x & ? & ?); simplify_eq; congruence.
    - by rewrite lookup_insert_ne. }
  assert (Hext : ∀ m md, heap s !! m = Some md → Node.visited md = true →
                         heap s' !! m = Some md).
  { intros m md Hm Hmv. rewrite Hh, lookup_insert_ne; [done|].
    intros <-. congruence. }
  split.
  - rewrite Hh, <-inv_shape0. apply map_eq. intros k. rewrite !reset_lookup.
    destruct (decide (k = n)) as [->|Hne].
    + rewrite lookup_insert_eq, Hn. simpl. by rewrite Hr.
    + by rewrite lookup_insert_ne.
  - intros k m. rewrite !Hvis. apply inv_closed0.
  - intros k. rewrite Ho, Hvis. apply inv_order0.
  - by rewrite Ho.
  - rewrite Ho. apply inv_topo0.
  - intros k kd Hk Hkv. rewrite Ho.
    assert (heap s !! k = Some kd) as Hk'.
    { rewrite Hh in Hk. destruct (decide (k = n)) as [->|Hne].
      - rewrite lookup_insert_eq in Hk. congruence.
      - by rewrite lookup_insert_ne in Hk. }
    destruct (inv_done0 k kd Hk' Hkv) as [Hd Hstep].
    split; [by eapply NodeDone_ext|done].
  - done.
Qed.

(** ** The pool and the latency computation, step by step *)

Lemma updNode_heap n f s nd :
  heap s !! n = Some nd → heap (updNode n f s) = <[n := f nd]> (heap s).
Proof.
  intros Hn. simpl. apply map_eq. intros k. destruct (decide (n = k)) as [->|Hne].
  - by rewrite lookup_alter_eq, lookup_insert_eq, Hn.
  - by rewrite lookup_alter_ne, lookup_insert_ne.
Qed.

Lemma acquireBuffer_spec s b s1 :
  acquireBuffer s = (b, s1) → Forall is_Some (bufferStack s) →
  is_Some b ∧ Forall is_Some (bufferStack s1) ∧ heap s1 = heap s ∧ order s1 = order s.
Proof.
  unfold acquireBuffer. intros H Hst. destruct (bufferStack s) as [|b' rest].
  - injection H as <- <-. simpl. by split_and!.
  - injection H as <- <-. simpl. by apply Forall_cons in Hst as [? ?].
Qed.

Lemma acquireEach_buffers ports s outs s1 :
  acquireEach ports s = (outs, s1) → Forall is_Some (bufferStack s) →
  Forall is_Some (bufferStack s1) ∧ Forall (λ o, is_Some (Port.buffer o)) outs.
Proof.
  revert s outs s1. induction ports as [|p ports IH]; intros s outs s1 H Hst; simpl in H.
  - by injection H as <- <-.
  - destruct (acquireBuffer s) as [b s'] eqn:Hb.
    destruct (acquireEach ports s') as [rest s''] eqn:Hrest.
    injection H as <- <-.
    destruct (acquireBuffer_spec _ _ _ Hb Hst) as (Hsome & Hst' & _).
    destruct (IH _ _ _ Hrest Hst') as [? ?]. split; [done|].
    by apply Forall_cons.
Qed.

Lemma releaseEach_stack ports s :
  Forall (λ o, is_Some (Port.buffer o)) ports → Forall is_Some (bufferStack s) →
  Forall is_Some
    (bufferStack (foldl (λ s output, releaseBuffer (Port.buffer output) s) s ports)).
Proof.
  intros Hp. revert s. induction Hp as [|p ports Hb _ IH]; intros s Hst; [done|].
  simpl. apply IH. simpl. by apply Forall_cons.
Qed.

Lemma maxInputLatency_solved inputs lats :
  Forall2 (λ p l, Port.latency p = Some l) inputs lats →
  maxInputLatency inputs = max_latency lats.
Proof.
  intros H. unfold maxInputLatency, max_latency. f_equal.
  induction H as [|p l inputs lats Hp _ IH]; [done|].
  cbn [map]. by rewrite Hp, IH.
Qed.

(** ** The traversal keeps the invariant *)
Section traversal.
Context (g : Graph).
Hypothesis g_closed : closed g.
Hypothesis g_acyclic : acyclic g.
Hypothesis g_fresh : fresh g.

Lemma visited_rtc s n m :
  Inv g s → visitedIn (heap s) n → rtc (edge g) n m → visitedIn (heap s) m.
Proof. intros HI Hn Hr. induction Hr; [done|]. eauto using inv_closed. Qed.

Lemma edge_not_back n m : edge g n m → ¬ rtc (edge g) m n.
Proof using g_acyclic.
  intros He Hr. apply (g_acyclic n). by eapply tc_rtc_r; [apply tc_once|].
Qed.

Lemma fresh_lookup n nd : g !! n = Some nd → resetNode nd = nd.
Proof using g_fresh.
  intros Hn. assert (H : reset g !! n = Some nd) by by rewrite g_fresh.
  rewrite reset_lookup, Hn in H. simpl in H. congruence.
Qed.

(** The loop state after the recursive call for an input of [n]. *)
Lemma Loop_rec n s0 k s m r s1 :
  Loop g n s0 k s → edge g n m → Post g m s r s1 → Loop g n s0 k s1.
Proof using g_acyclic.
  intros [] He [].
  destruct loop_node0 as (nd & lats & Hn & Hv & Houts & Hcomp & Hsolved).
  assert (Hn1 : heap s1 !! n = Some nd).
  { rewrite post_frame0; [done|]. by apply edge_not_back. }
  split.
  - done.
  - exists nd, lats. split_and!; try done.
    eapply Forall2_impl; [exact Hsolved|]. intros p l.
    apply InputSolved_ext. exact post_kept0.
  - intros x Hx Hnv.
    assert (¬ rtc (edge g) m x) as Hmx.
    { intros Hr. apply Hnv. by eapply visited_rtc. }
    rewrite post_frame0 by done. apply loop_pristine0; [done|].
    intros (xd & Hxd & Hxv). apply Hnv. exists xd. split; [|done].
    by apply post_kept0.
  - intros x Hx. rewrite post_frame0; [by apply loop_frame0|].
    intros Hr. apply Hx. by eapply rtc_l.
  - intros x xd Hx Hxv. apply post_kept0; [|done]. by apply loop_kept0.
  - intros x Hx. destruct (post_new0 x Hx) as [Hs|Hr]; [by apply loop_new0|].
    right. by eapply tc_rtc_r; [apply tc_once|].
  - destruct loop_order0 as [new1 Ho1]. destruct post_order0 as [new2 Ho2].
    exists (new1 ++ new2). by rewrite Ho2, Ho1, app_assoc.
Qed.

(** The loop state after the input of index [k] has been written. *)
Lemma Loop_bind n s0 k s nd input f l s' :
  Loop g n s0 k s →
  heap s !! n = Some nd → Node.inputs nd !! k = Some input →
  (∀ p, resetPort (f p) = resetPort p) →
  (∀ p, Port.compensation (f p) = Port.compensation p) →
  InputSolved g (heap s) (f input) l →
  heap s' = <[n := Node.set_inputs (alter f k (Node.inputs nd)) nd]> (heap s) →
  order s' = order s → Forall is_Some (bufferStack s') →
  Loop g n s0 (S k) s'.
Proof using g_acyclic.
  intros [] Hn Hinput Hshape Hfcomp Hnew Hh Ho Hst.
  destruct loop_node0 as (nd_ & lats & Hn_ & Hv & Houts & Hcomp & Hsolved).
  assert (nd_ = nd) as -> by congruence. clear Hn_.
  set (nd' := Node.set_inputs (alter f k (Node.inputs nd)) nd) in *.
  assert (Hne : ∀ x, x ≠ n → heap s' !! x = heap s !! x).
  { intros x Hx. by rewrite Hh, lookup_insert_ne. }
  assert (Hext : ∀ x xd, heap s !! x = Some xd → Node.visited xd = true →
                         heap s' !! x = Some xd).
  { intros x xd Hx Hxv. rewrite Hne; [done|]. intros ->. congruence. }
  assert (Hvis : ∀ x, visitedIn (heap s') x ↔ visitedIn (heap s) x).
  { intros x. unfold visitedIn. destruct (decide (x = n)) as [->|Hx].
    - rewrite Hh, lookup_insert_eq, Hn.
      split; intros (xd & ? & Hxv); simplify_eq; simpl in Hxv; congruence.
    - by rewrite Hne. }
  split.
  - eapply (Inv_local g s s' n nd nd'); try done.
    by apply resetNode_alter_input.
  - exists nd', (lats ++ [l]). split_and!; try done.
    + by rewrite Hh, lookup_insert_eq.
    + simpl. apply Forall_alter; [done|]. intros p _ Hp. by rewrite Hfcomp.
    + simpl. rewrite (take_S_r _ _ (f input)).
      2:{ by rewrite list_lookup_alter_eq, Hinput. }
      rewrite take_alter_ge by done. apply Forall2_app.
      * eapply Forall2_impl; [exact Hsolved|]. intros p l'.
        by apply InputSolved_ext.
      * constructor; [|constructor]. by eapply InputSolved_ext.
  - intros x Hx Hnv. assert (x ≠ n) by (intros ->; by eapply g_acyclic).
    rewrite Hne by done. apply loop_pristine0; [done|]. by rewrite <-Hvis.
  - intros x Hx. rewrite Hne; [by apply loop_frame0|]. intros ->. by apply Hx.
  - intros x xd Hx Hxv. apply Hext; [|done]. by apply loop_kept0.
  - intros x Hx%Hvis. by apply loop_new0.
  - by rewrite Ho.
Qed.

Lemma alter_input_twice (h : Graph) n k f1 f2 nd :
  h !! n = Some nd →
  alter (λ nd, Node.set_inputs (alter f2 k (Node.inputs nd)) nd) n
    (alter (λ nd, Node.set_inputs (alter f1 k (Node.inputs nd)) nd) n h)
  = <[n := Node.set_inputs (alter (f2 ∘ f1) k (Node.inputs nd)) nd]> h.
Proof.
  intros Hn. apply map_eq. intros x. destruct (decide (n = x)) as [->|Hne].
  - rewrite !lookup_alter_eq, lookup_insert_eq, Hn. simpl.
    unfold Node.set_inputs. simpl. by rewrite list_alter_alter_eq.
  - by rewrite !lookup_alter_ne, lookup_insert_ne.
Qed.

(** One turn of the loop over the inputs. *)
Lemma bindInput_Loop rec n s0 k s s' :
  Spec g rec → Loop g n s0 k s → bindInput rec n k s = Some s' → Loop g n s0 (S k) s'.
Proof using g_acyclic.
  intros Hrec HL H. unfold bindInput in H.
  destruct (heap s !! n) as [nd|] eqn:Hn; simpl in H; [|done].
  destruct (Node.inputs nd !! k) as [input|] eqn:Hinput; simpl in H; [|done].
  destruct (Port.connection input) as [c|] eqn:Hc.
  - destruct (rec (Connection.node c) s) as [[r s1]|] eqn:Hv; simpl in H; [|done].
    injection H as <-.
    assert (He : edge g n (Connection.node c)).
    { eapply edge_shape; [apply (inv_shape _ _ (loop_inv _ _ _ _ _ HL))|].
      by eapply input_edge. }
    assert (HP : Post g (Connection.node c) s r s1).
    { apply Hrec; [apply HL| |done]. intros x Hr Hnv.
      apply (loop_pristine _ _ _ _ _ HL); [|done].
      by eapply tc_rtc_r; [apply tc_once|]. }
    assert (HL1 := Loop_rec _ _ _ _ _ _ _ HL He HP).
    assert (Hn1 : heap s1 !! n = Some nd).
    { rewrite (post_frame _ _ _ _ _ HP); [done|]. by apply edge_not_back. }
    destruct (post_result _ _ _ _ _ HP) as (md & Hmd & ->).
    destruct (post_visited _ _ _ _ _ HP) as (md_ & Hmd_ & Hmv).
    assert (md_ = md) as -> by congruence. clear Hmd_.
    destruct (inv_done _ _ (post_inv _ _ _ _ _ HP) _ _ Hmd Hmv)
      as [(lats' & _ & Hlat & HLat & _) _].
    eapply (Loop_bind n s0 k s1 nd input _ _ _ HL1 Hn1 Hinput).
    4:{ simpl. by apply alter_input_twice. }
    + done.
    + done.
    + split; [exact Hlat|]. simpl. rewrite Hc. exists md. by split_and!.
    + done.
    + apply (inv_stack _ _ (post_inv _ _ _ _ _ HP)).
  - destruct (acquireBuffer _) as [b s2] eqn:Hb. injection H as <-.
    destruct (acquireBuffer_spec _ _ _ Hb) as (Hsome & Hst & Hh & Ho).
    { apply (inv_stack _ _ (loop_inv _ _ _ _ _ HL)). }
    eapply (Loop_bind n s0 k s nd input _ (of_int 0) _ HL Hn Hinput).
    4:{ simpl. rewrite Hh. simpl. by apply alter_input_twice. }
    + done.
    + done.
    + split; [done|]. simpl. by rewrite Hc.
    + simpl. by rewrite Ho.
    + simpl. by apply Forall_cons.
Qed.

Lemma bindInputs_Loop rec n s0 cnt :
  Spec g rec →
  ∀ k s s', Loop g n s0 k s → bindInputs rec n (seq k cnt) s = Some s' →
            Loop g n s0 (k + cnt) s'.
Proof using g_acyclic.
  intros Hrec. induction cnt as [|cnt IH]; intros k s s' HL H; simpl in H.
  - injection H as <-. by rewrite Nat.add_0_r.
  - bind_inv H. rewrite <-Nat.add_succ_comm. eapply IH; [|done].
    by eapply bindInput_Loop.
Qed.

Lemma finish_state n s2 nd2 :
  heap s2 !! n = Some nd2 →
  heap (finish n s2) = <[n := Node.set_visited true (solveLatency nd2)]> (heap s2) ∧
  order (finish n s2) = order s2 ++ [stepOf n (solveLatency nd2)] ∧
  bufferStack (finish n s2) =
    bufferStack (foldl (λ s output, releaseBuffer (Port.buffer output) s) s2
                       (Node.outputs nd2)).
Proof.
  intros Hn. unfold finish.
  assert (H4 : heap (updNode n solveLatency (releaseOutputs n s2))
               = <[n := solveLatency nd2]> (heap s2)).
  { rewrite (updNode_heap _ _ _ nd2), releaseOutputs_heap; [done|].
    by rewrite releaseOutputs_heap. }
  assert (H4o : order (updNode n solveLatency (releaseOutputs n s2)) = order s2).
  { simpl. apply releaseOutputs_order. }
  assert (H4s : bufferStack (updNode n solveLatency (releaseOutputs n s2)) =
    bufferStack (foldl (λ s output, releaseBuffer (Port.buffer output) s) s2
                       (Node.outputs nd2))).
  { simpl. unfold releaseOutputs. by rewrite Hn. }
  generalize dependent (updNode n solveLatency (releaseOutputs n s2)).
  intros s4 H4 H4o H4s.
  assert (H4n : heap s4 !! n = Some (solveLatency nd2)).
  { by rewrite H4, lookup_insert_eq. }
  unfold pushStep. rewrite H4n. split_and!.
  - rewrite (updNode_heap _ _ _ (solveLatency nd2)) by done. simpl.
    rewrite H4. apply insert_insert_eq.
  - simpl. by rewrite H4o.
  - done.
Qed.

Lemma compensate_solved h m p l :
  InputSolved g h p l → Port.compensation p = None →
  InputDone g h m (compensate m p) l.
Proof.
  intros [Hl Hc] Hcomp. unfold compensate, InputDone, InputSolved, compensationFor.
  rewrite Hl. simpl. destruct (number_neq0 (number_sub m l)).
  - split; [split; [exact Hl|exact Hc]|reflexivity].
  - split; [split; [exact Hl|exact Hc]|exact Hcomp].
Qed.

Lemma solveLatency_done h nd lats :
  Forall2 (InputSolved g h) (Node.inputs nd) lats →
  Forall (λ p, Port.compensation p = None) (Node.inputs nd) →
  Forall2 (InputDone g h (max_latency lats)) (Node.inputs (solveLatency nd)) lats ∧
  Node.latency (solveLatency nd)
  = Some (number_add (max_latency lats) (Node.delay nd)).
Proof.
  intros Hs Hc.
  assert (Hm : maxInputLatency (Node.inputs nd) = max_latency lats).
  { apply maxInputLatency_solved. eapply Forall2_impl; [exact Hs|].
    by intros p l [? _]. }
  unfold solveLatency. simpl. rewrite Hm. split; [|done].
  change (map ?f ?l) with (f <$> l). apply Forall2_fmap_l.
  clear Hm. generalize (max_latency lats). intros m.
  induction Hs as [|p l ps ls Hp _ IH]; [constructor|].
  apply Forall_cons in Hc as [Hpc Hc]. constructor; [|by apply IH].
  by apply compensate_solved.
Qed.

Lemma solved_latencies h inputs lats :
  Forall2 (InputSolved g h) inputs lats →
  Forall2 (InputLatency (Latency g)) (Port.connection <$> inputs) lats.
Proof.
  intros Hs. apply Forall2_fmap_l. eapply Forall2_impl; [exact Hs|].
  intros p l [_ Hc]. simpl. destruct (Port.connection p) as [c|].
  - destruct Hc as (md & _ & _ & _ & HL & _). by constructor.
  - destruct Hc as [-> _]. constructor.
Qed.

Lemma resetNode_connections nd nd' :
  resetNode nd = resetNode nd' →
  Port.connection <$> Node.inputs nd = Port.connection <$> Node.inputs nd' ∧
  Node.delay nd = Node.delay nd'.
Proof.
  intros H. split; [|by injection H].
  assert (H' := f_equal (λ x, Port.connection <$> Node.inputs x) H).
  simpl in H'. by rewrite <-!list_fmap_compose in H'.
Qed.

Lemma reset_insert (h : Graph) n nd nd' :
  h !! n = Some nd → resetNode nd' = resetNode nd → reset (<[n := nd']> h) = reset h.
Proof.
  intros Hn Hr. apply map_eq. intros k. rewrite !reset_lookup.
  destruct (decide (k = n)) as [->|Hne].
  - rewrite lookup_insert_eq, Hn. simpl. by rewrite Hr.
  - by rewrite lookup_insert_ne.
Qed.

(** Entering the loop: the outputs of [n] have their buffers. *)
Lemma Loop_entry n s nd :
  Inv g s → Pristine g n s → heap s !! n = Some nd → Node.visited nd = false →
  Loop g n s 0 (acquireOutputs n s).
Proof using g_acyclic g_fresh.
  intros HI HP Hn Hv.
  unfold acquireOutputs. rewrite Hn.
  destruct (acquireEach (Node.outputs nd) s) as [outs s1] eqn:He.
  destruct (acquireEach_spec (Node.outputs nd) s) as (Hh & Ho & Hr).
  destruct (acquireEach_buffers _ _ _ _ He (inv_stack _ _ HI)) as [Hst Houts].
  rewrite He in Hh, Ho, Hr. cbn [fst snd] in Hh, Ho, Hr.
  assert (Hn1 : heap s1 !! n = Some nd) by by rewrite Hh.
  assert (Hheap : heap (updNode n (Node.set_outputs outs) s1)
                  = <[n := Node.set_outputs outs nd]> (heap s)).
  { by rewrite (updNode_heap _ _ _ _ Hn1), Hh. }
  assert (Hne : ∀ x, x ≠ n →
            heap (updNode n (Node.set_outputs outs) s1) !! x = heap s !! x).
  { intros x Hx. by rewrite Hheap, lookup_insert_ne. }
  assert (Hnv : ¬ visitedIn (heap s) n).
  { intros (x & ? & ?). congruence. }
  split.
  - eapply (Inv_local g s _ n nd (Node.set_outputs outs nd)); try done.
    unfold resetNode. simpl. by rewrite Hr.
  - exists (Node.set_outputs outs nd), []. split_and!; try done.
    + by rewrite Hheap, lookup_insert_eq.
    + simpl. assert (Hg : g !! n = Some nd).
      { rewrite <-Hn. symmetry. by apply HP. }
      apply fresh_lookup in Hg. rewrite <-Hg. simpl.
      apply Forall_fmap. by apply Forall_true.
  - intros m Hm Hmv. assert (m ≠ n) by (intros ->; by eapply g_acyclic).
    rewrite Hne by done. apply HP; [by apply tc_rtc|].
    intros (md & Hmd & Hmdv). apply Hmv. exists md. by rewrite Hne.
  - intros m Hm. apply Hne. intros ->. by apply Hm.
  - intros m md Hm Hmv. rewrite Hne; [done|]. intros ->. congruence.
  - intros m (md & Hmd & Hmv). left. exists md. split; [|done].
    rewrite <-Hne; [done|]. intros ->.
    rewrite Hheap, lookup_insert_eq in Hmd. simplify_eq. simpl in Hmv. congruence.
  - exists []. simpl. by rewrite Ho, app_nil_r.
Qed.

(** Leaving the loop: the latency is solved, the step appended and the
    node marked. *)
Lemma Loop_exit n s0 s2 nd2 :
  Loop g n s0 (length (Node.inputs nd2)) s2 → heap s2 !! n = Some nd2 →
  ∃ nd6, heap (finish n s2) !! n = Some nd6 ∧
    Post g n s0 (mkVisit (Node.latency nd6) (map reportOutput (Node.outputs nd6)))
         (finish n s2).
Proof using g_acyclic.
  intros [] Hn.
  destruct loop_node0 as (nd_ & lats & Hn_ & Hv & Houts & Hcomp & Hsolved).
  assert (nd_ = nd2) as -> by congruence. clear Hn_.
  rewrite take_ge in Hsolved by done.
  destruct (finish_state n s2 nd2 Hn) as (Hh & Ho & Hst).
  set (nd6 := Node.set_visited true (solveLatency nd2)) in *.
  destruct (solveLatency_done (heap s2) nd2 lats Hsolved Hcomp) as [Hdone Hlat].
  assert (Hne : ∀ x, x ≠ n → heap (finish n s2) !! x = heap s2 !! x).
  { intros x Hx. by rewrite Hh, lookup_insert_ne. }
  assert (Hn6 : heap (finish n s2) !! n = Some nd6).
  { by rewrite Hh, lookup_insert_eq. }
  assert (Hnv2 : ¬ visitedIn (heap s2) n).
  { intros (x & ? & ?). congruence. }
  assert (Hext : ∀ x xd, heap s2 !! x = Some xd → Node.visited xd = true →
                         heap (finish n s2) !! x = Some xd).
  { intros x xd Hx Hxv. rewrite Hne; [done|]. intros ->. congruence. }
  assert (Hvis : ∀ x, visitedIn (heap (finish n s2)) x ↔
                      visitedIn (heap s2) x ∨ x = n).
  { intros x. destruct (decide (x = n)) as [->|Hx].
    - split; [by right|]. intros _. by exists nd6.
    - unfold visitedIn. rewrite Hne by done. split; [by left|by intros [?|?]]. }
  assert (Hup : ∀ m, edge g n m → visitedIn (heap s2) m).
  { intros m He.
    assert (He2 : edge (heap s2) n m).
    { eapply edge_shape; [|exact He]. symmetry. apply (inv_shape _ _ loop_inv0). }
    apply edge_inv in He2 as (nd' & i & p & c & Hn' & Hi & Hc & <-).
    assert (nd' = nd2) as -> by congruence.
    destruct (Forall2_lookup_l _ _ _ i p Hsolved Hi) as (l & _ & [_ Hs]).
    rewrite Hc in Hs. destruct Hs as (md & Hmd & Hmv & _). by exists md. }
  assert (HLat : Latency g n (number_add (max_latency lats) (Node.delay nd2))).
  { destruct (reset_eq_lookup _ _ _ _ (inv_shape _ _ loop_inv0) Hn)
      as (ndg & Hg & Hr).
    apply resetNode_connections in Hr as [Hconn Hdelay]. rewrite Hdelay.
    apply Latency_node; [done|]. rewrite <-Hconn. by eapply solved_latencies. }
  exists nd6. split; [done|]. split.
  - split.
    + rewrite Hh. rewrite (reset_insert _ _ nd2); [apply loop_inv0|done|].
      unfold nd6. by rewrite resetNode_set_visited, resetNode_solveLatency.
    + intros x m Hx He. apply Hvis. left. apply Hvis in Hx as [Hx| ->].
      * by eapply inv_closed.
      * by apply Hup.
    + intros x. rewrite Ho, fmap_app, elem_of_app, Hvis, (inv_order _ _ loop_inv0).
      simpl. by rewrite list_elem_of_singleton.
    + rewrite Ho, fmap_app. apply NoDup_app. split_and!.
      * apply loop_inv0.
      * intros x Hx Hx'. simpl in Hx'. apply list_elem_of_singleton in Hx' as ->.
        by apply Hnv2, (inv_order _ _ loop_inv0).
      * apply NoDup_singleton.
    + intros i j si sj Hi Hj He. rewrite Ho in Hi, Hj.
      apply lookup_app_Some in Hi as [Hi|[Hil Hi]];
        apply lookup_app_Some in Hj as [Hj|[Hjl Hj]].
      * by eapply (inv_topo _ _ loop_inv0).
      * exfalso. apply list_lookup_singleton_Some in Hj as [_ <-]. simpl in He.
        apply Hnv2. eapply inv_closed; [done| |exact He].
        apply (inv_order _ _ loop_inv0). apply list_elem_of_fmap_2.
        by eapply list_elem_of_lookup_2.
      * apply lookup_lt_Some in Hj. lia.
      * exfalso. apply list_lookup_singleton_Some in Hi as [_ <-].
        apply list_lookup_singleton_Some in Hj as [_ <-]. simpl in He.
        apply (g_acyclic n). by apply tc_once.
    + intros x xd Hx Hxv. destruct (decide (x = n)) as [->|Hxn].
      * rewrite Hn6 in Hx. injection Hx as <-. split.
        -- exists lats. split_and!; try done.
           eapply Forall2_impl; [exact Hdone|]. intros p l [Hs Hc].
           split; [|done]. by eapply InputSolved_ext.
        -- rewrite Ho. apply elem_of_app. right. by apply list_elem_of_singleton.
      * rewrite Hne in Hx by done.
        destruct (inv_done _ _ loop_inv0 x xd Hx Hxv) as [Hd Hs]. split.
        -- by eapply NodeDone_ext.
        -- rewrite Ho. apply elem_of_app. by left.
    + rewrite Hst. apply releaseEach_stack; [done|apply loop_inv0].
  - by exists nd6.
  - intros x Hx. rewrite Hne; [by apply loop_frame0|]. intros ->. by apply Hx.
  - intros x xd Hx Hxv. apply Hext; [|done]. by apply loop_kept0.
  - intros x [Hx| ->]%Hvis; [|by right].
    destruct (loop_new0 x Hx) as [?|?%tc_rtc]; auto.
  - destruct loop_order0 as [new Hnew].
    exists (new ++ [stepOf n (solveLatency nd2)]). by rewrite Ho, Hnew, app_assoc.
  - by exists nd6.
Qed.

(** The body of [visit] meets the specification if its recursive calls do. *)
Lemma visitNode_Spec rec : Spec g rec → Spec g (visitNode rec).
Proof using g_acyclic g_fresh.
  intros Hrec n s r s' HI HP H. unfold visitNode in H.
  destruct (heap s !! n) as [nd|] eqn:Hn; simpl in H; [|done].
  destruct (Node.visited nd) eqn:Hv; simpl in H.
  - rewrite Hn in H. simpl in H. injection H as <- <-. split; try done.
    + by exists nd.
    + auto.
    + exists []. by rewrite app_nil_r.
    + by exists nd.
  - destruct (bindInputs rec n _ _) as [s2|] eqn:H2; [|done].
    change ((nd' ← heap (finish n s2) !! n;
             Some (mkVisit (Node.latency nd') (map reportOutput (Node.outputs nd')),
                   finish n s2)) = Some (r, s')) in H.
    assert (HL := bindInputs_Loop rec n s _ Hrec _ _ _
                    (Loop_entry n s nd HI HP Hn Hv) H2).
    destruct (loop_node _ _ _ _ _ HL) as (nd2 & _ & Hn2 & _).
    assert (Hlen : length (Node.inputs nd) = length (Node.inputs nd2)).
    { destruct (reset_eq_lookup _ _ _ _ (inv_shape _ _ HI) Hn) as (ndg & Hg & Hr).
      destruct (reset_eq_lookup _ _ _ _ (inv_shape _ _ (loop_inv _ _ _ _ _ HL)) Hn2)
        as (ndg' & Hg' & Hr').
      assert (ndg' = ndg) as -> by congruence.
      by rewrite (resetNode_inputs_length _ _ Hr), (resetNode_inputs_length _ _ Hr'). }
    simpl in HL. rewrite Hlen in HL.
    destruct (Loop_exit n s s2 nd2 HL Hn2) as (nd6 & Hn6 & HPost).
    rewrite Hn6 in H. simpl in H. by injection H as <- <-.
Qed.

Lemma visit_Spec fuel : Spec g (visit fuel).
Proof using g_acyclic g_fresh.
  induction fuel as [|fuel IH]; [by intros n s r s' _ _ ?|].
  by apply visitNode_Spec.
Qed.
End traversal.

(** ** The compiled schedule *)
Section compiled.
Context (g : Graph) (root : NodeRef).
Hypothesis g_closed : closed g.
Hypothesis g_acyclic : acyclic g.
Hypothesis g_fresh : fresh g.

Lemma fresh_unvisited n : ¬ visitedIn g n.
Proof using g_fresh.
  intros (nd & Hn & Hv). apply (fresh_lookup g g_fresh) in Hn.
  rewrite <-Hn in Hv. done.
Qed.

Lemma Inv_initial : Inv g (initial g).
Proof using g_fresh.
  split; simpl.
  - done.
  - intros n m Hn. by apply fresh_unvisited in Hn.
  - intros n. split; [by intros ?%elem_of_nil|by intros ?%fresh_unvisited].
  - constructor.
  - intros i j si sj Hi. by rewrite lookup_nil in Hi.
  - intros n nd Hn Hv. exfalso. apply (fresh_unvisited n). by exists nd.
  - constructor.
Qed.

(** Every run of [schedule] that returns ends in a state that satisfies the
    invariant and in which the visited nodes are those reachable from the
    root. *)
Lemma schedule_run_Inv fuel s :
  schedule_run fuel root g = Some s →
  Inv g s ∧ ∀ n, visitedIn (heap s) n ↔ rtc (edge g) root n.
Proof using g_acyclic g_fresh.
  unfold schedule_run. intros H.
  destruct (visit fuel root (initial g)) as [[r s']|] eqn:Hv; [|done].
  simpl in H. injection H as ->.
  assert (HP : Post g root (initial g) r s).
  { eapply (visit_Spec g g_acyclic g_fresh fuel); [apply Inv_initial| |done].
    by intros k _ _. }
  split; [apply HP|]. intros n. split.
  - intros Hn. destruct (post_new _ _ _ _ _ HP n Hn) as [Hi|Hr]; [|done].
    by apply fresh_unvisited in Hi.
  - intros Hr.
    exact (visited_rtc g s root n (post_inv _ _ _ _ _ HP) (post_visited _ _ _ _ _ HP) Hr).
Qed.

(** There is enough fuel for every acyclic graph. *)
Lemma schedule_run_returns :
  is_Some (g !! root) →
  ∃ F, ∀ fuel, (F ≤ fuel)%nat → is_Some (schedule_run fuel root g).
Proof using g_closed g_acyclic.
  intros Hroot.
  destruct (visit_terminates g g_closed root (initial g) g_acyclic Hroot eq_refl)
    as (F & [r s] & HF).
  exists F. intros fuel Hfuel. unfold schedule_run.
  rewrite (visit_mono _ _ _ _ _ Hfuel HF). by eexists.
Qed.

(** The steps of the schedule are the steps of the visited nodes. *)
Lemma scheduled_step s st :
  Inv g s → st ∈ order s →
  ∃ nd, heap s !! Scheduled.node st = Some nd ∧ Node.visited nd = true ∧
        st = stepOf (Scheduled.node st) nd ∧
        NodeDone g (heap s) (Scheduled.node st) nd.
Proof.
  intros HI Hst.
  assert (Hv : visitedIn (heap s) (Scheduled.node st)).
  { apply (inv_order _ _ HI). by apply list_elem_of_fmap_2. }
  destruct Hv as (nd & Hn & Hv). exists nd.
  destruct (inv_done _ _ HI _ _ Hn Hv) as [Hd Hstep]. split_and!; try done.
  apply list_elem_of_lookup_1 in Hst as [i Hi].
  apply list_elem_of_lookup_1 in Hstep as [j Hj].
  assert (i = j) as ->; [|congruence].
  eapply (NoDup_lookup _ _ _ (Scheduled.node st) (inv_nodup _ _ HI)).
  - by rewrite list_lookup_fmap, Hi.
  - by rewrite list_lookup_fmap, Hj.
Qed.

(** The order of the steps follows the paths of the graph. *)
Lemma order_tc s i si m :
  Inv g s → order s !! i = Some si → tc (edge g) (Scheduled.node si) m →
  ∃ j sj, order s !! j = Some sj ∧ Scheduled.node sj = m ∧ (j < i)%nat.
Proof.
  intros HI Hi Htc. remember (Scheduled.node si) as n eqn:Hn.
  revert i si Hi Hn.
  assert (Hone : ∀ i si y, order s !! i = Some si → edge g (Scheduled.node si) y →
            ∃ j sj, order s !! j = Some sj ∧ Scheduled.node sj = y ∧ (j < i)%nat).
  { intros i si y Hi He.
    assert (Hy : y ∈ Scheduled.node <$> order s).
    { apply (inv_order _ _ HI). eapply (inv_closed _ _ HI); [|exact He].
      apply (inv_order _ _ HI). apply list_elem_of_fmap_2.
      by eapply list_elem_of_lookup_2. }
    apply list_elem_of_fmap in Hy as (sj & -> & Hsj).
    apply list_elem_of_lookup_1 in Hsj as [j Hj].
    exists j, sj. split_and!; try done. by eapply (inv_topo _ _ HI). }
  induction Htc as [x y He|x y z He _ IH]; intros i si Hi ->.
  - by eapply Hone.
  - destruct (Hone i si y Hi He) as (j & sj & Hj & Hy & Hlt).
    destruct (IH j sj Hj (eq_sym Hy)) as (k & sk & Hk & Hz & Hlt').
    exists k, sk. split_and!; try done. lia.
Qed.
End compiled.

(** ** Lookups of output buffers *)





(** ** A node that is already marked *)

Lemma visit_visited fuel n s nd :
  heap s !! n = Some nd → Node.visited nd = true →
  visit (S fuel) n s =
    Some (mkVisit (Node.latency nd) (map reportOutput (Node.outputs nd)), s).
Proof.
  intros Hn Hv. simpl. unfold visitNode. rewrite Hn. simpl. rewrite Hv. simpl.
  by rewrite Hn.
Qed.

Lemma visit_marks fuel n s r s' :
  visit fuel n s = Some (r, s') → visitedIn (heap s') n.
Proof.
  destruct fuel as [|fuel]; [done|]. simpl. unfold visitNode. intros H.
  destruct (heap s !! n) as [nd|] eqn:Hn; simpl in H; [|done].
  destruct (Node.visited nd) eqn:Hv; simpl in H.
  - rewrite Hn in H. simpl in H. injection H as _ <-. by exists nd.
  - destruct (bindInputs _ _ _ _) as [s2|]; [|done].
    change ((nd' ← heap (finish n s2) !! n;
             Some (mkVisit (Node.latency nd') (map reportOutput (Node.outputs nd')),
                   finish n s2)) = Some (r, s')) in H.
    destruct (heap (finish n s2) !! n) as [nd6|] eqn:H6; simpl in H; [|done].
    injection H as _ <-. exists nd6. split; [done|].
    unfold finish in H6. simpl in H6. rewrite lookup_alter_eq in H6.
    destruct (heap (pushStep n _) !! n) as [nd5|]; simpl in H6; [|done].
    by injection H6 as <-.
Qed.

(** * The properties of the specification *)

(** C1.  For every acyclic graph with a valid root (its transient fields
    reset), [schedule] returns, given enough fuel, a schedule with exactly
    one step per node reachable from the root through input connections,
    and the step of a node comes after the step of every node it depends
    on, directly or not. *)
Theorem schedule_topological (g : Graph) (root : NodeRef) :
  closed g → acyclic g → fresh g → is_Some (g !! root) →
  ∃ F, ∀ fuel, (F ≤ fuel)%nat →
    ∃ steps,
      schedule fuel root g = Some steps ∧
      NoDup (Scheduled.node <$> steps) ∧
      (∀ n, n ∈ Scheduled.node <$> steps ↔ rtc (edge g) root n) ∧
      (∀ i j si sj,
         steps !! i = Some si → steps !! j = Some sj →
         tc (edge g) (Scheduled.node si) (Scheduled.node sj) → (j < i)%nat).
Proof.
  intros Hclosed Hacyc Hfresh Hroot.
  destruct (schedule_run_returns g root Hclosed Hacyc Hroot) as [F HF].
  exists F. intros fuel Hfuel. destruct (HF fuel Hfuel) as [s Hs].
  destruct (schedule_run_Inv g root Hacyc Hfresh fuel s Hs) as [HI Hvis].
  exists (order s). unfold schedule. rewrite Hs. split_and!.
  - done.
  - apply (inv_nodup _ _ HI).
  - intros n. by rewrite (inv_order _ _ HI), Hvis.
  - intros i j si sj Hi Hj Htc.
    destruct (order_tc g s i si _ HI Hi Htc) as (j' & sj' & Hj' & Hnode & Hlt).
    assert (j' = j) as ->; [|done].
    eapply (NoDup_lookup _ _ _ (Scheduled.node sj) (inv_nodup _ _ HI)).
    + by rewrite list_lookup_fmap, Hj', <-Hnode.
    + by rewrite list_lookup_fmap, Hj.
Qed.

Lemma schedule_topological_witness :
  ∃ F, ∀ fuel, (F ≤ fuel)%nat →
    ∃ steps,
      schedule fuel Example.sink Example.graph = Some steps ∧
      NoDup (Scheduled.node <$> steps) ∧
      (∀ n, n ∈ Scheduled.node <$> steps ↔ rtc (edge Example.graph) Example.sink n) ∧
      (∀ i j si sj,
         steps !! i = Some si → steps !! j = Some sj →
         tc (edge Example.graph) (Scheduled.node si) (Scheduled.node sj) → (j < i)%nat).
Proof.
  apply (schedule_topological Example.graph Example.sink).
  - apply closedb_closed. vm_compute. reflexivity.
  - apply (ranked_acyclic (λ n, 3 - n)%nat). vm_compute. reflexivity.
  - vm_compute. reflexivity.
  - vm_compute. eexists. reflexivity.
Defined.

(** C8.  On an acyclic graph with a valid root the traversal terminates:
    there is an amount of fuel from which [schedule] returns.  This does not
    depend on the transient fields. *)
Theorem schedule_terminates (g : Graph) (root : NodeRef) :
  closed g → acyclic g → is_Some (g !! root) →
  ∃ F, ∀ fuel, (F ≤ fuel)%nat → is_Some (schedule fuel root g).
Proof.
  intros Hclosed Hacyc Hroot.
  destruct (schedule_run_returns g root Hclosed Hacyc Hroot) as [F HF].
  exists F. intros fuel Hfuel. destruct (HF fuel Hfuel) as [s Hs].
  unfold schedule. rewrite Hs. by eexists.
Qed.

Lemma schedule_terminates_witness :
  ∃ F, ∀ fuel, (F ≤ fuel)%nat →
    is_Some (schedule fuel Example.sink Example.graph).
Proof.
  apply (schedule_terminates Example.graph Example.sink).
  - apply closedb_closed. vm_compute. reflexivity.
  - apply (ranked_acyclic (λ n, 3 - n)%nat). vm_compute. reflexivity.
  - vm_compute. eexists. reflexivity.
Defined.

(** A call of [schedule] on a root that is marked visited changes nothing
    and returns the empty schedule. *)
Lemma schedule_visited_root (g : Graph) (root : NodeRef) fuel :
  visitedIn g root →
  schedule_run (S fuel) root g = Some (initial g) ∧
  schedule (S fuel) root g = Some [].
Proof.
  intros (nd & Hn & Hv). unfold schedule, schedule_run.
  by rewrite (visit_visited fuel root (initial g) nd Hn Hv).
Qed.

(** C9.  A second call of [schedule] on the graph that a first call left
    behind (the visited flags not reset, so that the root is marked) appends
    no step, does not touch the buffer pool or the graph, and returns the
    empty schedule. *)
Theorem schedule_again_empty (g : Graph) (root : NodeRef) fuel fuel' s1 :
  schedule_run fuel root g = Some s1 →
  visitedIn (heap s1) root ∧
  schedule_run (S fuel') root (heap s1) = Some (initial (heap s1)) ∧
  schedule (S fuel') root (heap s1) = Some [].
Proof.
  unfold schedule_run at 1. intros H.
  destruct (visit fuel root (initial g)) as [[r s]|] eqn:Hv; [|done].
  simpl in H. injection H as ->.
  assert (Hm := visit_marks _ _ _ _ _ Hv).
  split; [done|]. by apply schedule_visited_root.
Qed.

Lemma schedule_again_empty_witness :
  ∃ s1, schedule_run 4 Example.sink Example.graph = Some s1 ∧
    visitedIn (heap s1) Example.sink ∧
    schedule_run 1 Example.sink (heap s1) = Some (initial (heap s1)) ∧
    schedule 1 Example.sink (heap s1) = Some [].
Proof.
  eexists. split; [vm_compute; reflexivity|].
  apply (schedule_again_empty Example.graph Example.sink 4 0).
  vm_compute. reflexivity.
Defined.

Lemma schedule_order fuel root g steps :
  schedule fuel root g = Some steps →
  ∃ s, schedule_run fuel root g = Some s ∧ order s = steps.
Proof.
  unfold schedule. intros H.
  destruct (schedule_run fuel root g) as [s|]; [|done].
  exists s. split; [done|]. simpl in H. congruence.
Qed.


(** The bindings of a step and the ports they are made from. *)
Lemma stepOf_input n nd a :
  a ∈ Scheduled.inputs (stepOf n nd) →
  ∃ i p, Node.inputs nd !! i = Some p ∧ a = inputAssignment p.
Proof.
  simpl. change (map ?f ?l) with (f <$> l).
  intros (p & -> & Hp)%list_elem_of_fmap.
  apply list_elem_of_lookup_1 in Hp as [i Hi]. by exists i, p.
Qed.

(** ** [Math.max] is the maximum *)

Lemma SFcompare_refl a : a ≠ S754_nan → SFcompare a a = Some Eq.
Proof.
  destruct a as [[]|[]| |[] m e]; try done; intros _; cbn [SFcompare];
    rewrite Z.compare_refl; change (Pos.compare_cont Eq m m) with (Pos.compare m m);
    by rewrite Pos.compare_refl.
Qed.

Lemma SFcompare_antisym a b :
  SFcompare b a = CompOpp <$> SFcompare a b.
Proof.
  destruct a as [[]|[]| |[] m e], b as [[]|[]| |[] m' e']; try reflexivity;
    cbn [SFcompare fmap option_fmap option_map]; f_equal;
    rewrite (Z.compare_antisym e e');
    change (Pos.compare_cont Eq ?x ?y) with (Pos.compare x y);
    rewrite (Pos.compare_antisym m m');
    destruct (e ?= e'), (m ?= m')%positive; reflexivity.
Qed.

Lemma SFleb_trans a b c :
  SFleb a b = true → SFleb b c = true → SFleb a c = true.
Proof.
  unfold SFleb.
  destruct a as [[]|[]| |[] m1 e1], b as [[]|[]| |[] m2 e2], c as [[]|[]| |[] m3 e3];
    try done; cbn [SFcompare];
    change (Pos.compare_cont Eq ?x ?y) with (Pos.compare x y);
    destruct (Z.compare_spec e1 e2), (Z.compare_spec e2 e3), (Z.compare_spec e1 e3);
    try done; try lia;
    destruct (Pos.compare_spec m1 m2), (Pos.compare_spec m2 m3),
             (Pos.compare_spec m1 m3); try done; try lia.
Qed.

Lemma Math_max_nan a b :
  Math_max a b = S754_nan ↔ a = S754_nan ∨ b = S754_nan.
Proof.
  unfold Math_max.
  destruct a as [[]|[]| |[] m e], b as [[]|[]| |[] m' e']; cbn [SFcompare];
    try (split; [done|by intros [?|?]]); try (split; [done|intros [?|?]; done]);
    try (split; [intros _; by left|done]); try (split; [intros _; by right|done]);
    change (Pos.compare_cont Eq ?x ?y) with (Pos.compare x y);
    destruct (e ?= e'), (m ?= m')%positive; split; try done; by intros [?|?].
Qed.

Lemma Math_max_ge_l a b :
  a ≠ S754_nan → b ≠ S754_nan → SFleb a (Math_max a b) = true.
Proof.
  intros Ha Hb. unfold Math_max, SFleb.
  destruct (SFcompare a b) as [[]|] eqn:Hab.
  - destruct a as [[]| | |]; [by rewrite Hab|by rewrite SFcompare_refl..].
  - by rewrite Hab.
  - by rewrite SFcompare_refl.
  - destruct a as [[]|[]| |[] m e], b as [[]|[]| |[] m' e']; done.
Qed.

Lemma Math_max_ge_r a b :
  a ≠ S754_nan → b ≠ S754_nan → SFleb b (Math_max a b) = true.
Proof.
  intros Ha Hb. unfold Math_max, SFleb.
  destruct (SFcompare a b) as [[]|] eqn:Hab.
  - destruct a as [[]| | |];
      [by rewrite SFcompare_refl|by rewrite SFcompare_antisym, Hab..].
  - by rewrite SFcompare_refl.
  - by rewrite SFcompare_antisym, Hab.
  - destruct a as [[]|[]| |[] m e], b as [[]|[]| |[] m' e']; done.
Qed.

Lemma Math_max_cases a b :
  Math_max a b = a ∨ Math_max a b = b ∨ Math_max a b = S754_nan.
Proof.
  unfold Math_max. destruct (SFcompare a b) as [[]|]; auto.
  destruct a as [[]| | |]; auto.
Qed.

Lemma foldl_max_spec lats :
  Forall (λ l, l ≠ S754_nan) lats →
  ∀ a, a ≠ S754_nan →
    foldl Math_max a lats ≠ S754_nan ∧
    foldl Math_max a lats ∈ a :: lats ∧
    SFleb a (foldl Math_max a lats) = true ∧
    Forall (λ l, SFleb l (foldl Math_max a lats) = true) lats.
Proof.
  induction 1 as [|l lats Hl _ IH]; intros a Ha; cbn [foldl].
  - split_and!; [done|apply list_elem_of_here| |done].
    unfold SFleb. by rewrite SFcompare_refl.
  - assert (Ha' : Math_max a l ≠ S754_nan).
    { intros [?|?]%Math_max_nan; done. }
    destruct (IH _ Ha') as (Hr & Hin & Hle & Hall).
    split_and!; [done| | |].
    + apply elem_of_cons in Hin as [Hin|Hin].
      * rewrite Hin. destruct (Math_max_cases a l) as [->|[->|?]]; [|  |done].
        -- apply list_elem_of_here.
        -- apply list_elem_of_further, list_elem_of_here.
      * by do 2 apply list_elem_of_further.
    + eapply SFleb_trans; [|exact Hle]. by apply Math_max_ge_l.
    + constructor; [|done]. eapply SFleb_trans; [|exact Hle]. by apply Math_max_ge_r.
Qed.

(** Unless one of them is not a number, the maximum of the input
    latencies, as the program computes it, is one of [0] and the
    latencies, and neither [0] nor any of them is above it. *)
Lemma max_latency_spec lats :
  Forall (λ l, l ≠ S754_nan) lats →
  max_latency lats ≠ S754_nan ∧
  max_latency lats ∈ of_int 0 :: lats ∧
  SFleb (of_int 0) (max_latency lats) = true ∧
  Forall (λ l, SFleb l (max_latency lats) = true) lats.
Proof. intros H. by apply foldl_max_spec. Qed.

(** ** Rounding: the sum and the difference of two doubles *)

(** The number of binary digits of a mantissa. *)
Lemma digits_log2 m : Zpos (digits2_pos m) = Z.log2 (Zpos m) + 1.
Proof.
  rewrite digits_size. destruct m as [m|m|]; cbn [Pos.size Z.log2]; lia.
Qed.

Lemma Zdigits2_log2 m : 0 < m → Zdigits2 m = Z.log2 m + 1.
Proof. destruct m as [|m|m]; [lia| |lia]. intros _. apply digits_log2. Qed.

(** Shifting a mantissa to the right. *)
Lemma shr_1_m r : 0 ≤ shr_m r → shr_m (shr_1 r) = Z.div2 (shr_m r).
Proof. destruct r as [[|[m|m|]|m] b s]; cbn; try done; lia. Qed.

Lemma shr_iter_m k r :
  0 ≤ shr_m r → shr_m (Nat.iter k shr_1 r) = Z.shiftr (shr_m r) (Z.of_nat k).
Proof.
  intros Hr. induction k as [|k IH]; [by rewrite Z.shiftr_0_r|].
  rewrite Nat.iter_succ, shr_1_m.
  - rewrite IH, Nat2Z.inj_succ, <-Z.add_1_r, <-Z.shiftr_shiftr by lia.
    by rewrite Z.div2_spec.
  - rewrite IH. by apply Z.shiftr_nonneg.
Qed.

Lemma shr_spec r e n :
  0 ≤ n → 0 ≤ shr_m r →
  shr_m (fst (shr r e n)) = Z.shiftr (shr_m r) n ∧ snd (shr r e n) = e + n.
Proof.
  intros Hn Hr. destruct n as [|p|p]; [|..|lia]; cbn [shr fst snd].
  - by rewrite Z.shiftr_0_r, Z.add_0_r.
  - rewrite iter_pos_nat, shr_iter_m by done. by rewrite positive_nat_Z.
Qed.

Lemma shr_record_of_loc_m m l : shr_m (shr_record_of_loc m l) = m.
Proof. by destruct l as [|[]]. Qed.

Lemma round_nearest_even_range m l :
  m ≤ round_nearest_even m l ≤ m + 1.
Proof. destruct l as [|[]]; cbn; try lia. destruct (Z.even m); lia. Qed.

Lemma shiftr_pos m n : 0 < m → 0 ≤ n → n ≤ Z.log2 m → 0 < Z.shiftr m n.
Proof.
  intros Hm Hn Hl. rewrite Z.shiftr_div_pow2 by done.
  apply Z.div_str_pos. split; [by apply Z.pow_pos_nonneg|].
  transitivity (2 ^ Z.log2 m); [by apply Z.pow_le_mono_r|].
  by apply Z.log2_spec.
Qed.

Lemma log2_shiftr m n :
  0 < m → 0 ≤ n → n ≤ Z.log2 m → Z.log2 (Z.shiftr m n) = Z.log2 m - n.
Proof. intros Hm Hn Hl. rewrite Z.log2_shiftr by done. lia. Qed.

Lemma round_aux_valid s M e l :
  0 < M → -1074 ≤ e → e ≤ Z.max (Z.log2 M + 1 + e - 53) (-1074) →
  rounded s (binary_round_aux 53 1024 s M e l).
Proof.
  intros HM Hemin He. unfold binary_round_aux, shr_fexp, fexp, emin.
  rewrite (Zdigits2_log2 M HM).
  change (3 - 1024 - 53) with (-1074).
  set (n1 := Z.max (Z.log2 M + 1 + e - 53) (-1074) - e).
  assert (Hn1 : 0 ≤ n1) by (unfold n1; lia).
  assert (HL0 : 0 ≤ Z.log2 M) by apply Z.log2_nonneg.
  assert (Hn1l : n1 = 0 ∨ (0 < n1 ∧ n1 ≤ Z.log2 M)) by (unfold n1; lia).
  destruct (shr_spec (shr_record_of_loc M l) e n1 Hn1) as [Hm1 He1].
  { rewrite shr_record_of_loc_m. lia. }
  rewrite shr_record_of_loc_m in Hm1.
  destruct (shr (shr_record_of_loc M l) e n1) as [r1 e1]. cbn [fst snd] in Hm1, He1.
  set (M1 := shr_m r1) in *.
  assert (HM1 : 0 < M1).
  { rewrite Hm1. apply shiftr_pos; [done|done|lia]. }
  assert (HL1 : Z.log2 M1 = Z.log2 M - n1).
  { rewrite Hm1. destruct Hn1l as [->|[? ?]].
    - by rewrite Z.shiftr_0_r, Z.sub_0_r.
    - by apply log2_shiftr. }
  assert (Hround := round_nearest_even_range M1 (loc_of_shr_record r1)).
  set (M2 := round_nearest_even M1 (loc_of_shr_record r1)) in *.
  assert (HM2 : 0 < M2) by lia.
  assert (HL2 : Z.log2 M1 ≤ Z.log2 M2 ≤ Z.log2 M1 + 1).
  { split; [apply Z.log2_le_mono; lia|].
    transitivity (Z.log2 (Z.succ M1)); [apply Z.log2_le_mono; lia|].
    apply Z.log2_succ_le. }
  rewrite (Zdigits2_log2 M2 HM2).
  set (n2 := Z.max (Z.log2 M2 + 1 + e1 - 53) (-1074) - e1).
  assert (Hn2 : 0 ≤ n2 ≤ 1) by (unfold n2, n1 in *; lia).
  assert (Hn2l : n2 = 0 ∨ (n2 = 1 ∧ 1 ≤ Z.log2 M2)).
  { assert (0 ≤ Z.log2 M1) by apply Z.log2_nonneg. unfold n2, n1 in *. lia. }
  destruct (shr_spec (shr_record_of_loc M2 loc_Exact) e1 n2 ltac:(lia)) as [Hm3 He3].
  { rewrite shr_record_of_loc_m. lia. }
  rewrite shr_record_of_loc_m in Hm3.
  destruct (shr (shr_record_of_loc M2 loc_Exact) e1 n2) as [r2 e2].
  cbn [fst snd] in Hm3, He3.
  assert (HM3 : 0 < shr_m r2).
  { rewrite Hm3. apply shiftr_pos; [done|lia|lia]. }
  assert (HL3 : Z.log2 (shr_m r2) = Z.log2 M2 - n2).
  { rewrite Hm3. destruct Hn2l as [->|[-> ?]].
    - by rewrite Z.shiftr_0_r, Z.sub_0_r.
    - by apply log2_shiftr. }
  destruct (shr_m r2) as [|m|m] eqn:Hr2; [lia| |lia].
  destruct (Z.leb_spec e2 (1024 - 53)) as [Hle|Hgt]; [|done].
  split; [done|]. unfold bounded, canonical_mantissa, fexp, emin.
  rewrite digits_log2, HL3. change (3 - 1024 - 53) with (-1074).
  apply andb_true_iff. split; [apply Z.eqb_eq|apply Z.leb_le; lia].
  unfold n2, n1 in *. lia.
Qed.

Lemma binary_round_valid s m e :
  -1074 ≤ e → rounded s (binary_round 53 1024 s m e).
Proof.
  intros He. unfold binary_round, shl_align, fexp, emin.
  rewrite digits_log2. change (3 - 1024 - 53) with (-1074).
  destruct (Z.max (Z.log2 (Z.pos m) + 1 + e - 53) (-1074) - e) as [|p|q] eqn:Hcase.
  - apply round_aux_valid; [done|done|lia].
  - apply round_aux_valid; [done|done|lia].
  - rewrite Pos_iter_shl. apply round_aux_valid; [done|lia|].
    assert (H := digits_shl m (Pos.to_nat q)). rewrite !digits_log2 in H.
    lia.
Qed.

Lemma rounded_valid s x : rounded s x → is_double x.
Proof. destruct x as [| | |s' m e]; try done. by intros [_ ?]. Qed.

Lemma rounded_positive x : rounded false x → SFltb (of_int 0) x = true.
Proof. destruct x as [|[]| |[] m e]; try done; by intros [? _]. Qed.

Lemma bounded_facts m e :
  bounded 53 1024 m e = true →
  -1074 ≤ e ∧ Zpos m < 2 ^ 53 ∧ (e = -1074 ∨ 2 ^ 52 ≤ Zpos m).
Proof.
  unfold bounded, canonical_mantissa, fexp, emin.
  intros [Hc _]%andb_true_iff. apply Z.eqb_eq in Hc.
  rewrite digits_log2 in Hc. change (3 - 1024 - 53) with (-1074) in Hc.
  split_and!; [lia| |].
  - apply Z.log2_lt_pow2; [done|lia].
  - destruct (decide (e = -1074)) as [?|Hne]; [by left|right].
    apply Z.log2_le_pow2; [done|lia].
Qed.

Lemma shl_align_le m e ez :
  ez ≤ e → fst (shl_align m e ez) = shl m (Z.to_nat (e - ez)).
Proof.
  intros He. unfold shl_align. destruct (ez - e) as [|p|q] eqn:Hcase; cbn [fst].
  - by replace (e - ez) with 0 by lia.
  - lia.
  - rewrite Pos_iter_shl. f_equal. lia.
Qed.

Lemma aligned_value_eq s m e ez :
  ez ≤ e → cond_Zopp s (Zpos (fst (shl_align m e ez))) = aligned_value s m e ez.
Proof.
  intros He. unfold aligned_value. rewrite shl_align_le, shl_Z by done.
  by rewrite Z2Nat.id by lia.
Qed.

(** Among doubles the order of the representations is the order of the
    values. *)
Lemma compare_values s1 m1 e1 s2 m2 e2 :
  bounded 53 1024 m1 e1 = true → bounded 53 1024 m2 e2 = true →
  SFcompare (S754_finite s1 m1 e1) (S754_finite s2 m2 e2)
  = Some (aligned_value s1 m1 e1 (Z.min e1 e2) ?= aligned_value s2 m2 e2 (Z.min e1 e2)).
Proof.
  intros (He1 & Hm1 & Hn1)%bounded_facts (He2 & Hm2 & Hn2)%bounded_facts.
  cbn [SFcompare]. f_equal. unfold aligned_value.
  change (Pos.compare_cont Eq m1 m2) with (Pos.compare m1 m2).
  rewrite Pos2Z.inj_compare.
  assert (Hshift : ∀ a b k, 0 < k → Zpos a < 2 ^ 53 → 2 ^ 52 ≤ Zpos b →
            Zpos a < Zpos b * 2 ^ k).
  { intros a b k Hk Ha Hb.
    assert (2 ^ 1 ≤ 2 ^ k) by (apply Z.pow_le_mono_r; lia).
    change (2 ^ 53) with (2 ^ 52 * 2 ^ 1) in Ha. nia. }
  destruct (Z.compare_spec e1 e2) as [->|Hlt|Hgt].
  - rewrite Z.min_id, Z.sub_diag, !Z.mul_1_r.
    by destruct s1, s2.
  - rewrite Z.min_l, Z.sub_diag, Z.mul_1_r by lia.
    assert (Zpos m1 < Zpos m2 * 2 ^ (e2 - e1)) by (apply Hshift; lia).
    assert (0 < Zpos m2 * 2 ^ (e2 - e1)) by lia.
    destruct s1, s2; cbn [cond_Zopp]; symmetry;
      [apply Z.compare_gt_iff|apply Z.compare_lt_iff|
       apply Z.compare_gt_iff|apply Z.compare_lt_iff]; lia.
  - rewrite Z.min_r, Z.sub_diag, Z.mul_1_r by lia.
    assert (Zpos m2 < Zpos m1 * 2 ^ (e1 - e2)) by (apply Hshift; lia).
    assert (0 < Zpos m1 * 2 ^ (e1 - e2)) by lia.
    destruct s1, s2; cbn [cond_Zopp]; symmetry;
      [apply Z.compare_lt_iff|apply Z.compare_lt_iff|
       apply Z.compare_gt_iff|apply Z.compare_gt_iff]; lia.
Qed.

Lemma normalize_valid z e :
  -1074 ≤ e → is_double (binary_normalize 53 1024 z e false).
Proof.
  intros He. destruct z as [|m|m]; cbn [binary_normalize]; [done|..];
    eapply rounded_valid; by apply binary_round_valid.
Qed.

Lemma normalize_positive z e :
  0 < z → -1074 ≤ e → rounded false (binary_normalize 53 1024 z e false).
Proof.
  intros Hz He. destruct z as [|m|m]; [lia| |lia]. by apply binary_round_valid.
Qed.

Lemma valid_exponent s m e : is_double (S754_finite s m e) → -1074 ≤ e.
Proof.
  intros H. change (bounded 53 1024 m e = true) in H.
  destruct (bounded_facts _ _ H) as (He & _). exact He.
Qed.

(** The sum of two doubles is a double. *)
Lemma number_add_valid x y : is_double x → is_double y → is_double (number_add x y).
Proof.
  intros Hx Hy. unfold number_add.
  destruct x as [[]|[]| |sx mx ex], y as [[]|[]| |sy my ey]; try done.
  cbn [SFadd]. apply normalize_valid.
  apply valid_exponent in Hx, Hy. lia.
Qed.

Lemma Math_max_valid x y : is_double x → is_double y → is_double (Math_max x y).
Proof.
  intros Hx Hy. destruct (Math_max_cases x y) as [-> | [-> | ->]]; done.
Qed.

Lemma max_latency_valid lats : Forall is_double lats → is_double (max_latency lats).
Proof.
  unfold max_latency. assert (Ha : is_double (of_int 0)) by done. revert Ha.
  generalize (of_int 0). intros a Ha H. revert a Ha.
  induction H as [|l lats Hl _ IH]; intros a Ha; cbn [foldl]; [done|].
  apply IH. by apply Math_max_valid.
Qed.

(** The difference of two doubles, the second of which is not above the
    first, is not a number, a zero or a strictly positive number. *)
Lemma number_sub_sign m l :
  is_double m → is_double l → SFleb l m = true →
  (∃ s, number_sub m l = S754_zero s) ∨ SFltb (of_int 0) (number_sub m l) = true ∨
  number_sub m l = S754_nan.
Proof.
  intros Hm Hl Hle. unfold number_sub.
  destruct m as [sm|sm| |sm mm em], l as [sl|sl| |sl ml el]; try done.
  1-8: cbn [SFsub]; repeat match goal with b : bool |- _ => destruct b end;
       try done;
       first [left; by eexists|right; left; reflexivity|right; right; reflexivity].
  - unfold SFleb in Hle. rewrite compare_values in Hle by done.
    cbn [SFsub]. rewrite !aligned_value_eq by lia.
    rewrite (Z.min_comm em el).
    set (d := aligned_value sm mm em (el `min` em) - aligned_value sl ml el (el `min` em)).
    destruct (Z.compare_spec (aligned_value sl ml el (el `min` em))
                             (aligned_value sm mm em (el `min` em))) as [He|Hlt|Hgt];
      [| |done].
    + left. exists false. by replace d with 0 by (unfold d; lia).
    + right; left. apply rounded_positive, normalize_positive; [unfold d; lia|].
      apply valid_exponent in Hm, Hl. lia.
Qed.

Lemma foldl_max_nan lats :
  ∀ a, a = S754_nan ∨ S754_nan ∈ lats → foldl Math_max a lats = S754_nan.
Proof.
  induction lats as [|l lats IH]; intros a [Ha|Hin]; cbn [foldl].
  - done.
  - by apply elem_of_nil in Hin.
  - apply IH. left. apply Math_max_nan. by left.
  - apply elem_of_cons in Hin as [<-|Hin].
    + apply IH. left. apply Math_max_nan. by right.
    + apply IH. by right.
Qed.

Lemma max_latency_nan lats : S754_nan ∈ lats → max_latency lats = S754_nan.
Proof. intros H. apply foldl_max_nan. by right. Qed.

(** ** Graphs whose delays are whole numbers *)

Lemma Latency_inv g n l :
  Latency g n l →
  ∃ nd lats,
    g !! n = Some nd ∧ l = number_add (max_latency lats) (Node.delay nd) ∧
    Forall2 (InputLatency (Latency g)) (Port.connection <$> Node.inputs nd) lats.
Proof. intros H. inversion H as [n' nd lats Hn HF]. subst. by exists nd, lats. Qed.

Lemma delay_of_lookup g n nd :
  g !! n = Some nd → delay_of g n = to_int (Node.delay nd).
Proof. intros H. unfold delay_of. by rewrite H. Qed.

Lemma within_lookup bound g n nd :
  within bound g = true → g !! n = Some nd →
  of_int (to_int (Node.delay nd)) = Node.delay nd ∧
  0 ≤ to_int (Node.delay nd) ∧
  to_int (Node.delay nd) ≤ bound n ∧ bound n < 2 ^ 53 ∧
  Forall (λ m, bound m + to_int (Node.delay nd) ≤ bound n) (upstream nd).
Proof. intros Hw%bool_decide_eq_true Hn. exact (Hw n nd Hn). Qed.

Lemma whole_inputs g d b conns lats :
  0 ≤ d ≤ b →
  (∀ c l, Some c ∈ conns → Latency g (Connection.node c) l →
          ∃ z, l = of_int z ∧ 0 ≤ z ∧ z + d ≤ b ∧ Longest g (Connection.node c) z) →
  Forall2 (InputLatency (Latency g)) conns lats →
  ∃ zs, lats = of_int <$> zs ∧ Forall2 (WholeInput g d b) conns zs.
Proof.
  intros Hd Hup HF. induction HF as [|co l conns lats HIL _ IH].
  - by exists [].
  - destruct IH as (zs & -> & Hzs).
    { intros c l' Hc. apply Hup. by apply list_elem_of_further. }
    inversion HIL as [Hnone Hzero|c l' HLat Hsome Hl].
    + exists (0 :: zs). split; [done|]. constructor; [|done].
      split_and!; [lia|lia|done].
    + subst. destruct (Hup c l (list_elem_of_here _ _) HLat)
        as (z & -> & Hz0 & Hzb & Hlong).
      exists (z :: zs). split; [done|]. by constructor.
Qed.

Lemma whole_inputs_range g d b conns zs :
  0 ≤ d ≤ b → b < 2 ^ 53 → Forall2 (WholeInput g d b) conns zs →
  Forall (λ z, 0 ≤ z < 2 ^ 53) zs ∧ max_int zs + d ≤ b.
Proof.
  intros Hd Hb HF.
  induction HF as [|co z conns zs (Hz0 & Hzb & _) _ [IH1 IH2]].
  - split; [done|]. unfold max_int. cbn [foldr]. lia.
  - split; [constructor; [lia|done]|]. unfold max_int in *. cbn [foldr]. lia.
Qed.

(** In a graph of whole delays the latency of a node is the whole number
    that is the largest delay of a path from the node. *)
Lemma whole_node bound g n nd lats :
  within bound g = true → g !! n = Some nd →
  (∀ m l, edge g n m → Latency g m l →
          ∃ z, l = of_int z ∧ 0 ≤ z ≤ bound m ∧ Longest g m z) →
  Forall2 (InputLatency (Latency g)) (Port.connection <$> Node.inputs nd) lats →
  ∃ zs,
    lats = of_int <$> zs ∧
    Forall2 (WholeInput g (to_int (Node.delay nd)) (bound n))
            (Port.connection <$> Node.inputs nd) zs ∧
    Forall (λ z, 0 ≤ z < 2 ^ 53) zs ∧
    max_int zs + to_int (Node.delay nd) ≤ bound n ∧
    max_latency lats = of_int (max_int zs) ∧
    number_add (max_latency lats) (Node.delay nd)
    = of_int (max_int zs + to_int (Node.delay nd)).
Proof.
  intros Hw Hn Hup HF.
  destruct (within_lookup _ _ _ _ Hw Hn) as (Hd & Hd0 & Hdb & Hb & Hups).
  assert (Hcs : ∀ c l, Some c ∈ Port.connection <$> Node.inputs nd →
            Latency g (Connection.node c) l →
            ∃ z, l = of_int z ∧ 0 ≤ z ∧ z + to_int (Node.delay nd) ≤ bound n ∧
                 Longest g (Connection.node c) z).
  { intros c l Hc HLat.
    apply list_elem_of_fmap in Hc as (p & Hpc & Hp).
    assert (Hm : Connection.node c ∈ upstream nd).
    { unfold upstream. apply list_elem_of_omap. exists p. split; [done|].
      by rewrite <-Hpc. }
    destruct (Hup (Connection.node c) l) as (z & -> & Hz & Hlong); [by exists nd|done|].
    rewrite Forall_forall in Hups. specialize (Hups _ Hm).
    exists z. split_and!; [done|lia|lia|done]. }
  destruct (whole_inputs g (to_int (Node.delay nd)) (bound n) _ _
              (conj Hd0 Hdb) Hcs HF) as (zs & -> & Hzs).
  destruct (whole_inputs_range _ _ _ _ _ (conj Hd0 Hdb) Hb Hzs) as [Hrange Hmax].
  exists zs. split_and!; try done.
  - by apply max_latency_whole.
  - rewrite max_latency_whole by done. rewrite <-Hd at 1.
    apply of_int_add; [apply max_int_nonneg|done|lia].
Qed.

Lemma Longest_node g n nd d b zs :
  g !! n = Some nd → d = to_int (Node.delay nd) →
  Forall2 (WholeInput g d b) (Port.connection <$> Node.inputs nd) zs →
  Longest g n (max_int zs + d).
Proof.
  intros Hn -> Hzs. split.
  - intros [|m rest] Hp.
    + unfold path_delay. cbn [foldr]. rewrite (delay_of_lookup _ _ _ Hn).
      assert (H0 := max_int_nonneg zs). lia.
    + destruct Hp as [He Hp].
      apply edge_inv in He as (nd' & i & p & c & Hn' & Hi & Hc & <-).
      assert (nd' = nd) as -> by congruence.
      assert (Hci : (Port.connection <$> Node.inputs nd) !! i = Some (Some c)).
      { by rewrite list_lookup_fmap, Hi, <-Hc. }
      destruct (Forall2_lookup_l _ _ _ _ _ Hzs Hci) as (z & Hz & _ & _ & [Hle _]).
      specialize (Hle rest Hp).
      assert (z ≤ max_int zs) by (apply max_int_ge; by eapply list_elem_of_lookup_2).
      unfold path_delay in *. cbn [foldr] in *.
      rewrite (delay_of_lookup _ _ _ Hn). lia.
  - assert (Hself : max_int zs = 0 →
      ∃ rest, is_path g n rest ∧
              path_delay g (n :: rest) = max_int zs + to_int (Node.delay nd)).
    { intros ->. exists []. split; [done|]. unfold path_delay. cbn [foldr].
      rewrite (delay_of_lookup _ _ _ Hn). lia. }
    destruct (max_int_cases zs) as [H0|Hin]; [by apply Hself|].
    apply list_elem_of_lookup_1 in Hin as [i Hi].
    destruct (Forall2_lookup_r _ _ _ _ _ Hzs Hi) as (co & Hco & _ & _ & Hlong).
    destruct co as [c|]; [|by apply Hself].
    rewrite list_lookup_fmap in Hco.
    destruct (Node.inputs nd !! i) as [p|] eqn:Hp; [|done].
    simpl in Hco. injection Hco as Hc.
    assert (He : edge g n (Connection.node c)) by by eapply input_edge.
    destruct Hlong as [_ (rest & Hpath & Hsum)].
    exists (Connection.node c :: rest). split; [done|].
    unfold path_delay in *. cbn [foldr] in *.
    rewrite (delay_of_lookup _ _ _ Hn). lia.
Qed.

Lemma whole_latency bound g n :
  within bound g = true → sn (edge g) n →
  ∀ l, Latency g n l → ∃ z, l = of_int z ∧ 0 ≤ z ≤ bound n ∧ Longest g n z.
Proof.
  intros Hw. induction 1 as [n _ IH].
  intros l (nd & lats & Hn & -> & HF)%Latency_inv.
  destruct (whole_node bound g n nd lats Hw Hn) as (zs & -> & Hzs & _ & Hmax & _ & Hl);
    [|done|].
  { intros m l He. by apply IH. }
  exists (max_int zs + to_int (Node.delay nd)). split_and!; [done| |lia|].
  - destruct (within_lookup _ _ _ _ Hw Hn) as (_ & Hd0 & _).
    assert (H0 := max_int_nonneg zs). lia.
  - by eapply Longest_node.
Qed.

(** The input latencies of a scheduled node of a graph of whole delays. *)
Lemma scheduled_whole bound g s st :
  closed g → acyclic g → within bound g = true → Inv g s → st ∈ order s →
  ∃ nd zs,
    heap s !! Scheduled.node st = Some nd ∧
    st = stepOf (Scheduled.node st) nd ∧
    Forall2 (InputDone g (heap s) (of_int (max_int zs))) (Node.inputs nd)
            (of_int <$> zs) ∧
    Forall (λ z, 0 ≤ z < 2 ^ 53) zs ∧
    Node.latency nd = Some (of_int (max_int zs + to_int (Node.delay nd))) ∧
    Longest g (Scheduled.node st) (max_int zs + to_int (Node.delay nd)).
Proof.
  intros Hclosed Hacyc Hw HI Hst.
  destruct (scheduled_step g s st HI Hst)
    as (nd & Hn & _ & Heq & lats & Hin & Hlat & _).
  destruct (reset_eq_lookup _ _ _ _ (inv_shape _ _ HI) Hn) as (nd0 & Hn0 & Hr).
  apply resetNode_connections in Hr as [Hconn Hdelay].
  assert (HF : Forall2 (InputLatency (Latency g))
                 (Port.connection <$> Node.inputs nd0) lats).
  { rewrite <-Hconn. apply (solved_latencies g (heap s)).
    eapply Forall2_impl; [exact Hin|]. by intros p l [? _]. }
  destruct (whole_node bound g _ nd0 lats Hw Hn0) as (zs & -> & Hzs & Hr & _ & Hm & Hl);
    [|done|].
  { intros m l He. apply (whole_latency bound); [done|]. by apply acyclic_sn. }
  exists nd, zs. rewrite Hm in Hin. rewrite Hdelay in Hlat |- *. rewrite Hl in Hlat.
  split_and!; try done. by eapply Longest_node.
Qed.

Lemma compensationFor_whole m z c :
  0 ≤ z → z ≤ m → m < 2 ^ 53 →
  compensationFor (of_int m) (of_int z) = Some c →
  ∃ k, c = of_int k ∧ 0 < k < 2 ^ 53.
Proof.
  intros Hz Hzm Hm. unfold compensationFor.
  rewrite of_int_sub, of_int_neq0 by lia.
  destruct (m - z =? 0) eqn:Hk; [done|]. apply Z.eqb_neq in Hk.
  intros H. injection H as <-. exists (m - z). split; [done|lia].
Qed.

Lemma render_delay steps b amount :
  CallDelay b amount ∈ render steps →
  ∃ st a, st ∈ steps ∧ a ∈ Scheduled.inputs st ∧
          truthy (BufferAssignment.compensation a) = true ∧
          amount = asNumber (BufferAssignment.compensation a).
Proof.
  unfold render. intros Hin%list_elem_of_In.
  apply in_concat in Hin as (calls & Hcalls & Hin).
  apply in_map_iff in Hcalls as (st & <- & Hst).
  apply list_elem_of_In in Hin, Hst. exists st.
  unfold renderStep in Hin. apply elem_of_app in Hin as [Hin|Hin].
  - apply list_elem_of_omap in Hin as (a & Ha & Heq). exists a.
    destruct (truthy _) eqn:Ht; [|done]. by injection Heq as <- <-.
  - by apply list_elem_of_singleton in Hin.
Qed.

(** The latencies of a graph whose delays are doubles are doubles. *)
Lemma Latency_valid g n :
  doubles g = true → sn (edge g) n → ∀ l, Latency g n l → is_double l.
Proof.
  intros Hd. induction 1 as [n _ IH].
  intros l (nd & lats & Hn & -> & HF)%Latency_inv.
  apply number_add_valid.
  - apply max_latency_valid.
    assert (Hup : ∀ c, Some c ∈ Port.connection <$> Node.inputs nd →
                       edge g n (Connection.node c)).
    { intros c (p & Hpc & Hp)%list_elem_of_fmap.
      apply list_elem_of_lookup_1 in Hp as [i Hi]. by eapply input_edge. }
    induction HF as [|co l conns lats HIL _ IHF]; [done|].
    constructor.
    + inversion HIL as [|c l' HLat]; subst; [done|].
      eapply IH; [|done]. apply Hup. apply list_elem_of_here.
    + apply IHF. intros c Hc. apply Hup. by apply list_elem_of_further.
  - apply bool_decide_eq_true in Hd. exact (Hd n nd Hn).
Qed.

(** A compensation that is recorded is not a number or is strictly
    positive, when the latencies are doubles. *)
Lemma compensationFor_sign lats i l c :
  Forall is_double lats → lats !! i = Some l →
  compensationFor (max_latency lats) l = Some c →
  c = S754_nan ∨ SFltb (of_int 0) c = true.
Proof.
  intros Hv Hi. unfold compensationFor.
  destruct (number_neq0 _) eqn:Hne; [|done]. intros H. injection H as <-.
  destruct (decide (Forall (λ l, l ≠ S754_nan) lats)) as [Hnn|Hnan].
  - destruct (max_latency_spec lats Hnn) as (_ & _ & _ & Hle).
    rewrite Forall_forall in Hle, Hv.
    assert (Hin : l ∈ lats) by by eapply list_elem_of_lookup_2.
    destruct (number_sub_sign (max_latency lats) l) as [[s Hz]|[Hpos|Hnan]].
    + by apply max_latency_valid, Forall_forall.
    + by apply Hv.
    + by apply Hle.
    + by rewrite Hz in Hne.
    + by right.
    + by left.
  - left. apply not_Forall_Exists in Hnan; [|apply _].
    apply Exists_exists in Hnan as (x & Hx & Hxn).
    assert (x = S754_nan) as -> by (by destruct (decide (x = S754_nan))).
    by rewrite (max_latency_nan lats Hx).
Qed.

(** C10, as stated, fails: two finite delays add up to infinity, the
    difference of two infinities is not a number, and it is recorded as
    the compensation of the input [in1] of the mixer. *)
Lemma compensation_not_a_number_on_overflow :
  closed Overflow.graph ∧ acyclic Overflow.graph ∧ fresh Overflow.graph ∧
  doubles Overflow.graph = true ∧ to_int Overflow.huge = 2 ^ 1023 ∧
  schedule 3 Overflow.mixer Overflow.graph = Some Overflow.steps ∧
  BufferAssignment.mk "in1" (Some 0%nat) (Some S754_nan)
    ∈ Scheduled.inputs Overflow.mixer_step ∧
  ¬ compensation_positive Overflow.steps.
Proof.
  split_and!.
  - apply closedb_closed. vm_compute. reflexivity.
  - apply (ranked_acyclic (λ n, 2 - n)%nat). vm_compute. reflexivity.
  - vm_compute. reflexivity.
  - vm_compute. reflexivity.
  - vm_compute. reflexivity.
  - vm_compute. reflexivity.
  - apply list_elem_of_here.
  - intros H.
    specialize (H Overflow.mixer_step
                  (BufferAssignment.mk "in1" (Some 0%nat) (Some S754_nan)) S754_nan).
    discriminate H; [|apply list_elem_of_here|reflexivity].
    unfold Overflow.steps. do 2 apply list_elem_of_further. apply list_elem_of_here.
Qed.

(** C10, amended.  In every schedule that [schedule] produces for an
    acyclic graph whose delays are doubles, a compensation that is present
    on an input binding is strictly positive or is not a number (the
    difference of two infinities, which finite delays reach by overflow),
    never negative and never a zero; [render] skips a compensation that is
    not a number, and calls [delay] with strictly positive amounts only. *)
Theorem schedule_compensation_positive (g : Graph) (root : NodeRef) fuel steps :
  closed g → acyclic g → fresh g → doubles g = true →
  schedule fuel root g = Some steps →
  (∀ st a c,
     st ∈ steps → a ∈ Scheduled.inputs st →
     BufferAssignment.compensation a = Some c →
     c = S754_nan ∨ SFltb (of_int 0) c = true) ∧
  (∀ b amount, CallDelay b amount ∈ render steps →
     SFltb (of_int 0) amount = true).
Proof.
  intros Hclosed Hacyc Hfresh Hd (s & Hs & <-)%schedule_order.
  destruct (schedule_run_Inv g root Hacyc Hfresh fuel s Hs) as [HI _].
  assert (Hpos : ∀ st a c,
     st ∈ order s → a ∈ Scheduled.inputs st →
     BufferAssignment.compensation a = Some c →
     c = S754_nan ∨ SFltb (of_int 0) c = true).
  { intros st a c Hst Ha Hc.
    destruct (scheduled_step g s st HI Hst) as (nd & Hn & _ & Heq & lats & Hin & _).
    rewrite Heq in Ha. apply stepOf_input in Ha as (i & p & Hi & ->).
    destruct (Forall2_lookup_l _ _ _ i p Hin Hi) as (l & Hl & [_ Hcomp]).
    simpl in Hc. rewrite Hcomp in Hc.
    eapply compensationFor_sign; [|exact Hl|exact Hc].
    eapply Forall2_Forall_r; [exact Hin|]. apply Forall_true.
    intros q lq [[_ Hq] _]. destruct (Port.connection q) as [cq|].
    - destruct Hq as (md & _ & _ & _ & HLat & _).
      eapply Latency_valid; [done| |done]. by apply acyclic_sn.
    - by destruct Hq as [-> _]. }
  split; [done|].
  intros b amount (st & a & Hst & Ha & Ht & ->)%render_delay.
  destruct (BufferAssignment.compensation a) as [c|] eqn:Hc; [|done].
  destruct (Hpos st a c Hst Ha Hc) as [->|Hc']; [done|]. done.
Qed.

Lemma schedule_compensation_positive_witness :
  ∃ steps, schedule 4 Example.sink Example.graph = Some steps ∧
  (∀ st a c,
     st ∈ steps → a ∈ Scheduled.inputs st →
     BufferAssignment.compensation a = Some c →
     c = S754_nan ∨ SFltb (of_int 0) c = true) ∧
  (∀ b amount, CallDelay b amount ∈ render steps →
     SFltb (of_int 0) amount = true).
Proof.
  eexists. split; [vm_compute; reflexivity|].
  apply (schedule_compensation_positive Example.graph Example.sink 4).
  - apply closedb_closed. vm_compute. reflexivity.
  - apply (ranked_acyclic (λ n, 3 - n)%nat). vm_compute. reflexivity.
  - vm_compute. reflexivity.
  - vm_compute. reflexivity.
  - vm_compute. reflexivity.
Defined.

(** When the delays are whole numbers of samples, none negative, and the
    delay of no path reaches [2 ^ 53], every compensation that is present
    is a strictly positive whole number, and so is every amount that
    [render] passes to [delay]. *)
Lemma schedule_compensation_whole
    (bound : NodeRef → Z) (g : Graph) (root : NodeRef) fuel steps :
  closed g → acyclic g → fresh g → within bound g = true →
  schedule fuel root g = Some steps →
  (∀ st a c,
     st ∈ steps → a ∈ Scheduled.inputs st →
     BufferAssignment.compensation a = Some c →
     ∃ z, c = of_int z ∧ 0 < z < 2 ^ 53) ∧
  compensation_positive steps ∧
  (∀ b amount, CallDelay b amount ∈ render steps →
     ∃ z, amount = of_int z ∧ 0 < z < 2 ^ 53).
Proof.
  intros Hclosed Hacyc Hfresh Hw (s & Hs & <-)%schedule_order.
  destruct (schedule_run_Inv g root Hacyc Hfresh fuel s Hs) as [HI _].
  assert (Hpos : ∀ st a c,
     st ∈ order s → a ∈ Scheduled.inputs st →
     BufferAssignment.compensation a = Some c →
     ∃ z, c = of_int z ∧ 0 < z < 2 ^ 53).
  { intros st a c Hst Ha Hc.
    destruct (scheduled_whole bound g s st Hclosed Hacyc Hw HI Hst)
      as (nd & zs & Hn & Heq & Hin & Hrange & _).
    rewrite Heq in Ha. apply stepOf_input in Ha as (i & p & Hi & ->).
    destruct (Forall2_lookup_l _ _ _ i p Hin Hi) as (l & Hl & [_ Hcomp]).
    simpl in Hc. rewrite Hcomp in Hc.
    rewrite list_lookup_fmap in Hl.
    destruct (zs !! i) as [z|] eqn:Hz; [|done]. simpl in Hl. injection Hl as <-.
    rewrite Forall_forall in Hrange.
    assert (Hzr := Hrange z ltac:(by eapply list_elem_of_lookup_2)).
    assert (Hzm : z ≤ max_int zs) by (apply max_int_ge; by eapply list_elem_of_lookup_2).
    assert (Hmr : max_int zs < 2 ^ 53).
    { destruct (max_int_cases zs) as [->|Hin']; [done|]. by apply Hrange. }
    by eapply (compensationFor_whole (max_int zs) z); [lia|lia|lia|]. }
  split_and!; [done| |].
  - intros st a c Hst Ha Hc. destruct (Hpos st a c Hst Ha Hc) as (z & -> & Hz).
    by apply of_int_positive.
  - intros b amount (st & a & Hst & Ha & Ht & ->)%render_delay.
    destruct (BufferAssignment.compensation a) as [c|] eqn:Hc; [|done].
    simpl. by eapply Hpos.
Qed.

Lemma InputDone_latency g h m p l : InputDone g h m p l → InputLatencyIn h p l.
Proof.
  intros [[Hl Hc] _]. split; [done|]. destruct (Port.connection p) as [c|].
  - destruct Hc as (md & ? & _ & ? & _). by exists md.
  - by destruct Hc.
Qed.

(** The latencies in the state that a run of [schedule] leaves. *)
Lemma latency_recurrence (g : Graph) (root : NodeRef) fuel s :
  acyclic g → fresh g →
  schedule_run fuel root g = Some s →
  (∀ n, n ∈ Scheduled.node <$> order s ↔ rtc (edge g) root n) ∧
  ∀ n, rtc (edge g) root n →
    ∃ nd lats,
      heap s !! n = Some nd ∧
      Forall2 (InputLatencyIn (heap s)) (Node.inputs nd) lats ∧
      Node.latency nd = Some (number_add (max_latency lats) (Node.delay nd)) ∧
      Latency g n (number_add (max_latency lats) (Node.delay nd)).
Proof.
  intros Hacyc Hfresh Hs.
  destruct (schedule_run_Inv g root Hacyc Hfresh fuel s Hs) as [HI Hvis].
  split; [intros n; by rewrite (inv_order _ _ HI), Hvis|].
  intros n (nd & Hn & Hv)%Hvis.
  destruct (inv_done _ _ HI _ _ Hn Hv) as [(lats & Hin & Hlat & HLat & _) _].
  exists nd, lats. split_and!; try done.
  eapply Forall2_impl; [exact Hin|]. intros p l. apply InputDone_latency.
Qed.

(** C5.  A compile pass of an acyclic graph with a valid root returns; it
    schedules the nodes that the root reaches, and the latency that it
    stores on each of them is the maximum of the latencies of its inputs
    ([0] for an unconnected input and for an empty list of inputs) plus its
    own delay, in the arithmetic of the program, the latency of a connected
    input being the latency stored on its upstream node; this is the
    latency that the recurrence [Latency] gives on the graph. *)
Theorem schedule_latency_recurrence (g : Graph) (root : NodeRef) :
  closed g → acyclic g → fresh g → is_Some (g !! root) →
  ∃ F, ∀ fuel, (F ≤ fuel)%nat →
    ∃ s,
      schedule_run fuel root g = Some s ∧
      (∀ n, n ∈ Scheduled.node <$> order s ↔ rtc (edge g) root n) ∧
      ∀ n, rtc (edge g) root n →
        ∃ nd lats,
          heap s !! n = Some nd ∧
          Forall2 (InputLatencyIn (heap s)) (Node.inputs nd) lats ∧
          Node.latency nd
          = Some (number_add (max_latency lats) (Node.delay nd)) ∧
          Latency g n (number_add (max_latency lats) (Node.delay nd)).
Proof.
  intros Hclosed Hacyc Hfresh Hroot.
  destruct (schedule_run_returns g root Hclosed Hacyc Hroot) as [F HF].
  exists F. intros fuel Hfuel. destruct (HF fuel Hfuel) as [s Hs].
  exists s. split; [done|]. by eapply latency_recurrence.
Qed.

Lemma schedule_latency_recurrence_witness :
  ∃ F, ∀ fuel, (F ≤ fuel)%nat →
    ∃ s,
      schedule_run fuel Example.sink Example.graph = Some s ∧
      (∀ n, n ∈ Scheduled.node <$> order s ↔
            rtc (edge Example.graph) Example.sink n) ∧
      ∀ n, rtc (edge Example.graph) Example.sink n →
        ∃ nd lats,
          heap s !! n = Some nd ∧
          Forall2 (InputLatencyIn (heap s)) (Node.inputs nd) lats ∧
          Node.latency nd
          = Some (number_add (max_latency lats) (Node.delay nd)) ∧
          Latency Example.graph n (number_add (max_latency lats) (Node.delay nd)).
Proof.
  apply (schedule_latency_recurrence Example.graph Example.sink).
  - apply closedb_closed. vm_compute. reflexivity.
  - apply (ranked_acyclic (λ n, 3 - n)%nat). vm_compute. reflexivity.
  - vm_compute. reflexivity.
  - vm_compute. eexists. reflexivity.
Defined.

(** The latencies of the example: 0 for the source, 1 and 2 for the two
    branches, 2 for the sink. *)
Example example_latencies :
  (λ s, Node.latency <$> heap s !! Example.source) <$>
     schedule_run 4 Example.sink Example.graph = Some (Some (Some (of_int 0))) ∧
  (λ s, Node.latency <$> heap s !! Example.left) <$>
     schedule_run 4 Example.sink Example.graph = Some (Some (Some (of_int 1))) ∧
  (λ s, Node.latency <$> heap s !! Example.right) <$>
     schedule_run 4 Example.sink Example.graph = Some (Some (Some (of_int 2))) ∧
  (λ s, Node.latency <$> heap s !! Example.sink) <$>
     schedule_run 4 Example.sink Example.graph = Some (Some (Some (of_int 2))).
Proof. vm_compute. done. Qed.

(** Above [2 ^ 53] the sums of the program are rounded: a node of delay
    [1] behind a node of delay [2 ^ 53] has the latency [2 ^ 53]. *)
Example latency_is_rounded :
  number_add (of_int (2 ^ 53)) (of_int 1) = of_int (2 ^ 53).
Proof. vm_compute. reflexivity. Qed.

(** C6, as stated, fails: the unconnected input [in2] of the mixer is
    given the compensation 1. *)
Lemma compensation_on_unconnected_input :
  schedule 2 Unconnected.mixer Unconnected.graph = Some Unconnected.steps ∧
  ¬ compensation_only_connected Unconnected.graph Unconnected.steps.
Proof.
  split; [vm_compute; reflexivity|]. intros H.
  destruct (H Unconnected.mixer_step Unconnected.mixer_node 1%nat
              (Example.port "in2" None)
              (BufferAssignment.mk "in2" (Some 0%nat) (Some (of_int 1))))
    as [c Hc]; try done.
  unfold Unconnected.steps. apply list_elem_of_further, list_elem_of_here.
Qed.

(** The compensations in the state that a run of [schedule] leaves. *)
Lemma compensation_rule (g : Graph) (root : NodeRef) fuel s :
  acyclic g → fresh g →
  schedule_run fuel root g = Some s →
  (∀ n, n ∈ Scheduled.node <$> order s ↔ rtc (edge g) root n) ∧
  ∀ st, st ∈ order s →
    ∃ nd lats,
      heap s !! Scheduled.node st = Some nd ∧
      Forall2 (InputLatencyIn (heap s)) (Node.inputs nd) lats ∧
      Forall2 (λ a p, BufferAssignment.port a = Port.name p)
              (Scheduled.inputs st) (Node.inputs nd) ∧
      Forall2 (λ a l, BufferAssignment.compensation a
                      = compensationFor (max_latency lats) l)
              (Scheduled.inputs st) lats.
Proof.
  intros Hacyc Hfresh Hs.
  destruct (schedule_run_Inv g root Hacyc Hfresh fuel s Hs) as [HI Hvis].
  split; [intros n; by rewrite (inv_order _ _ HI), Hvis|].
  intros st Hst.
  destruct (scheduled_step g s st HI Hst)
    as (nd & Hn & _ & Heq & lats & Hin & _).
  exists nd, lats. split_and!; try done.
  - eapply Forall2_impl; [exact Hin|]. intros p l. apply InputDone_latency.
  - rewrite Heq. simpl. change (map ?f ?l) with (f <$> l).
    apply Forall2_fmap_l. by apply Forall_Forall2_diag, Forall_true.
  - rewrite Heq. simpl. change (map ?f ?l) with (f <$> l).
    apply Forall2_fmap_l. eapply Forall2_impl; [exact Hin|].
    by intros p l [_ Hc].
Qed.

(** C6, amended.  A compile pass of an acyclic graph with a valid root
    returns a schedule with a step for every node that the root reaches,
    and in every step the compensation recorded on each input, connected or
    not, is the maximum input latency of the node minus the latency of that
    input (0 for an unconnected input), in the arithmetic of the program,
    and it is absent when that difference is zero. *)
Theorem schedule_compensation_rule (g : Graph) (root : NodeRef) :
  closed g → acyclic g → fresh g → is_Some (g !! root) →
  ∃ F, ∀ fuel, (F ≤ fuel)%nat →
    ∃ s,
      schedule_run fuel root g = Some s ∧
      (∀ n, n ∈ Scheduled.node <$> order s ↔ rtc (edge g) root n) ∧
      ∀ st, st ∈ order s →
        ∃ nd lats,
          heap s !! Scheduled.node st = Some nd ∧
          Forall2 (InputLatencyIn (heap s)) (Node.inputs nd) lats ∧
          Forall2 (λ a p, BufferAssignment.port a = Port.name p)
                  (Scheduled.inputs st) (Node.inputs nd) ∧
          Forall2 (λ a l, BufferAssignment.compensation a
                          = compensationFor (max_latency lats) l)
                  (Scheduled.inputs st) lats.
Proof.
  intros Hclosed Hacyc Hfresh Hroot.
  destruct (schedule_run_returns g root Hclosed Hacyc Hroot) as [F HF].
  exists F. intros fuel Hfuel. destruct (HF fuel Hfuel) as [s Hs].
  exists s. split; [done|]. by eapply compensation_rule.
Qed.

Lemma schedule_compensation_rule_witness :
  ∃ F, ∀ fuel, (F ≤ fuel)%nat →
    ∃ s,
      schedule_run fuel Unconnected.mixer Unconnected.graph = Some s ∧
      (∀ n, n ∈ Scheduled.node <$> order s ↔
            rtc (edge Unconnected.graph) Unconnected.mixer n) ∧
      ∀ st, st ∈ order s →
        ∃ nd lats,
          heap s !! Scheduled.node st = Some nd ∧
          Forall2 (InputLatencyIn (heap s)) (Node.inputs nd) lats ∧
          Forall2 (λ a p, BufferAssignment.port a = Port.name p)
                  (Scheduled.inputs st) (Node.inputs nd) ∧
          Forall2 (λ a l, BufferAssignment.compensation a
                          = compensationFor (max_latency lats) l)
                  (Scheduled.inputs st) lats.
Proof.
  apply (schedule_compensation_rule Unconnected.graph Unconnected.mixer).
  - apply closedb_closed. vm_compute. reflexivity.
  - apply (ranked_acyclic (λ n, 1 - n)%nat). vm_compute. reflexivity.
  - vm_compute. reflexivity.
  - vm_compute. eexists. reflexivity.
Defined.

(** The compensation is absent when the difference is one of the two
    zeros, and only then: a difference that is not a number is recorded. *)
Lemma compensationFor_None m l :
  compensationFor m l = None ↔ ∃ s, number_sub m l = S754_zero s.
Proof.
  unfold compensationFor, number_neq0, SFeqb.
  destruct (number_sub m l) as [s|[]| |[] k e]; cbn; split; try done;
    try (by intros [? ?]); by eexists.
Qed.

Lemma reportsb_reports md name : reportsb md name = true ↔ reports md name.
Proof.
  unfold reportsb, reports. rewrite existsb_exists. split.
  - intros (o & Ho%list_elem_of_In & Hb%bool_decide_eq_true). by exists o.
  - intros (o & Ho%list_elem_of_In & Hb). exists o. split; [done|].
    by apply bool_decide_eq_true.
Qed.

Lemma resolvesb_resolves g : resolvesb g = true → resolves g.
Proof.
  intros Hb%bool_decide_eq_true n nd p c md Hn Hp Hc Hm.
  specialize (Hb n nd Hn). simpl in Hb. rewrite forallb_forall in Hb.
  apply list_elem_of_In, Hb in Hp. unfold resolvedb in Hp. rewrite Hc, Hm in Hp.
  by apply reportsb_reports.
Qed.

(** The ports of a node of the running state and of the graph. *)
Lemma shape_input (nd nd0 : Node.t) i p :
  resetNode nd = resetNode nd0 → Node.inputs nd !! i = Some p →
  ∃ p0, Node.inputs nd0 !! i = Some p0 ∧
        Port.name p0 = Port.name p ∧ Port.connection p0 = Port.connection p.
Proof.
  intros Hr Hi.
  assert (Hins : resetPort <$> Node.inputs nd = resetPort <$> Node.inputs nd0)
    by by injection Hr.
  assert (Hl : (resetPort <$> Node.inputs nd0) !! i = Some (resetPort p)).
  { by rewrite <-Hins, list_lookup_fmap, Hi. }
  rewrite list_lookup_fmap in Hl.
  destruct (Node.inputs nd0 !! i) as [p0|]; [|done].
  exists p0. simpl in Hl. injection Hl as Hname Hconn. done.
Qed.






(** The example graph of [index.ts] is one in which every connected input
    is found. *)
Example example_resolves : resolves Example.graph.
Proof. apply resolvesb_resolves. vm_compute. reflexivity. Qed.


(** The same with an input that no output of the upstream node feeds: the
    schedule is returned, and the binding of the input has no buffer. *)
Lemma missing_output_unbound :
  missing_output Missing.graph ∧
  schedule 2 Missing.consumer Missing.graph = Some Missing.steps.
Proof.
  split; [|vm_compute; reflexivity].
  exists Missing.consumer, Missing.consumer_node,
    (Example.port "in1" (Some (Missing.producer, "out2"))),
    (Connection.mk Missing.producer "out2"), Missing.producer_node.
  split_and!; try done.
  - apply list_elem_of_here.
  - intros Hin. vm_compute in Hin.
    apply list_elem_of_singleton in Hin. discriminate Hin.
Qed.







Example example_schedule_computed :
  schedule 4 Example.sink Example.graph = Some example_schedule.
Proof. vm_compute. reflexivity. Qed.

(** C2.  The reuse of buffers is not sound on the example graph of the
    program: the output of [Left] (step 1) is bound to buffer 0 and is read
    by the first input of [Sink] (step 3), and [Right] (step 2) binds the
    same buffer 0 to its output in between.  [visit] releases the outputs
    of a node as soon as the inputs of that node are bound, before any
    consumer has run. *)
Theorem example_reuse_unsound :
  schedule 4 Example.sink Example.graph = Some example_schedule ∧
  consumes Example.graph example_schedule 1 3 0%nat ∧
  Some 0%nat ∈ BufferAssignment.buffer <$> Scheduled.outputs example_right_step ∧
  ¬ reuse_sound Example.graph example_schedule.
Proof.
  assert (Hc : consumes Example.graph example_schedule 1 3 0%nat).
  { exists example_left_step, example_sink_step, Example.sink_node, 0%nat,
      (Example.port "in1" (Some (Example.left, "out1"))),
      (Connection.mk Example.left "out1"),
      (BufferAssignment.mk "in1" (Some 0%nat) (Some (of_int 1))).
    split_and!; try done. apply list_elem_of_here. }
  assert (Hr : Some 0%nat ∈
            BufferAssignment.buffer <$> Scheduled.outputs example_right_step).
  { apply list_elem_of_here. }
  split; [exact example_schedule_computed|]. split; [exact Hc|].
  split; [exact Hr|]. intros H.
  apply (H 1 3 2 0 example_right_step)%nat; [exact Hc|lia|reflexivity|exact Hr].
Qed.

(** C3.  On the example graph of the program, the source, which has two
    consumers, is scheduled once, but the input of [Right], connected to
    the output [out2] of the source (buffer 2), is bound to buffer 1, the
    buffer of [out1]: the lookup goes by the name of the consumer's input,
    [in1], which is also the name of the input of [Left], and not by the
    output that the connection names. *)
Theorem example_fanout_wrong_buffer :
  schedule 4 Example.sink Example.graph = Some example_schedule ∧
  length (filter (λ st, Scheduled.node st = Example.source) example_schedule) = 1%nat ∧
  Port.connection <$> Node.inputs Example.right_node
    = [Some (Connection.mk Example.source "out2")] ∧
  BufferAssignment.mk "out2" (Some 2%nat) None ∈ Scheduled.outputs example_source_step ∧
  Scheduled.inputs example_right_step = [BufferAssignment.mk "in1" (Some 1%nat) None] ∧
  ¬ fanout_correct Example.graph example_schedule.
Proof.
  split; [exact example_schedule_computed|]. do 2 (split; [reflexivity|]).
  split; [apply list_elem_of_further, list_elem_of_here|].
  split; [reflexivity|].
  - intros H.
    assert (Hb : Some 1%nat = Some 2%nat); [|done].
    apply (H example_source_step example_right_step Example.right_node 0%nat
             (Example.port "in1" (Some (Example.source, "out2")))
             (Connection.mk Example.source "out2")
             (BufferAssignment.mk "in1" (Some 1%nat) None)
             (BufferAssignment.mk "out2" (Some 2%nat) None)); try done.
    + apply list_elem_of_here.
    + apply list_elem_of_further, list_elem_of_further, list_elem_of_here.
    + apply list_elem_of_further, list_elem_of_here.
Qed.

(** The same lookup when one output is named by the inputs of two consumers
    ([Fanout.graph]): the tee is scheduled once and the first consumer is
    bound to the buffer of its output (buffer 1), but the second consumer,
    whose input has another name, is bound to no buffer, since the output
    records the input name of one consumer only. *)
Lemma fanout_second_consumer_unbound :
  schedule 4 Fanout.sink Fanout.graph = Some Fanout.steps ∧
  length (filter (λ st, Scheduled.node st = Fanout.tee) Fanout.steps) = 1%nat ∧
  Scheduled.outputs Fanout.tee_step = [BufferAssignment.mk "out" (Some 1%nat) None] ∧
  Scheduled.inputs Fanout.first_step = [BufferAssignment.mk "in" (Some 1%nat) None] ∧
  Scheduled.inputs Fanout.second_step = [BufferAssignment.mk "signal" None None] ∧
  ¬ fanout_correct Fanout.graph Fanout.steps.
Proof.
  split; [vm_compute; reflexivity|]. do 4 (split; [reflexivity|]).
  intros H.
  assert (Hb : None = Some 1%nat); [|done].
  apply (H Fanout.tee_step Fanout.second_step Fanout.second_node 0%nat
           (Example.port "signal" (Some (Fanout.tee, "out")))
           (Connection.mk Fanout.tee "out")
           (BufferAssignment.mk "signal" None None)
           (BufferAssignment.mk "out" (Some 1%nat) None)); try done.
  - apply list_elem_of_here.
  - apply list_elem_of_further, list_elem_of_further, list_elem_of_here.
  - apply list_elem_of_here.
Qed.

(** * Further properties of the program *)

(** ** [render] *)

Lemma render_cons st steps : render (st :: steps) = renderStep st ++ render steps.
Proof. done. Qed.

Lemma renderStep_delays_not_process st :
  List.filter isProcess
    (omap (λ a, if truthy (BufferAssignment.compensation a)
                then Some (CallDelay (BufferAssignment.buffer a)
                             (asNumber (BufferAssignment.compensation a)))
                else None)
          (Scheduled.inputs st)) = [].
Proof.
  induction (Scheduled.inputs st) as [|a l IH]; [done|].
  cbn [omap list_omap]. destruct (truthy _); [|exact IH].
  cbn [List.filter isProcess]. exact IH.
Qed.

(** X1.  Whatever the schedule, [render] calls [process] once for each
    step, in the order of the schedule, with the node and the input and
    output bindings of the step; all its other calls are calls of [delay]. *)
Theorem render_process_calls (steps : list Scheduled.t) :
  List.filter isProcess (render steps) = map processCall steps.
Proof.
  induction steps as [|st steps IH]; [done|].
  rewrite render_cons. unfold renderStep.
  rewrite !List.filter_app, renderStep_delays_not_process, IH. done.
Qed.

(** X2.  Whatever the schedule, [render] calls [delay] with amounts that are
    numbers other than zero: a compensation that is absent, zero or not a
    number is skipped. *)
Theorem render_delays_nonzero (steps : list Scheduled.t) :
  Forall delayNonzero (render steps).
Proof.
  apply Forall_forall. intros [b amount|n ins outs] Hin; [|done].
  apply render_delay in Hin as (st & a & _ & _ & Ht & ->).
  destruct (BufferAssignment.compensation a) as [[s|[]| |[] m e]|]; done.
Qed.

(** ** What a compile pass leaves in the graph *)

(** X3.  A compile pass writes the transient fields only: in the graph that
    [schedule] leaves, every node has its name, its delay and its ports,
    with their names and connections, as before; resetting the transient
    fields gives the same graph as resetting them in the graph compiled,
    which is that graph itself when it was reset. *)
Theorem schedule_keeps_shape (g : Graph) (root : NodeRef) fuel s :
  schedule_run fuel root g = Some s →
  reset (heap s) = reset g ∧ (fresh g → reset (heap s) = g).
Proof.
  unfold schedule_run. intros H.
  destruct (visit fuel root (initial g)) as [[r s']|] eqn:Hv; [|done].
  simpl in H. injection H as ->.
  assert (Hs := visit_shape _ _ _ _ _ Hv). simpl in Hs.
  split; [done|]. intros Hf. by rewrite Hs.
Qed.

Lemma schedule_keeps_shape_witness :
  ∃ s, schedule_run 4 Example.sink Example.graph = Some s ∧
       reset (heap s) = reset Example.graph ∧
       (fresh Example.graph → reset (heap s) = Example.graph).
Proof.
  eexists. split; [vm_compute; reflexivity|].
  apply (schedule_keeps_shape Example.graph Example.sink 4).
  vm_compute. reflexivity.
Defined.

Lemma schedule_run_Post (g : Graph) (root : NodeRef) fuel s :
  acyclic g → fresh g →
  schedule_run fuel root g = Some s →
  ∃ r, Post g root (initial g) r s.
Proof.
  intros Hacyc Hfresh. unfold schedule_run. intros H.
  destruct (visit fuel root (initial g)) as [[r s']|] eqn:Hv; [|done].
  simpl in H. injection H as ->. exists r.
  eapply (visit_Spec g Hacyc Hfresh fuel); [by apply Inv_initial| |done].
  by intros k _ _.
Qed.

(** X4.  A compile pass touches the nodes reachable from the root and no
    other: after it, the nodes marked visited are exactly the reachable
    ones, and every other node of the graph is as it was, field by field. *)
Theorem schedule_touches_reachable_only (g : Graph) (root : NodeRef) fuel s :
  acyclic g → fresh g →
  schedule_run fuel root g = Some s →
  (∀ n, visitedIn (heap s) n ↔ rtc (edge g) root n) ∧
  (∀ n, ¬ rtc (edge g) root n → heap s !! n = g !! n).
Proof.
  intros Hacyc Hfresh Hs.
  destruct (schedule_run_Inv g root Hacyc Hfresh fuel s Hs) as [_ Hvis].
  destruct (schedule_run_Post g root fuel s Hacyc Hfresh Hs) as [r HP].
  split; [done|]. intros n Hn. by rewrite (post_frame _ _ _ _ _ HP n Hn).
Qed.

Lemma schedule_touches_reachable_only_witness :
  ∃ s, schedule_run 2 Example.left Example.graph = Some s ∧
  (∀ n, visitedIn (heap s) n ↔ rtc (edge Example.graph) Example.left n) ∧
  (∀ n, ¬ rtc (edge Example.graph) Example.left n → heap s !! n = Example.graph !! n).
Proof.
  eexists. split; [vm_compute; reflexivity|].
  apply (schedule_touches_reachable_only Example.graph Example.left 2).
  - apply (ranked_acyclic (λ n, 3 - n)%nat). vm_compute. reflexivity.
  - vm_compute. reflexivity.
  - vm_compute. reflexivity.
Defined.

Lemma resetNode_names nd nd' :
  resetNode nd = resetNode nd' →
  Port.name <$> Node.inputs nd = Port.name <$> Node.inputs nd' ∧
  Port.name <$> Node.outputs nd = Port.name <$> Node.outputs nd'.
Proof.
  intros H.
  assert (Hi := f_equal (λ x, Port.name <$> Node.inputs x) H).
  assert (Ho := f_equal (λ x, Port.name <$> Node.outputs x) H).
  simpl in Hi, Ho. by rewrite <-!list_fmap_compose in Hi, Ho.
Qed.

(** X5.  Every step of a compiled schedule has one input binding for each
    input port of its node and one output binding for each output port, in
    the order of the ports and under their names; an output binding has no
    compensation. *)
Theorem schedule_bindings_follow_ports (g : Graph) (root : NodeRef) fuel steps :
  acyclic g → fresh g →
  schedule fuel root g = Some steps →
  ∀ st, st ∈ steps →
    ∃ nd,
      g !! Scheduled.node st = Some nd ∧
      BufferAssignment.port <$> Scheduled.inputs st = Port.name <$> Node.inputs nd ∧
      BufferAssignment.port <$> Scheduled.outputs st = Port.name <$> Node.outputs nd ∧
      Forall (λ a, BufferAssignment.compensation a = None) (Scheduled.outputs st).
Proof.
  intros Hacyc Hfresh (s & Hs & <-)%schedule_order st Hst.
  destruct (schedule_run_Inv g root Hacyc Hfresh fuel s Hs) as [HI _].
  destruct (scheduled_step g s st HI Hst) as (nd & Hn & _ & Heq & _).
  destruct (reset_eq_lookup _ _ _ _ (inv_shape _ _ HI) Hn) as (nd0 & Hn0 & Hr).
  destruct (resetNode_names _ _ Hr) as [Hins Houts].
  exists nd0. split; [done|]. rewrite Heq. simpl.
  change (map ?f ?l) with (f <$> l). rewrite <-!list_fmap_compose.
  split_and!.
  - by rewrite <-Hins.
  - by rewrite <-Houts.
  - apply Forall_fmap, Forall_true. done.
Qed.

Lemma schedule_bindings_follow_ports_witness :
  ∃ steps, schedule 4 Example.sink Example.graph = Some steps ∧
  ∀ st, st ∈ steps →
    ∃ nd,
      Example.graph !! Scheduled.node st = Some nd ∧
      BufferAssignment.port <$> Scheduled.inputs st = Port.name <$> Node.inputs nd ∧
      BufferAssignment.port <$> Scheduled.outputs st = Port.name <$> Node.outputs nd ∧
      Forall (λ a, BufferAssignment.compensation a = None) (Scheduled.outputs st).
Proof.
  eexists. split; [vm_compute; reflexivity|].
  apply (schedule_bindings_follow_ports Example.graph Example.sink 4).
  - apply (ranked_acyclic (λ n, 3 - n)%nat). vm_compute. reflexivity.
  - vm_compute. reflexivity.
  - vm_compute. reflexivity.
Defined.

(** ** [render (schedule root)] *)

Lemma processed_app l k : processed (l ++ k) = processed l ++ processed k.
Proof. apply omap_app. Qed.

Lemma processed_renderStep st : processed (renderStep st) = [Scheduled.node st].
Proof.
  unfold renderStep. rewrite processed_app.
  assert (H : processed
    (omap (λ a, if truthy (BufferAssignment.compensation a)
                then Some (CallDelay (BufferAssignment.buffer a)
                             (asNumber (BufferAssignment.compensation a)))
                else None)
          (Scheduled.inputs st)) = []).
  { induction (Scheduled.inputs st) as [|a l IH]; [done|].
    cbn [omap list_omap]. destruct (truthy _); exact IH. }
  by rewrite H.
Qed.

Lemma processed_render steps : processed (render steps) = Scheduled.node <$> steps.
Proof.
  induction steps as [|st steps IH]; [done|].
  rewrite render_cons, processed_app, processed_renderStep, IH. done.
Qed.

(** X6.  Rendering the compiled schedule of an acyclic graph processes every
    node reachable from the root exactly once, no other node, and a node
    after every node it depends on, directly or not. *)
Theorem render_schedule_processes (g : Graph) (root : NodeRef) :
  closed g → acyclic g → fresh g → is_Some (g !! root) →
  ∃ F, ∀ fuel, (F ≤ fuel)%nat →
    ∃ steps,
      schedule fuel root g = Some steps ∧
      NoDup (processed (render steps)) ∧
      (∀ n, n ∈ processed (render steps) ↔ rtc (edge g) root n) ∧
      (∀ i j n m,
         processed (render steps) !! i = Some n →
         processed (render steps) !! j = Some m →
         tc (edge g) n m → (j < i)%nat).
Proof.
  intros Hclosed Hacyc Hfresh Hroot.
  destruct (schedule_run_returns g root Hclosed Hacyc Hroot) as [F HF].
  exists F. intros fuel Hfuel. destruct (HF fuel Hfuel) as [s Hs].
  destruct (schedule_run_Inv g root Hacyc Hfresh fuel s Hs) as [HI Hvis].
  exists (order s). unfold schedule. rewrite Hs, processed_render. split_and!.
  - done.
  - apply (inv_nodup _ _ HI).
  - intros n. by rewrite (inv_order _ _ HI), Hvis.
  - intros i j n m Hi Hj Htc.
    rewrite list_lookup_fmap in Hi, Hj.
    destruct (order s !! i) as [si|] eqn:Hsi; [|done].
    destruct (order s !! j) as [sj|] eqn:Hsj; [|done].
    simpl in Hi, Hj. injection Hi as <-. injection Hj as <-.
    destruct (order_tc g s i si _ HI Hsi Htc) as (j' & sj' & Hj' & Hnode & Hlt).
    assert (j' = j) as ->; [|done].
    eapply (NoDup_lookup _ _ _ (Scheduled.node sj) (inv_nodup _ _ HI)).
    + by rewrite list_lookup_fmap, Hj', <-Hnode.
    + by rewrite list_lookup_fmap, Hsj.
Qed.

Lemma render_schedule_processes_witness :
  ∃ F, ∀ fuel, (F ≤ fuel)%nat →
    ∃ steps,
      schedule fuel Example.sink Example.graph = Some steps ∧
      NoDup (processed (render steps)) ∧
      (∀ n, n ∈ processed (render steps) ↔ rtc (edge Example.graph) Example.sink n) ∧
      (∀ i j n m,
         processed (render steps) !! i = Some n →
         processed (render steps) !! j = Some m →
         tc (edge Example.graph) n m → (j < i)%nat).
Proof.
  apply (render_schedule_processes Example.graph Example.sink).
  - apply closedb_closed. vm_compute. reflexivity.
  - apply (ranked_acyclic (λ n, 3 - n)%nat). vm_compute. reflexivity.
  - vm_compute. reflexivity.
  - vm_compute. eexists. reflexivity.
Defined.

(** ** Latency as the longest delay of a path *)

(** The latency that a compile pass stores on a visited node. *)
Lemma visited_latency g s n nd :
  Inv g s → heap s !! n = Some nd → Node.visited nd = true →
  ∃ l, Node.latency nd = Some l ∧ Latency g n l.
Proof.
  intros HI Hn Hv.
  destruct (inv_done _ _ HI _ _ Hn Hv) as [(lats & _ & Hlat & HLat & _) _].
  by eexists.
Qed.

(** X7.  When the delays are whole numbers of samples, none negative, and
    the delay of no path reaches [2 ^ 53], the latency that a compile pass
    computes for a node is the longest delay of a path of connections that
    starts at the node, the delay of a path being the sum of the delays of
    its nodes: no such path has a larger delay, and one has exactly that
    delay. *)
Theorem schedule_latency_longest_path
    (bound : NodeRef → Z) (g : Graph) (root : NodeRef) fuel s :
  closed g → acyclic g → fresh g → within bound g = true →
  schedule_run fuel root g = Some s →
  ∀ n nd, heap s !! n = Some nd → Node.visited nd = true →
    ∃ z,
      Node.latency nd = Some (of_int z) ∧ 0 ≤ z < 2 ^ 53 ∧
      (∀ rest, is_path g n rest → path_delay g (n :: rest) ≤ z) ∧
      (∃ rest, is_path g n rest ∧ path_delay g (n :: rest) = z).
Proof.
  intros Hclosed Hacyc Hfresh Hw Hs n nd Hn Hv.
  destruct (schedule_run_Inv g root Hacyc Hfresh fuel s Hs) as [HI _].
  destruct (visited_latency g s n nd HI Hn Hv) as (l & Hl & HLat).
  destruct (whole_latency bound g n Hw (acyclic_sn g Hclosed n Hacyc) l HLat)
    as (z & -> & Hz & Hle & Heq).
  destruct (Latency_inv _ _ _ HLat) as (nd0 & _ & Hn0 & _).
  destruct (within_lookup _ _ _ _ Hw Hn0) as (_ & _ & _ & Hb & _).
  exists z. split_and!; [done|lia|lia|done|done].
Qed.

Lemma schedule_latency_longest_path_witness :
  ∃ s, schedule_run 4 Example.sink Example.graph = Some s ∧
  ∀ n nd, heap s !! n = Some nd → Node.visited nd = true →
    ∃ z,
      Node.latency nd = Some (of_int z) ∧ 0 ≤ z < 2 ^ 53 ∧
      (∀ rest, is_path Example.graph n rest →
               path_delay Example.graph (n :: rest) ≤ z) ∧
      (∃ rest, is_path Example.graph n rest ∧
               path_delay Example.graph (n :: rest) = z).
Proof.
  eexists. split; [vm_compute; reflexivity|].
  apply (schedule_latency_longest_path Example.bound Example.graph Example.sink 4).
  - apply closedb_closed. vm_compute. reflexivity.
  - apply (ranked_acyclic (λ n, 3 - n)%nat). vm_compute. reflexivity.
  - vm_compute. reflexivity.
  - vm_compute. reflexivity.
  - vm_compute. reflexivity.
Defined.

(** The recurrence has one solution. *)
Lemma InputLatency_fun g conns :
  (∀ c l1 l2, Some c ∈ conns →
     Latency g (Connection.node c) l1 → Latency g (Connection.node c) l2 → l1 = l2) →
  ∀ lats1 lats2,
    Forall2 (InputLatency (Latency g)) conns lats1 →
    Forall2 (InputLatency (Latency g)) conns lats2 → lats1 = lats2.
Proof.
  intros Hup lats1 lats2 H1. revert lats2.
  induction H1 as [|co l1 conns lats1 HIL1 _ IH]; intros lats2 H2.
  - by apply Forall2_nil_inv_l in H2.
  - apply Forall2_cons_inv_l in H2 as (l2 & lats2' & HIL2 & H2 & ->).
    f_equal.
    + inversion HIL1 as [Hn1 Hz1|c1 l1' HL1 Hc1 Hl1];
        inversion HIL2 as [Hn2 Hz2|c2 l2' HL2 Hc2 Hl2]; subst; try done.
      injection Hc2 as ->. eapply Hup; [apply list_elem_of_here|done..].
    + apply IH; [|done]. intros c l l' Hc. apply Hup. by apply list_elem_of_further.
Qed.

Lemma Latency_fun g n :
  sn (edge g) n → ∀ l1 l2, Latency g n l1 → Latency g n l2 → l1 = l2.
Proof.
  induction 1 as [n _ IH].
  intros l1 l2 (nd1 & lats1 & Hn1 & -> & HF1)%Latency_inv
               (nd2 & lats2 & Hn2 & -> & HF2)%Latency_inv.
  assert (nd2 = nd1) as -> by congruence.
  assert (lats1 = lats2) as ->; [|done].
  eapply InputLatency_fun; [|done..].
  intros c l l' Hc. apply IH.
  apply list_elem_of_fmap in Hc as (p & Hpc & Hp).
  apply list_elem_of_lookup_1 in Hp as [i Hi]. by eapply input_edge.
Qed.

(** X8.  The latency of a node does not depend on the root from which the
    graph is compiled: two compile passes of the same graph store the same
    latency on every node that both visit. *)
Theorem schedule_latency_root_independent (g : Graph) (root1 root2 : NodeRef)
    fuel1 fuel2 s1 s2 :
  closed g → acyclic g → fresh g →
  schedule_run fuel1 root1 g = Some s1 →
  schedule_run fuel2 root2 g = Some s2 →
  ∀ n nd1 nd2,
    heap s1 !! n = Some nd1 → Node.visited nd1 = true →
    heap s2 !! n = Some nd2 → Node.visited nd2 = true →
    Node.latency nd1 = Node.latency nd2.
Proof.
  intros Hclosed Hacyc Hfresh Hs1 Hs2 n nd1 nd2 Hn1 Hv1 Hn2 Hv2.
  destruct (schedule_run_Inv g root1 Hacyc Hfresh fuel1 s1 Hs1) as [HI1 _].
  destruct (schedule_run_Inv g root2 Hacyc Hfresh fuel2 s2 Hs2) as [HI2 _].
  destruct (visited_latency g s1 n nd1 HI1 Hn1 Hv1) as (l1 & -> & HL1).
  destruct (visited_latency g s2 n nd2 HI2 Hn2 Hv2) as (l2 & -> & HL2).
  f_equal. eapply Latency_fun; [|done..]. by apply acyclic_sn.
Qed.

Lemma schedule_latency_root_independent_witness :
  ∃ s1 s2,
    schedule_run 4 Example.sink Example.graph = Some s1 ∧
    schedule_run 2 Example.right Example.graph = Some s2 ∧
    ∀ n nd1 nd2,
      heap s1 !! n = Some nd1 → Node.visited nd1 = true →
      heap s2 !! n = Some nd2 → Node.visited nd2 = true →
      Node.latency nd1 = Node.latency nd2.
Proof.
  eexists. eexists. split; [vm_compute; reflexivity|].
  split; [vm_compute; reflexivity|].
  apply (schedule_latency_root_independent Example.graph Example.sink Example.right 4 2).
  - apply closedb_closed. vm_compute. reflexivity.
  - apply (ranked_acyclic (λ n, 3 - n)%nat). vm_compute. reflexivity.
  - vm_compute. reflexivity.
  - vm_compute. reflexivity.
  - vm_compute. reflexivity.
Defined.

(** ** The buffer pool *)

Lemma releaseEach_state outs s :
  foldl (λ s output, releaseBuffer (Port.buffer output) s) s outs
  = mkState (heap s) (order s)
            (reverse (Port.buffer <$> outs) ++ bufferStack s) (allocated s).
Proof.
  revert s. induction outs as [|o outs IH]; intros s; [by destruct s|].
  cbn [foldl]. rewrite IH. cbn [releaseBuffer heap order bufferStack allocated].
  rewrite fmap_cons, reverse_cons, <-app_assoc. done.
Qed.

Lemma acquireEach_pop ports :
  ∀ bs h o st a, length bs = length ports →
    acquireEach ports (mkState h o (bs ++ st) a)
    = (zip_with Port.set_buffer bs ports, mkState h o st a).
Proof.
  induction ports as [|p ports IH]; intros [|b bs] h o st a Hlen; try done.
  simpl in Hlen. cbn [acquireEach]. unfold acquireBuffer at 1. simpl.
  rewrite IH by lia. done.
Qed.

(** X9.  The pool is a stack: once the output buffers of a node have been
    released, acquiring buffers for as many ports gives back exactly those
    buffers, the last released first, allocates nothing and leaves the pool
    as it was before the release. *)
Theorem acquire_after_release (outs ports : list Port.t) (s : State) :
  length ports = length outs →
  acquireEach ports
    (foldl (λ s output, releaseBuffer (Port.buffer output) s) s outs)
  = (zip_with Port.set_buffer (reverse (Port.buffer <$> outs)) ports, s).
Proof.
  intros Hlen. rewrite releaseEach_state, acquireEach_pop.
  - by destruct s.
  - by rewrite length_reverse, length_fmap.
Qed.

Lemma acquire_after_release_witness :
  length (Node.outputs Example.source_node)
  = length [Port.mk "a" None None None (Some 3%nat);
            Port.mk "b" None None None (Some 5%nat)] ∧
  acquireEach (Node.outputs Example.source_node)
    (foldl (λ s output, releaseBuffer (Port.buffer output) s)
           (initial Example.graph)
           [Port.mk "a" None None None (Some 3%nat);
            Port.mk "b" None None None (Some 5%nat)])
  = (zip_with Port.set_buffer
       (reverse (Port.buffer <$> [Port.mk "a" None None None (Some 3%nat);
                                  Port.mk "b" None None None (Some 5%nat)]))
       (Node.outputs Example.source_node),
     initial Example.graph).
Proof.
  split; [reflexivity|].
  apply (acquire_after_release
           [Port.mk "a" None None None (Some 3%nat);
            Port.mk "b" None None None (Some 5%nat)]
           (Node.outputs Example.source_node) (initial Example.graph)).
  reflexivity.
Defined.

Lemma acquireEach_empty ports :
  ∀ h o a,
    acquireEach ports (mkState h o [] a)
    = (imap (λ j p, Port.set_buffer (Some (a + j)%nat) p) ports,
       mkState h o [] (a + length ports)%nat).
Proof.
  induction ports as [|p ports IH]; intros h o a.
  - simpl. by rewrite Nat.add_0_r.
  - cbn [acquireEach]. unfold acquireBuffer at 1. simpl. rewrite IH.
    rewrite Nat.add_0_r. f_equal.
    + f_equal. apply imap_ext. intros j x _. simpl. f_equal. f_equal. lia.
    + f_equal. lia.
Qed.

(** ** A root without inputs *)

Lemma finish_allocated n s2 : allocated (finish n s2) = allocated s2.
Proof.
  unfold finish. cbn [updNode set_heap allocated]. unfold pushStep.
  destruct (heap (updNode n solveLatency (releaseOutputs n s2)) !! n);
    cbn [allocated updNode set_heap]; unfold releaseOutputs;
    (destruct (heap s2 !! n); [rewrite releaseEach_state|]; done).
Qed.

(** X10.  Compiling from a root that is not marked and has no input gives a
    schedule of one step, whatever else the graph holds: the step has no
    input binding, its output of index [j] is bound to the new buffer [j],
    and the latency stored on the root is [0 + delay], which is its delay
    (but for a delay that is the negative zero, whose sum with [0] is the
    positive zero). *)
Theorem schedule_root_without_inputs (g : Graph) (root : NodeRef) (nd : Node.t) fuel :
  g !! root = Some nd → Node.visited nd = false → Node.inputs nd = [] →
  ∃ s,
    schedule_run (S fuel) root g = Some s ∧
    order s =
      [Scheduled.mk root []
         (imap (λ j o, BufferAssignment.mk (Port.name o) (Some j) None)
               (Node.outputs nd))] ∧
    Node.latency <$> heap s !! root
      = Some (Some (number_add (of_int 0) (Node.delay nd))) ∧
    (Node.delay nd ≠ S754_zero true →
     number_add (of_int 0) (Node.delay nd) = Node.delay nd) ∧
    allocated s = length (Node.outputs nd).
Proof.
  intros Hn Hv Hin. unfold schedule_run. cbn [visit]. unfold visitNode.
  cbn [initial heap]. rewrite Hn. cbn [mbind option_bind]. rewrite Hv, Hin.
  cbn [length seq bindInputs mbind option_bind].
  set (s1 := acquireOutputs root (initial g)).
  change (updNode root (Node.set_visited true)
            (pushStep root (updNode root solveLatency (releaseOutputs root s1))))
    with (finish root s1).
  assert (Hs1 : s1 = mkState
            (<[root := Node.set_outputs
                 (imap (λ j p, Port.set_buffer (Some (0 + j)%nat) p) (Node.outputs nd))
                 nd]> g)
            [] [] (0 + length (Node.outputs nd))%nat).
  { unfold s1, acquireOutputs. cbn [initial heap]. rewrite Hn.
    unfold initial. rewrite acquireEach_empty. unfold updNode, set_heap.
    cbn [heap order bufferStack allocated]. f_equal.
    apply map_eq. intros k. destruct (decide (root = k)) as [->|Hne].
    - by rewrite lookup_alter_eq, lookup_insert_eq, Hn.
    - by rewrite lookup_alter_ne, lookup_insert_ne. }
  set (nd1 := Node.set_outputs
                (imap (λ j p, Port.set_buffer (Some (0 + j)%nat) p) (Node.outputs nd))
                nd) in *.
  assert (Hn1 : heap s1 !! root = Some nd1).
  { rewrite Hs1. cbn [heap]. by rewrite lookup_insert_eq. }
  destruct (finish_state root s1 nd1 Hn1) as (Hh & Ho & Hst).
  assert (Hn6 : heap (finish root s1) !! root
                = Some (Node.set_visited true (solveLatency nd1))).
  { by rewrite Hh, lookup_insert_eq. }
  rewrite Hn6. cbn [mbind option_bind fmap option_fmap option_map snd].
  eexists. split; [reflexivity|]. split_and!.
  - rewrite Ho, Hs1. cbn [order app]. f_equal. unfold stepOf, solveLatency.
    cbn [Node.inputs Node.outputs Node.set_latency Node.set_inputs nd1
         Node.set_outputs].
    rewrite Hin. cbn [map]. f_equal.
    change (map ?f ?l) with (f <$> l). rewrite fmap_imap.
    apply imap_ext. intros j o _. done.
  - rewrite Hn6. cbn [fmap option_fmap option_map]. do 2 f_equal.
    unfold solveLatency. cbn [Node.latency Node.set_visited Node.set_latency
      Node.set_inputs Node.inputs nd1 Node.set_outputs Node.delay].
    rewrite Hin. done.
  - by destruct (Node.delay nd) as [[]|[]| |[] m e].
  - by rewrite finish_allocated, Hs1.
Qed.

Lemma schedule_root_without_inputs_witness :
  ∃ s,
    schedule_run 1 Example.source Example.graph = Some s ∧
    order s =
      [Scheduled.mk Example.source []
         (imap (λ j o, BufferAssignment.mk (Port.name o) (Some j) None)
               (Node.outputs Example.source_node))] ∧
    Node.latency <$> heap s !! Example.source
      = Some (Some (number_add (of_int 0) (Node.delay Example.source_node))) ∧
    (Node.delay Example.source_node ≠ S754_zero true →
     number_add (of_int 0) (Node.delay Example.source_node)
     = Node.delay Example.source_node) ∧
    allocated s = length (Node.outputs Example.source_node).
Proof.
  apply (schedule_root_without_inputs Example.graph Example.source
           Example.source_node 0); reflexivity.
Defined.

(** ** Feedback: the traversal of a cycle does not return *)

Lemma visitedIn_alter (h : Graph) n f x :
  (∀ nd, Node.visited (f nd) = Node.visited nd) →
  visitedIn (alter f n h) x ↔ visitedIn h x.
Proof.
  intros Hf. unfold visitedIn. destruct (decide (n = x)) as [->|Hne].
  - rewrite lookup_alter_eq. destruct (h !! x) as [nd|]; simpl.
    + split; intros (nd' & Heq & Hv).
      * injection Heq as <-. exists nd. by rewrite <-Hf.
      * injection Heq as <-. exists (f nd). by rewrite Hf.
    + split; intros (? & ? & _); done.
  - by rewrite lookup_alter_ne.
Qed.

Lemma trap_keep C (h h' : Graph) :
  trap C h → reset h' = reset h →
  (∀ x, C x → visitedIn h' x → visitedIn h x) →
  trap C h'.
Proof.
  intros Ht Hr Hv x Hx. destruct (Ht x Hx) as [Hnv (y & Hy & He)]. split.
  - intros Hx'. by apply Hnv, Hv.
  - exists y. split; [done|]. symmetry in Hr. by eapply edge_shape.
Qed.

(** The input of index [i] of [n] is connected to [y]. *)
Lemma connected_shape (h h' : Graph) n i y :
  reset h' = reset h →
  (∃ nd p c, h !! n = Some nd ∧ Node.inputs nd !! i = Some p ∧
             Port.connection p = Some c ∧ Connection.node c = y) →
  ∃ nd p c, h' !! n = Some nd ∧ Node.inputs nd !! i = Some p ∧
            Port.connection p = Some c ∧ Connection.node c = y.
Proof.
  intros Hr (nd & p & c & Hn & Hi & Hc & Hy). symmetry in Hr.
  destruct (reset_eq_lookup _ _ _ _ Hr Hn) as (nd' & Hn' & Hrn).
  destruct (shape_input _ _ _ _ Hrn Hi) as (p' & Hi' & _ & Hc').
  exists nd', p', c. split_and!; try done. congruence.
Qed.

Section feedback.
Context (rec : NodeRef → State → option (Visit * State)).
Hypothesis rec_shape :
  ∀ m s r s', rec m s = Some (r, s') → reset (heap s') = reset (heap s).
Hypothesis rec_none : ∀ C n s, trap C (heap s) → C n → rec n s = None.
Hypothesis rec_keep :
  ∀ C n s r s', rec n s = Some (r, s') → trap C (heap s) → trap C (heap s').

Lemma bindInput_keep C n i s s' :
  bindInput rec n i s = Some s' → trap C (heap s) → trap C (heap s').
Proof using rec_shape rec_keep.
  intros H Ht. assert (Hs := bindInput_shape rec rec_shape _ _ _ _ H).
  unfold bindInput in H.
  destruct (heap s !! n) as [nd|] eqn:Hn; simpl in H; [|done].
  destruct (Node.inputs nd !! i) as [input|] eqn:Hinput; simpl in H; [|done].
  destruct (Port.connection input) as [c|] eqn:Hc.
  - destruct (rec (Connection.node c) s) as [[r s1]|] eqn:Hv; simpl in H; [|done].
    injection H as <-. apply (trap_keep C (heap s1)).
    + by eapply rec_keep.
    + rewrite Hs. symmetry. by eapply rec_shape.
    + intros x _. simpl. rewrite !visitedIn_alter; done.
  - destruct (acquireBuffer _) as [b s2] eqn:Hb. injection H as <-.
    apply (trap_keep C (heap s)); [done..|].
    intros x _. simpl.
    assert (Hh := acquireBuffer_heap (updInput n i (Port.set_latency (Some (of_int 0))) s)).
    rewrite Hb in Hh. cbn [snd] in Hh. rewrite Hh. simpl.
    rewrite !visitedIn_alter; done.
Qed.

Lemma bindInputs_keep C n indices :
  ∀ s s', bindInputs rec n indices s = Some s' → trap C (heap s) → trap C (heap s').
Proof using rec_shape rec_keep.
  induction indices as [|i rest IH]; intros s s' H Ht; simpl in H.
  - by injection H as <-.
  - destruct (bindInput rec n i s) as [s1|] eqn:H1; simpl in H; [|done].
    eapply IH; [done|]. by eapply bindInput_keep.
Qed.

Lemma bindInputs_none C n i y indices :
  C y → i ∈ indices →
  ∀ s, trap C (heap s) →
    (∃ nd p c, heap s !! n = Some nd ∧ Node.inputs nd !! i = Some p ∧
               Port.connection p = Some c ∧ Connection.node c = y) →
    bindInputs rec n indices s = None.
Proof using rec_shape rec_none rec_keep.
  intros Hy. induction indices as [|j rest IH]; intros Hi s Ht Hconn.
  { by apply elem_of_nil in Hi. }
  simpl. destruct (bindInput rec n j s) as [s1|] eqn:H1; [|done]. simpl.
  destruct (decide (i = j)) as [->|Hne].
  - exfalso. destruct Hconn as (nd & p & c & Hn & Hp & Hc & <-).
    unfold bindInput in H1. rewrite Hn in H1. simpl in H1.
    rewrite Hp in H1. simpl in H1. rewrite Hc in H1.
    by rewrite (rec_none C _ s Ht Hy) in H1.
  - apply IH.
    + apply elem_of_cons in Hi as [?|?]; done.
    + by eapply bindInput_keep.
    + eapply connected_shape; [|exact Hconn].
      by eapply bindInput_shape.
Qed.

Lemma visitNode_none C n s : trap C (heap s) → C n → visitNode rec n s = None.
Proof using rec_shape rec_none rec_keep.
  intros Ht Hn. destruct (Ht n Hn) as [Hnv (y & Hy & He)].
  apply edge_inv in He as (nd & i & p & c & Hnd & Hi & Hc & Hcy).
  unfold visitNode. rewrite Hnd. simpl.
  destruct (Node.visited nd) eqn:Hv.
  { exfalso. apply Hnv. by exists nd. }
  rewrite (bindInputs_none C n i y); try done.
  - apply elem_of_seq. apply lookup_lt_Some in Hi. lia.
  - apply (trap_keep C (heap s)); [done|apply acquireOutputs_shape|].
    intros x _. unfold acquireOutputs. rewrite Hnd.
    destruct (acquireEach _ _) as [outs s1] eqn:He.
    destruct (acquireEach_spec (Node.outputs nd) s) as (Hh & _ & _).
    rewrite He in Hh. simpl in Hh. simpl. rewrite Hh.
    rewrite visitedIn_alter; done.
  - eapply connected_shape; [apply acquireOutputs_shape|].
    by exists nd, p, c.
Qed.

Lemma visitNode_keep C n s r s' :
  visitNode rec n s = Some (r, s') → trap C (heap s) → trap C (heap s').
Proof using rec_shape rec_none rec_keep.
  intros H Ht.
  assert (HnC : ¬ C n).
  { intros Hn. by rewrite (visitNode_none C n s Ht Hn) in H. }
  assert (Hs := visitNode_shape rec rec_shape _ _ _ _ H).
  unfold visitNode in H.
  destruct (heap s !! n) as [nd|] eqn:Hnd; simpl in H; [|done].
  destruct (Node.visited nd) eqn:Hv; simpl in H.
  { rewrite Hnd in H. simpl in H. by injection H as _ <-. }
  destruct (bindInputs rec n _ _) as [s2|] eqn:H2; [|done].
  change ((nd' ← heap (finish n s2) !! n;
           Some (mkVisit (Node.latency nd') (map reportOutput (Node.outputs nd')),
                 finish n s2)) = Some (r, s')) in H.
  destruct (heap (finish n s2) !! n) as [nd6|] eqn:H6; simpl in H; [|done].
  injection H as _ <-.
  assert (Ht2 : trap C (heap s2)).
  { eapply bindInputs_keep; [exact H2|].
    apply (trap_keep C (heap s)); [done|apply acquireOutputs_shape|].
    intros x _. unfold acquireOutputs. rewrite Hnd.
    destruct (acquireEach _ _) as [outs s1] eqn:He.
    destruct (acquireEach_spec (Node.outputs nd) s) as (Hh & _ & _).
    rewrite He in Hh. simpl in Hh. simpl. rewrite Hh.
    rewrite visitedIn_alter; done. }
  apply (trap_keep C (heap s2)); [done| |].
  - rewrite Hs. symmetry.
    erewrite bindInputs_shape; [apply acquireOutputs_shape|exact rec_shape|exact H2].
  - intros x Hx (xd & Hxd & Hxv). exists xd. split; [|done].
    assert (x ≠ n) by (intros ->; done).
    unfold finish in Hxd. simpl in Hxd.
    rewrite lookup_alter_ne, pushStep_heap in Hxd by done. simpl in Hxd.
    by rewrite lookup_alter_ne, releaseOutputs_heap in Hxd.
Qed.
End feedback.

Lemma visit_trapped fuel :
  (∀ C n s, trap C (heap s) → C n → visit fuel n s = None) ∧
  (∀ C n s r s', visit fuel n s = Some (r, s') → trap C (heap s) → trap C (heap s')).
Proof.
  induction fuel as [|fuel [IHnone IHkeep]]; [done|]. split.
  - intros C n s. apply (visitNode_none (visit fuel)); [|done..].
    intros m s0 r s'. apply visit_shape.
  - intros C n s r s'. apply (visitNode_keep (visit fuel)); [|done..].
    intros m s0 r0 s0'. apply visit_shape.
Qed.

Lemma tc_first {A} (R : relation A) x z : tc R x z → ∃ y, R x y ∧ rtc R y z.
Proof.
  intros H. destruct H as [x z H|x y z H Htc].
  - exists z. split; [done|]. apply rtc_refl.
  - exists y. split; [done|]. by apply tc_rtc.
Qed.

(** X11.  Cycles are not handled: when the root can reach a cycle of
    connections and no node within reach of the root is marked visited,
    [schedule] does not return, whatever the fuel (the recursion of [visit]
    does not end). *)
Theorem schedule_diverges_on_cycle (g : Graph) (root c : NodeRef) :
  (∀ n, rtc (edge g) root n → ¬ visitedIn g n) →
  rtc (edge g) root c → tc (edge g) c c →
  ∀ fuel, schedule fuel root g = None.
Proof.
  intros Hnv Hrc Hcc fuel.
  set (C := λ x, rtc (edge g) root x ∧ rtc (edge g) x c).
  assert (Ht : trap C (heap (initial g))).
  { intros x [Hrx Hxc]. split; [by apply Hnv|].
    assert (∃ y, edge g x y ∧ rtc (edge g) y c) as (y & He & Hyc).
    { destruct Hxc as [|x y z He Hyc]; [by apply tc_first|]. by exists y. }
    exists y. split; [|done]. split; [|done]. by eapply rtc_r. }
  destruct (visit_trapped fuel) as [Hnone _].
  unfold schedule, schedule_run. rewrite (Hnone C root (initial g) Ht); [done|].
  split; [apply rtc_refl|done].
Qed.

Lemma schedule_diverges_on_cycle_witness :
  tc (edge Feedback.graph) Feedback.ping Feedback.ping ∧
  ∀ fuel, schedule fuel Feedback.ping Feedback.graph = None.
Proof.
  assert (Hcycle : tc (edge Feedback.graph) Feedback.ping Feedback.ping).
  { apply (tc_l _ _ Feedback.pong).
    - exists Feedback.ping_node. split; [reflexivity|]. apply list_elem_of_here.
    - apply tc_once. exists Feedback.pong_node. split; [reflexivity|].
      apply list_elem_of_here. }
  split; [exact Hcycle|].
  apply (schedule_diverges_on_cycle Feedback.graph Feedback.ping Feedback.ping).
  - intros n _. apply fresh_unvisited. vm_compute. reflexivity.
  - apply rtc_refl.
  - exact Hcycle.
Defined.

(** ** The accounts of the buffer pool *)

Lemma newBuffers_refl a : newBuffers a a = [].
Proof. unfold newBuffers. by rewrite Nat.sub_diag. Qed.

Lemma newBuffers_app a a' a'' :
  (a ≤ a')%nat → (a' ≤ a'')%nat →
  newBuffers a a' ++ newBuffers a' a'' = newBuffers a a''.
Proof.
  intros H1 H2. unfold newBuffers. rewrite <-fmap_app.
  replace (a'' - a)%nat with ((a' - a) + (a'' - a'))%nat by lia.
  rewrite seq_app. do 3 f_equal. lia.
Qed.

Lemma newBuffers_S a : newBuffers a (S a) = [Some a].
Proof. unfold newBuffers. by replace (S a - a)%nat with 1%nat by lia. Qed.

Lemma newBuffers_elem a a' b :
  b ∈ newBuffers a a' → ∃ x, b = Some x ∧ (a ≤ x < a')%nat.
Proof.
  unfold newBuffers. intros (x & -> & Hx)%list_elem_of_fmap.
  apply elem_of_seq in Hx. exists x. split; [done|lia].
Qed.

Lemma newBuffers_NoDup a a' : NoDup (newBuffers a a').
Proof.
  unfold newBuffers. apply NoDup_fmap_2; [|apply NoDup_seq].
  intros x y H. by injection H.
Qed.

Lemma allocatedBuffer_mono a a' b :
  (a ≤ a')%nat → allocatedBuffer a b → allocatedBuffer a' b.
Proof. intros Hle (x & -> & Hx). exists x. split; [done|lia]. Qed.

Lemma outputsOk_mono a a' st : (a ≤ a')%nat → outputsOk a st → outputsOk a' st.
Proof.
  intros Hle [Hnd Hall]. split; [done|].
  eapply Forall_impl; [exact Hall|]. intros b. by apply allocatedBuffer_mono.
Qed.

Lemma PoolPost_refl s : PoolPost s s.
Proof. split; [done|]. by rewrite newBuffers_refl, app_nil_r. Qed.

Lemma PoolPost_trans s1 s2 s3 : PoolPost s1 s2 → PoolPost s2 s3 → PoolPost s1 s3.
Proof.
  intros [H1 P1] [H2 P2]. split; [lia|].
  rewrite P2, P1, <-app_assoc, newBuffers_app; done.
Qed.

(** The pool together with the buffers that are held, when both come from a
    pool in order and from new buffers. *)
Lemma pool_split a a' (stack held rest : list (option Buffer)) :
  (a ≤ a')%nat →
  NoDup stack → Forall (allocatedBuffer a) stack →
  held ++ rest ≡ₚ stack ++ newBuffers a a' →
  NoDup held ∧ Forall (allocatedBuffer a') held ∧
  NoDup rest ∧ Forall (allocatedBuffer a') rest.
Proof.
  intros Hle Hnd Hall Hperm.
  assert (Hnd' : NoDup (stack ++ newBuffers a a')).
  { apply NoDup_app. split_and!; [done| |apply newBuffers_NoDup].
    intros b Hb Hb'. rewrite Forall_forall in Hall.
    destruct (Hall b Hb) as (x & -> & Hx).
    apply newBuffers_elem in Hb' as (y & Hy & Hy'). injection Hy as ->. lia. }
  assert (Hall' : Forall (allocatedBuffer a') (stack ++ newBuffers a a')).
  { apply Forall_app. split.
    - eapply Forall_impl; [exact Hall|]. intros b. by apply allocatedBuffer_mono.
    - apply Forall_forall. intros b (x & -> & Hx)%newBuffers_elem.
      exists x. split; [done|lia]. }
  rewrite <-Hperm in Hnd', Hall'.
  apply NoDup_app in Hnd' as (? & _ & ?). apply Forall_app in Hall' as [? ?].
  done.
Qed.

Lemma PoolOk_post s s' : PoolOk s → PoolPost s s' → PoolOk s'.
Proof.
  intros [Hnd Hall] [Hle Hperm].
  destruct (pool_split (allocated s) (allocated s') (bufferStack s) []
              (bufferStack s') Hle Hnd Hall Hperm) as (_ & _ & ? & ?).
  by split.
Qed.

(** Acquiring the buffers of a list of ports. *)
Lemma acquireEach_pool ports :
  ∀ s outs s1, acquireEach ports s = (outs, s1) →
    (allocated s ≤ allocated s1)%nat ∧
    (Port.buffer <$> outs) ++ bufferStack s1
      ≡ₚ bufferStack s ++ newBuffers (allocated s) (allocated s1).
Proof.
  induction ports as [|p ports IH]; intros s outs s1 H; simpl in H.
  - injection H as <- <-. split; [done|]. by rewrite newBuffers_refl, app_nil_r.
  - destruct (acquireBuffer s) as [b s'] eqn:Hb.
    destruct (acquireEach ports s') as [rest s''] eqn:Hrest.
    injection H as <- <-. destruct (IH _ _ _ Hrest) as [Hle Hperm].
    unfold acquireBuffer in Hb. destruct (bufferStack s) as [|b0 st] eqn:Hst.
    + injection Hb as <- <-.
      cbn [heap order bufferStack allocated] in Hle, Hperm. split; [lia|].
      rewrite fmap_cons. cbn [app Port.buffer Port.set_buffer]. rewrite Hperm.
      rewrite <-(newBuffers_app (allocated s) (S (allocated s))) by lia.
      by rewrite newBuffers_S.
    + injection Hb as <- <-.
      cbn [heap order bufferStack allocated] in Hle, Hperm. split; [done|].
      rewrite fmap_cons. cbn [app Port.buffer Port.set_buffer]. by rewrite Hperm.
Qed.

Section pool.
Context (g : Graph).
Hypothesis g_acyclic : acyclic g.
Hypothesis g_fresh : fresh g.

(** One turn of the loop over the inputs leaves the pool as it found it,
    new buffers apart, and the outputs of the node with their buffers. *)
Lemma bindInput_pool rec n s0 k held s1 s s' :
  Spec g rec → PoolSpec g rec →
  Loop g n s0 k s → PoolOk s1 → PoolLoop n held s1 s →
  bindInput rec n k s = Some s' → PoolLoop n held s1 s'.
Proof using g_acyclic.
  intros Hrec Hpool HL Hok1 [Hpost Hord (nd_ & Hn_ & Hheld)] H.
  unfold bindInput in H.
  destruct (heap s !! n) as [nd|] eqn:Hn; simpl in H; [|done].
  injection Hn_ as <-.
  destruct (Node.inputs nd !! k) as [input|] eqn:Hinput; simpl in H; [|done].
  destruct (Port.connection input) as [c|] eqn:Hc.
  - destruct (rec (Connection.node c) s) as [[r s2]|] eqn:Hv; simpl in H; [|done].
    injection H as <-.
    assert (He : edge g n (Connection.node c)).
    { eapply edge_shape; [apply (inv_shape _ _ (loop_inv _ _ _ _ _ HL))|].
      by eapply input_edge. }
    assert (HPr : Pristine g (Connection.node c) s).
    { intros x Hr Hnv. apply (loop_pristine _ _ _ _ _ HL); [|done].
      by eapply tc_rtc_r; [apply tc_once|]. }
    assert (HP : Post g (Connection.node c) s r s2).
    { apply Hrec; [apply HL|done|done]. }
    destruct (Hpool _ _ _ _ (loop_inv _ _ _ _ _ HL) HPr
                (PoolOk_post _ _ Hok1 Hpost) Hord Hv) as [Hpost2 Hord2].
    assert (Hn2 : heap s2 !! n = Some nd).
    { rewrite (post_frame _ _ _ _ _ HP); [done|].
      by apply (edge_not_back g g_acyclic). }
    split.
    + by apply (PoolPost_trans _ _ _ Hpost) in Hpost2 as [? ?].
    + exact Hord2.
    + eexists. split.
      * cbn [updInput updNode set_heap heap].
        rewrite !lookup_alter_eq, Hn2. reflexivity.
      * exact Hheld.
  - destruct (acquireBuffer _) as [b s2] eqn:Hb. injection H as <-.
    unfold acquireBuffer in Hb.
    cbn [updInput updNode set_heap heap order bufferStack allocated] in Hb.
    destruct Hpost as [Hle Hperm].
    assert (Hheap : ∀ f f' h,
      h = alter (λ nd, Node.set_inputs (alter f' k (Node.inputs nd)) nd) n
            (alter (λ nd, Node.set_inputs (alter f k (Node.inputs nd)) nd) n (heap s)) →
      ∃ nd', h !! n = Some nd' ∧ Port.buffer <$> Node.outputs nd' = held).
    { intros f f' h ->. eexists. split.
      - rewrite !lookup_alter_eq, Hn. reflexivity.
      - exact Hheld. }
    destruct (bufferStack s) as [|b0 st] eqn:Hst.
    + injection Hb as <- <-.
      split; cbn [releaseBuffer updInput updNode set_heap heap order bufferStack allocated].
      * split;
          cbn [releaseBuffer updInput updNode set_heap heap order bufferStack allocated];
          [lia|].
        rewrite <-(newBuffers_app (allocated s1) (allocated s)) by lia.
        rewrite newBuffers_S, app_assoc, <-Hperm. done.
      * eapply Forall_impl; [exact Hord|]. intros st. apply outputsOk_mono. lia.
      * by eapply Hheap.
    + injection Hb as <- <-.
      split; cbn [releaseBuffer updInput updNode set_heap heap order bufferStack allocated].
      * split;
          cbn [releaseBuffer updInput updNode set_heap heap order bufferStack allocated];
          [done|].
        by rewrite <-Hperm.
      * done.
      * by eapply Hheap.
Qed.

Lemma bindInputs_pool rec n s0 held s1 cnt :
  Spec g rec → PoolSpec g rec → PoolOk s1 →
  ∀ k s s', Loop g n s0 k s → PoolLoop n held s1 s →
            bindInputs rec n (seq k cnt) s = Some s' → PoolLoop n held s1 s'.
Proof using g_acyclic.
  intros Hrec Hpool Hok1. induction cnt as [|cnt IH]; intros k s s' HL HPL H; simpl in H.
  - by injection H as <-.
  - bind_inv H. eapply (IH (S k)); [| |done].
    + by eapply (bindInput_Loop g g_acyclic).
    + by eapply bindInput_pool.
Qed.
(** The body of [visit] keeps the accounts of the pool if its recursive
    calls do. *)
Lemma visitNode_pool rec : Spec g rec → PoolSpec g rec → PoolSpec g (visitNode rec).
Proof using g_acyclic g_fresh.
  intros Hrec Hpool n s r s' HI HP Hok Hord H. unfold visitNode in H.
  destruct (heap s !! n) as [nd|] eqn:Hn; simpl in H; [|done].
  destruct (Node.visited nd) eqn:Hv; simpl in H.
  - rewrite Hn in H. simpl in H. injection H as <- <-.
    split; [apply PoolPost_refl|done].
  - destruct (bindInputs rec n _ _) as [s2|] eqn:H2; [|done].
    change ((nd' ← heap (finish n s2) !! n;
             Some (mkVisit (Node.latency nd') (map reportOutput (Node.outputs nd')),
                   finish n s2)) = Some (r, s')) in H.
    destruct (heap (finish n s2) !! n) as [nd6|]; simpl in H; [|done].
    injection H as <- <-.
    assert (HL := Loop_entry g g_acyclic g_fresh n s nd HI HP Hn Hv).
    unfold acquireOutputs in H2, HL. rewrite Hn in H2, HL.
    destruct (acquireEach (Node.outputs nd) s) as [outs s1] eqn:He.
    destruct (acquireEach_spec (Node.outputs nd) s) as (Hh & Ho & _).
    rewrite He in Hh, Ho. cbn [fst snd] in Hh, Ho.
    destruct (acquireEach_pool _ _ _ _ He) as [Hle Hperm].
    destruct Hok as [Hnd Hall].
    destruct (pool_split _ _ _ _ _ Hle Hnd Hall Hperm) as (Hheld & Hheldall & Hnd1 & Hall1).
    set (e := updNode n (Node.set_outputs outs) s1) in *.
    assert (Hoke : PoolOk e) by by split.
    assert (HPL : PoolLoop n (Port.buffer <$> outs) e e).
    { split.
      - apply PoolPost_refl.
      - change (Forall (outputsOk (allocated s1)) (order s1)). rewrite Ho.
        eapply Forall_impl; [exact Hord|]. intros st. by apply outputsOk_mono.
      - exists (Node.set_outputs outs nd). split; [|reflexivity].
        change (alter (Node.set_outputs outs) n (heap s1) !! n
                = Some (Node.set_outputs outs nd)).
        by rewrite lookup_alter_eq, Hh, Hn. }
    destruct (bindInputs_pool rec n s (Port.buffer <$> outs) e _ Hrec Hpool Hoke
                _ _ _ HL HPL H2) as [[Hle2 Hperm2] Hord2 (nd2 & Hn2 & Hheld2)].
    destruct (finish_state n s2 nd2 Hn2) as (_ & Hofin & Hstfin).
    rewrite releaseEach_state in Hstfin. cbn [bufferStack] in Hstfin.
    change (allocated e) with (allocated s1) in *.
    change (bufferStack e) with (bufferStack s1) in *.
    split.
    + split; rewrite finish_allocated; [lia|].
      rewrite Hstfin, Hheld2, reverse_Permutation, Hperm2, app_assoc, Hperm.
      by rewrite <-app_assoc, newBuffers_app.
    + rewrite finish_allocated, Hofin. apply Forall_app. split; [done|].
      apply Forall_singleton.
      assert (Hbuf : BufferAssignment.buffer <$>
                       Scheduled.outputs (stepOf n (solveLatency nd2))
                     = Port.buffer <$> outs).
      { rewrite <-Hheld2. cbn [stepOf Scheduled.outputs solveLatency
                               Node.outputs Node.set_latency Node.set_inputs].
        change (map outputAssignment (Node.outputs nd2))
          with (outputAssignment <$> Node.outputs nd2).
        rewrite <-list_fmap_compose. by apply list_fmap_ext. }
      split; rewrite Hbuf; [done|].
      eapply Forall_impl; [exact Hheldall|]. intros b. by apply allocatedBuffer_mono.
Qed.

Lemma visit_pool fuel : PoolSpec g (visit fuel).
Proof using g_acyclic g_fresh.
  induction fuel as [|fuel IH]; [by intros n s r s' _ _ _ _ ?|].
  apply visitNode_pool; [|done]. by apply visit_Spec.
Qed.
End pool.

Lemma schedule_run_pool (g : Graph) (root : NodeRef) fuel s :
  acyclic g → fresh g →
  schedule_run fuel root g = Some s →
  PoolPost (initial g) s ∧ Forall (outputsOk (allocated s)) (order s).
Proof.
  intros Hacyc Hfresh. unfold schedule_run. intros H.
  destruct (visit fuel root (initial g)) as [[r s']|] eqn:Hv; [|done].
  simpl in H. injection H as ->.
  eapply (visit_pool g Hacyc Hfresh fuel root (initial g) r s).
  - by apply Inv_initial.
  - by intros k _ _.
  - split; [apply NoDup_nil_2|apply Forall_nil_2].
  - apply Forall_nil_2.
  - done.
Qed.

(** X12.  The buffer pool is conserved by a compile pass: when [schedule]
    returns, the free stack holds every buffer that was allocated, each
    exactly once.  No buffer is lost and none is released twice. *)
Theorem schedule_pool_conserved (g : Graph) (root : NodeRef) fuel s :
  acyclic g → fresh g →
  schedule_run fuel root g = Some s →
  bufferStack s ≡ₚ Some <$> seq 0 (allocated s).
Proof.
  intros Hacyc Hfresh Hs.
  destruct (schedule_run_pool g root fuel s Hacyc Hfresh Hs) as [[_ Hperm] _].
  cbn [initial bufferStack allocated app] in Hperm.
  unfold newBuffers in Hperm. by rewrite Nat.sub_0_r in Hperm.
Qed.

Lemma schedule_pool_conserved_witness :
  ∃ s, schedule_run 4 Example.sink Example.graph = Some s ∧
       bufferStack s ≡ₚ Some <$> seq 0 (allocated s).
Proof.
  eexists. split; [vm_compute; reflexivity|].
  apply (schedule_pool_conserved Example.graph Example.sink 4).
  - apply (ranked_acyclic (λ n, 3 - n)%nat). vm_compute. reflexivity.
  - vm_compute. reflexivity.
  - vm_compute. reflexivity.
Defined.

(** X13.  Within one step of the schedule the output bindings name
    pairwise different buffers, each of them a buffer that was allocated
    during the pass. *)
Theorem schedule_outputs_distinct (g : Graph) (root : NodeRef) fuel s :
  acyclic g → fresh g →
  schedule_run fuel root g = Some s →
  ∀ step, step ∈ order s →
    NoDup (BufferAssignment.buffer <$> Scheduled.outputs step) ∧
    ∀ a, a ∈ Scheduled.outputs step →
      ∃ b, BufferAssignment.buffer a = Some b ∧ (b < allocated s)%nat.
Proof.
  intros Hacyc Hfresh Hs step Hstep.
  destruct (schedule_run_pool g root fuel s Hacyc Hfresh Hs) as [_ Hord].
  rewrite Forall_forall in Hord. destruct (Hord step Hstep) as [Hnd Hall].
  split; [done|]. intros a Ha. rewrite Forall_forall in Hall.
  apply Hall. by apply list_elem_of_fmap_2.
Qed.

Lemma schedule_outputs_distinct_witness :
  ∃ s, schedule_run 4 Example.sink Example.graph = Some s ∧
  ∀ step, step ∈ order s →
    NoDup (BufferAssignment.buffer <$> Scheduled.outputs step) ∧
    ∀ a, a ∈ Scheduled.outputs step →
      ∃ b, BufferAssignment.buffer a = Some b ∧ (b < allocated s)%nat.
Proof.
  eexists. split; [vm_compute; reflexivity|].
  apply (schedule_outputs_distinct Example.graph Example.sink 4).
  - apply (ranked_acyclic (λ n, 3 - n)%nat). vm_compute. reflexivity.
  - vm_compute. reflexivity.
  - vm_compute. reflexivity.
Defined.

(** ** A store with marks left by an earlier pass *)

Lemma Kept_refl s : Kept s s.
Proof.
  split; [done|]. exists []. split; [by rewrite app_nil_r|].
  intros st Hst. by apply elem_of_nil in Hst.
Qed.

Lemma Kept_trans s1 s2 s3 : Kept s1 s2 → Kept s2 s3 → Kept s1 s3.
Proof.
  intros [Hm1 (new1 & Ho1 & Hn1)] [Hm2 (new2 & Ho2 & Hn2)]. split.
  - intros n nd Hn Hv. apply Hm2; [|done]. by apply Hm1.
  - exists (new1 ++ new2). split; [by rewrite Ho2, Ho1, app_assoc|].
    intros st [Hst|Hst]%elem_of_app; [by apply Hn1|].
    intros (nd & Hnd & Hv). apply (Hn2 st Hst). exists nd. split; [|done].
    by apply Hm1.
Qed.

(** Writing to a node that was not marked, and appending steps for it. *)
Lemma Kept_write n s0 s s' new :
  Kept s0 s → ¬ visitedIn (heap s0) n →
  (∀ k, k ≠ n → heap s' !! k = heap s !! k) →
  order s' = order s ++ new → (∀ st, st ∈ new → Scheduled.node st = n) →
  Kept s0 s'.
Proof.
  intros [Hm (new0 & Ho & Hn)] Hnv Hh Ho' Hnew. split.
  - intros k kd Hk Hv. rewrite Hh; [by apply Hm|].
    intros ->. apply Hnv. by exists kd.
  - exists (new0 ++ new). split; [by rewrite Ho', Ho, app_assoc|].
    intros st [Hst|Hst]%elem_of_app; [by apply Hn|]. by rewrite (Hnew st Hst).
Qed.

Section stale.
Context (rec : NodeRef → State → option (Visit * State)).
Hypothesis rec_kept : ∀ n s r s', rec n s = Some (r, s') → Kept s s'.

Lemma bindInput_kept n i s0 s s' :
  ¬ visitedIn (heap s0) n → Kept s0 s →
  bindInput rec n i s = Some s' → Kept s0 s'.
Proof using rec_kept.
  intros Hnv HK H. unfold bindInput in H.
  destruct (heap s !! n) as [nd|] eqn:Hn; simpl in H; [|done].
  destruct (Node.inputs nd !! i) as [input|] eqn:Hinput; simpl in H; [|done].
  destruct (Port.connection input) as [c|] eqn:Hc.
  - destruct (rec (Connection.node c) s) as [[r s1]|] eqn:Hv; simpl in H; [|done].
    injection H as <-.
    apply (Kept_write n s0 s1 _ []); [|done| | |].
    + eapply Kept_trans; [exact HK|]. by eapply rec_kept.
    + intros k Hk. cbn [updInput updNode set_heap heap].
      by rewrite !lookup_alter_ne.
    + by rewrite app_nil_r.
    + intros st Hst. by apply elem_of_nil in Hst.
  - destruct (acquireBuffer _) as [b s2] eqn:Hb. injection H as <-.
    assert (Hh := acquireBuffer_heap (updInput n i (Port.set_latency (Some (of_int 0))) s)).
    assert (Ho := acquireBuffer_order (updInput n i (Port.set_latency (Some (of_int 0))) s)).
    rewrite Hb in Hh, Ho. cbn [snd] in Hh, Ho.
    apply (Kept_write n s0 s _ []); [done|done| | |].
    + intros k Hk.
      cbn [releaseBuffer updInput updNode set_heap heap]. rewrite Hh.
      cbn [updInput updNode set_heap heap]. by rewrite !lookup_alter_ne.
    + cbn [releaseBuffer updInput updNode set_heap order]. rewrite Ho.
      by rewrite app_nil_r.
    + intros st Hst. by apply elem_of_nil in Hst.
Qed.

Lemma bindInputs_kept n s0 indices :
  ¬ visitedIn (heap s0) n →
  ∀ s s', Kept s0 s → bindInputs rec n indices s = Some s' → Kept s0 s'.
Proof using rec_kept.
  intros Hnv. induction indices as [|i rest IH]; intros s s' HK H; simpl in H.
  - by injection H as <-.
  - destruct (bindInput rec n i s) as [s1|] eqn:H1; simpl in H; [|done].
    eapply IH; [|done]. by eapply bindInput_kept.
Qed.

Lemma visitNode_kept n s r s' : visitNode rec n s = Some (r, s') → Kept s s'.
Proof using rec_kept.
  intros H. unfold visitNode in H.
  destruct (heap s !! n) as [nd|] eqn:Hn; simpl in H; [|done].
  destruct (Node.visited nd) eqn:Hv; simpl in H.
  { rewrite Hn in H. simpl in H. injection H as _ <-. apply Kept_refl. }
  destruct (bindInputs rec n _ _) as [s2|] eqn:H2; [|done].
  change ((nd' ← heap (finish n s2) !! n;
           Some (mkVisit (Node.latency nd') (map reportOutput (Node.outputs nd')),
                 finish n s2)) = Some (r, s')) in H.
  destruct (heap (finish n s2) !! n) as [nd6|] eqn:H6; simpl in H; [|done].
  injection H as _ <-.
  assert (Hnv : ¬ visitedIn (heap s) n).
  { intros (x & ? & ?). congruence. }
  assert (HK1 : Kept s (acquireOutputs n s)).
  { unfold acquireOutputs. rewrite Hn.
    destruct (acquireEach _ _) as [outs s1] eqn:He.
    destruct (acquireEach_spec (Node.outputs nd) s) as (Hh & Ho & _).
    rewrite He in Hh, Ho. cbn [fst snd] in Hh, Ho.
    apply (Kept_write n s s _ []); [apply Kept_refl|done| | |].
    - intros k Hk. cbn [updNode set_heap heap]. by rewrite lookup_alter_ne, Hh.
    - cbn [updNode set_heap order]. by rewrite Ho, app_nil_r.
    - intros st Hst. by apply elem_of_nil in Hst. }
  assert (HK2 := bindInputs_kept n s _ Hnv _ _ HK1 H2).
  destruct (heap s2 !! n) as [nd2|] eqn:Hn2.
  - destruct (finish_state n s2 nd2 Hn2) as (Hh & Ho & _).
    apply (Kept_write n s s2 _ [stepOf n (solveLatency nd2)]); [done|done| |done|].
    + intros k Hk. by rewrite Hh, lookup_insert_ne.
    + by intros st ->%list_elem_of_singleton.
  - exfalso. unfold finish in H6. cbn [updNode set_heap heap] in H6.
    rewrite lookup_alter_eq, pushStep_heap in H6. cbn [updNode set_heap heap] in H6.
    by rewrite lookup_alter_eq, releaseOutputs_heap, Hn2 in H6.
Qed.
End stale.

Lemma visit_kept fuel : ∀ n s r s', visit fuel n s = Some (r, s') → Kept s s'.
Proof.
  induction fuel as [|fuel IH]; intros n s r s' H; [done|].
  by eapply (visitNode_kept (visit fuel) IH).
Qed.

(** X14.  A pass leaves alone what an earlier pass has marked, whatever
    the graph: a node that is marked visited when [schedule] is called is
    not written to, and no step of the new schedule is for such a node. *)
Theorem schedule_skips_marked (g : Graph) (root : NodeRef) fuel s :
  schedule_run fuel root g = Some s →
  (∀ n nd, g !! n = Some nd → Node.visited nd = true → heap s !! n = Some nd) ∧
  (∀ step, step ∈ order s → ¬ visitedIn g (Scheduled.node step)).
Proof.
  unfold schedule_run. intros H.
  destruct (visit fuel root (initial g)) as [[r s']|] eqn:Hv; [|done].
  simpl in H. injection H as ->.
  destruct (visit_kept fuel root (initial g) r s Hv) as [Hm (new & Ho & Hnew)].
  split; [exact Hm|]. intros step Hstep. apply Hnew.
  by rewrite Ho in Hstep.
Qed.

Lemma schedule_skips_marked_witness :
  ∃ s, schedule_run 3 Example.sink Stale.graph = Some s ∧
    (∀ n nd, Stale.graph !! n = Some nd → Node.visited nd = true →
             heap s !! n = Some nd) ∧
    (∀ step, step ∈ order s → ¬ visitedIn Stale.graph (Scheduled.node step)).
Proof.
  eexists. split; [vm_compute; reflexivity|].
  apply (schedule_skips_marked Stale.graph Example.sink 3).
  vm_compute. reflexivity.
Defined.

(** ** The output an input is bound to *)


